(** * scousepy, stage 3: autonomous decomposition and compilation

    A shallow embedding of [src/scousepy/stage_3.py]: the task generator
    [initialise_fitting], the retry loop of [autonomous_decomposition], the
    fit executor [decomposition_method], and the compiler [compile_spectra] /
    [compilation_method]; and of what they read of the [saa] class of
    [src/scousepy/saa_description.py].

    Python objects are mutable and shared: the same [individual_spectrum]
    object sits in the pending list, in the completed list and in the final
    dictionary, and both the scheduler and the compiler rewrite its attributes
    in place.  The embedding therefore keeps a store ([heap]) from references
    ([loc]) to the current attribute values of each object, and lists and
    dictionaries hold references. *)

From Stdlib Require Import Floats Uint63 ZArith QArith Qround List Lia String.
From stdpp Require Import base list gmap functions sorting.

Local Open Scope Z_scope.

(* stdpp's solvers clear hypotheses that may be absent; decimal literals are
   read as the nearest binary64 float, as Python reads them. *)
#[local] Set Warnings "-clear-no-such-hyp,-inexact-float".

(** ** Python values and errors *)

(** Exceptions the embedded code can raise. *)
Inductive exn := AttributeError | IndexError | KeyError | ValueError.

(** Result of an embedded computation: a value, a raised exception, or (for
    the [while] loop only) the fuel of the model ran out. *)
Inductive res (A : Type) :=
| Ok (a : A)
| Raise (e : exn)
| OutOfFuel.
Arguments Ok {A} a.
Arguments Raise {A} e.
Arguments OutOfFuel {A}.

#[global] Instance res_ret : MRet res := λ A a, Ok a.

#[global] Instance res_bind : MBind res := λ A B f m,
  match m with
  | Ok a => f a
  | Raise e => Raise e
  | OutOfFuel => OutOfFuel
  end.

(** [l[i]] on a Python list or numpy array with a non-negative index. *)
Definition getitem {A} (l : list A) (i : nat) : res A :=
  match l !! i with
  | Some a => Ok a
  | None => Raise IndexError
  end.

(** Modelled from the spec: the [indivmodel] class of [model_housing2] is not
    under src/; the spec's FitResult has a parameter vector, per-parameter
    uncertainties, an information criterion value and a component count.  The
    AIC is a binary64 float, as in the source: it can be NaN or infinite. *)
Record indivmodel := {
  AIC : float;
  ncomps : Z;
  params : list Q;
  errors : list Q;
}.

(** The attributes [saa_dict_index], [saaindex] and [model_from_parent] hold an
    int (or a model, or [None]) until the compiler replaces each by a list:
    they are dynamically typed values. *)
#[warnings="-register-all"]
Inductive pyval :=
| PyNone
| PyInt (z : Z)
| PyModel (m : indivmodel)
| PyList (l : list pyval).

Definition guesses := list Q.

(** The pyspeckit template built by [gen_template], represented by what it is
    built from: the spectral axis, the cube's unit and the rest frequency. *)
Record psktemplate := {
  tpl_xarr : list Q;
  tpl_unit : string;
  tpl_refX : Q;
}.

(** Modelled from the spec: the [individual_spectrum] class of
    [model_housing2] is not under src/.  The fields are the attributes that
    stage 3 reads and writes; the constructor leaves [template],
    [guesses_updated] and [model_from_parent] at [None]. *)
Record individual_spectrum := {
  index : Z;
  coordinates : Z * Z;
  spectrum : list Q;
  rms : Q;
  saa_dict_index : pyval;
  saaindex : pyval;
  template : option psktemplate;
  guesses_from_parent : guesses;
  guesses_updated : option guesses;
  model_from_parent : pyval;
}.

(** [setattr(indivspec, 'template', v)] *)
Definition set_template (v : option psktemplate) (o : individual_spectrum) :=
  {| index := index o; coordinates := coordinates o; spectrum := spectrum o;
     rms := rms o; saa_dict_index := saa_dict_index o; saaindex := saaindex o;
     template := v;
     guesses_from_parent := guesses_from_parent o;
     guesses_updated := guesses_updated o;
     model_from_parent := model_from_parent o |}.

(** [setattr(indivspec, 'guesses_from_parent', v)] *)
Definition set_guesses_from_parent (v : guesses) (o : individual_spectrum) :=
  {| index := index o; coordinates := coordinates o; spectrum := spectrum o;
     rms := rms o; saa_dict_index := saa_dict_index o; saaindex := saaindex o;
     template := template o;
     guesses_from_parent := v;
     guesses_updated := guesses_updated o;
     model_from_parent := model_from_parent o |}.

(** [setattr(indivspec, 'guesses_updated', v)] *)
Definition set_guesses_updated (v : option guesses) (o : individual_spectrum) :=
  {| index := index o; coordinates := coordinates o; spectrum := spectrum o;
     rms := rms o; saa_dict_index := saa_dict_index o; saaindex := saaindex o;
     template := template o;
     guesses_from_parent := guesses_from_parent o;
     guesses_updated := v;
     model_from_parent := model_from_parent o |}.

(** Modelled from the spec: [individual_spectrum.add_model] is not under src/;
    the scheduler "attaches the model", and the compiler reads it back from
    [model_from_parent]. *)
Definition add_model (model : indivmodel) (o : individual_spectrum) :=
  {| index := index o; coordinates := coordinates o; spectrum := spectrum o;
     rms := rms o; saa_dict_index := saa_dict_index o; saaindex := saaindex o;
     template := template o;
     guesses_from_parent := guesses_from_parent o;
     guesses_updated := guesses_updated o;
     model_from_parent := PyModel model |}.

(** The three [setattr] calls that end every branch of [compilation_method]. *)
Definition set_provenance (sdi si mfp : pyval) (o : individual_spectrum) :=
  {| index := index o; coordinates := coordinates o; spectrum := spectrum o;
     rms := rms o; saa_dict_index := sdi; saaindex := si;
     template := template o;
     guesses_from_parent := guesses_from_parent o;
     guesses_updated := guesses_updated o;
     model_from_parent := mfp |}.

(** ** The object store *)

(** References are natural numbers; the store gives the current attributes of
    the object behind each reference.  ([heap] is an abbreviation, so that the
    lemmas on updated functions apply as they are.) *)
Definition loc := nat.
Abbreviation heap := (loc → individual_spectrum).

(** ** numpy *)

(** [np.size] of a guesses attribute: [np.size(None)] is 1. *)
Definition np_size_opt (g : option guesses) : nat :=
  match g with
  | None => 1%nat
  | Some l => length l
  end.

(** [np.rint] on a binary64 float: the nearest integer to its exact value,
    halves to the even one.  A finite float is [m * 2 ** e] with [m] of at most
    53 bits: with [e] not negative it is an integer; otherwise the integer
    found is below [2 ** 53] and is a float exactly.  Zeros, infinities and
    NaN are returned as they are; the sign is kept ([np.rint(-0.3)] is
    [-0.0]). *)
Definition rint (x : float) : float :=
  match Prim2SF x with
  | S754_finite s m e =>
      if e <? 0 then
        let d := 2 ^ (- e) in
        let q := Z.pos m / d in
        let n :=
          match Z.compare (2 * (Z.pos m mod d)) d with
          | Lt => q
          | Gt => q + 1
          | Eq => if Z.even q then q else q + 1
          end in
        let y := PrimFloat.of_uint63 (Uint63.of_Z n) in
        if s then PrimFloat.opp y else y
      else x
  | _ => x
  end.

(** [np.around(x, decimals=2)]: numpy multiplies by [10.0 ** 2], applies
    [rint] and divides by [10.0 ** 2], every step in binary64. *)
Definition around2 (x : float) : float :=
  PrimFloat.div (rint (PrimFloat.mul x 100%float)) 100%float.

(** The floats that are not NaN, as numpy's sort and its comparisons order
    them: every finite binary64 float is a whole multiple of [2 ** -1074], and
    the key of a float is that multiple; both zeros have key 0 and compare
    equal, the infinities lie beyond every finite float.  NaN has no key. *)
Definition float_key (x : float) : option Z :=
  match Prim2SF x with
  | S754_nan => None
  | S754_zero _ => Some 0
  | S754_infinity s => Some ((if s then -1 else 1) * 2 ^ 2100)
  | S754_finite s m e => Some ((if s then -1 else 1) * (Z.pos m * 2 ^ (e + 1074)))
  end.

(** [ar.argsort(kind='mergesort')]: a stable sort of the values paired with
    their positions. *)
Fixpoint insert_stable (x : Z * nat) (l : list (Z * nat)) : list (Z * nat) :=
  match l with
  | [] => [x]
  | y :: l' => if x.1 <=? y.1 then x :: y :: l' else y :: insert_stable x l'
  end.

Definition argsort (ar : list Z) : list (Z * nat) :=
  foldr insert_stable [] (zip ar (seq 0 (length ar))).

(** [mask[:1] = True; mask[1:] = aux[1:] != aux[:-1]]: keep the first entry of
    every run of equal values. *)
Fixpoint mask_runs (prev : option Z) (aux : list (Z * nat)) : list (Z * nat) :=
  match aux with
  | [] => []
  | x :: rest =>
      if decide (prev = Some x.1) then mask_runs (Some x.1) rest
      else x :: mask_runs (Some x.1) rest
  end.

(** [np.unique(ar, return_index=True)]: the sorted distinct values, and for
    each the position of its first occurrence in [ar]. *)
Definition np_unique (ar : list Z) : list Z * list nat :=
  let u := mask_runs None (argsort ar) in (u.*1, u.*2).

(** [np.sort] *)
Definition np_sort (ar : list Z) : list Z := (argsort ar).*1.

(** [np.where(indexarr == v)[0]] *)
Fixpoint np_where_eq_from (k : nat) (indexarr : list Z) (v : Z) : list nat :=
  match indexarr with
  | [] => []
  | x :: rest =>
      if decide (x = v) then k :: np_where_eq_from (S k) rest v
      else np_where_eq_from (S k) rest v
  end.

Definition np_where_eq (indexarr : list Z) (v : Z) : list nat :=
  np_where_eq_from 0 indexarr v.

(** ** The compiler *)

(** One entry of [aic_sublist_completed]: the rounded AIC of a candidate with
    a model, [np.nan] for a candidate whose [model_from_parent] is [None].
    The entry is represented by its key, NaN by [None]: the rounded AIC of a
    model is NaN when the AIC is.  Any other value of [model_from_parent] has
    no attribute [AIC]. *)
Definition aic_entry (o : individual_spectrum) : res (option Z) :=
  match model_from_parent o with
  | PyNone => Ok None
  | PyModel m => Ok (float_key (around2 (AIC m)))
  | _ => Raise AttributeError
  end.

(** [aic_subarr_completed[~np.isnan(aic_subarr_completed)]] *)
Definition drop_nan (aics : list (option Z)) : list Z := omap id aics.

(** The branch shared by a single candidate and by candidates that all lack a
    model: the chosen object's three attributes are each wrapped in a
    one-element list. *)
Definition wrap_single (h : heap) (a : loc) : heap :=
  let o := h a in
  <[a := set_provenance (PyList [saa_dict_index o]) (PyList [saaindex o])
                        (PyList [model_from_parent o]) o]> h.

(** [compilation_method]: the input list [i, indexarr, indexarr_unique,
    indivspec_list_completed] is unpacked into four arguments; the result is
    the store after the three [setattr] calls and the reference returned.
    The positions in [uniqids] come from the array without its NaN entries and
    index the list of all candidates, as in the source. *)
Definition compilation_method (h : heap) (i : nat) (indexarr indexarr_unique : list Z)
    (indivspec_list_completed : list loc) : res (heap * loc) :=
  u ← getitem indexarr_unique i;
  let idx := np_where_eq indexarr u in
  if decide (length idx = 1%nat) then
    j ← getitem idx 0;
    indivspec ← getitem indivspec_list_completed j;
    Ok (wrap_single h indivspec, indivspec)
  else
    indivspec_sublist_completed ← mapM (getitem indivspec_list_completed) idx;
    aic_sublist_completed ← mapM (λ a, aic_entry (h a)) indivspec_sublist_completed;
    if decide (drop_nan aic_sublist_completed = []) then
      indivspec ← getitem indivspec_sublist_completed 0;
      Ok (wrap_single h indivspec, indivspec)
    else
      let '(uniqvals, uniqids) := np_unique (drop_nan aic_sublist_completed) in
      picked ← mapM (getitem indivspec_sublist_completed) uniqids;
      let saa_dict_index_l := PyList ((λ a, saa_dict_index (h a)) <$> picked) in
      let saaindex_l := PyList ((λ a, saaindex (h a)) <$> picked) in
      let model_from_parent_l := PyList ((λ a, model_from_parent (h a)) <$> picked) in
      u0 ← getitem uniqids 0;
      indivspec ← getitem indivspec_sublist_completed u0;
      Ok (<[indivspec := set_provenance saa_dict_index_l saaindex_l
                                          model_from_parent_l (h indivspec)]> h,
          indivspec).

(** [results = [compilation_method(input) for input in inputlist]], the store
    threaded through the calls in order. *)
Fixpoint compile_results (h : heap) (ids : list nat) (indexarr indexarr_unique : list Z)
    (indivspec_list_completed : list loc) : res (heap * list loc) :=
  match ids with
  | [] => Ok (h, [])
  | i :: ids' =>
      '(h1, r) ← compilation_method h i indexarr indexarr_unique indivspec_list_completed;
      '(h2, rs) ← compile_results h1 ids' indexarr indexarr_unique indivspec_list_completed;
      Ok (h2, r :: rs)
  end.

(** The loop that fills [scouseobject.indiv_dict]. *)
Definition fill_dict (h : heap) (results : list loc) : gmap Z loc :=
  foldl (λ d indivspec, <[index (h indivspec) := indivspec]> d) ∅ results.

(** [compile_spectra]: the dictionary it stores in [scouseobject.indiv_dict]
    is returned with the store; the progress bar of the verbose mode changes
    neither. *)
Definition compile_spectra (h : heap) (indivspec_list_completed : list loc)
    : res (heap * gmap Z loc) :=
  let indexarr := (λ a, index (h a)) <$> indivspec_list_completed in
  let indexarr_unique := np_sort (np_unique indexarr).1 in
  '(h', results) ← compile_results h (seq 0 (length indexarr_unique)) indexarr
                                   indexarr_unique indivspec_list_completed;
  Ok (h', fill_dict h' results).

(** ** The fit executor and the scheduler *)

(** A spectral averaging area as stage 3 reads it ([saa_description.py]):
    its index, the (row, column) pairs of the pixels it holds, whether its
    pixels are to be fit, the shape of the cube, and the parameters of its
    own model.  [_indices] is [None] from [__init__] until [add_ids] stores
    the array of the pairs. *)
Record saa := {
  saa_index : Z;
  saa_indices : option (list (Z * Z));
  saa_sample : bool;
  saa_cube_shape : Z * Z * Z;
  saa_model_params : guesses;
}.

(** The [to_be_fit] property. *)
Definition to_be_fit (SAA : saa) : bool := saa_sample SAA.

(** [np.ravel_multi_index(indices.T, shape[1:])]: row-major flat index, a
    [ValueError] for a pair outside the plane. *)
Definition ravel_multi_index (yx : Z * Z) (shape : Z * Z * Z) : res Z :=
  let '(_, ny, nx) := shape in
  if decide (0 <= yx.1 < ny ∧ 0 <= yx.2 < nx) then Ok (yx.1 * nx + yx.2)
  else Raise ValueError.

(** The [indices_flat] property.  [None] has no attribute [T]; the array that
    [add_ids] makes of an empty list of pairs has one axis of length 0, not
    the two rows that [np.ravel_multi_index] needs for a plane, and the call
    raises a [ValueError]. *)
Definition indices_flat (SAA : saa) : res (list Z) :=
  match saa_indices SAA with
  | None => Raise AttributeError
  | Some [] => Raise ValueError
  | Some indices => mapM (λ yx, ravel_multi_index yx (saa_cube_shape SAA)) indices
  end.

(** The attributes of the scousepy object that stage 3 reads.  [saa_dict] is
    indexed by position, each entry listing its (key, SAA) items in iteration
    order; [cube] gives the spectrum at a (row, column) pair. *)
Record scouse := {
  verbose : bool;
  njobs : Z;
  wsaa : list Q;
  saa_dict : list (list (Z * saa));
  cube : Z → Z → list Q;
  BUNIT : string;
  restfrq : Q;
  CDELT3 : Q;
  xtrim : list Q;
  trimids : list nat;
  fittype : string;
  tol : list Q;
}.

(** The [Decomposer] of [SpectralDecomposer] as the executor sets it up, and
    the attributes a fit leaves on it. *)
Record Decomposer := {
  dec_spectral_axis : list Q;
  dec_spectrum : list Q;
  dec_rms : Q;
  dec_psktemplate : option psktemplate;
}.

(** [validfit], [modeldict] and [guesses_updated] after the fit;
    [indivmodel(modeldict)] copies the entries of the dictionary, which is
    represented by the model it gives. *)
Record fit_outcome := {
  validfit : bool;
  modeldict : indivmodel;
  dec_guesses_updated : guesses;
}.

(** The six entries of one element of [inputlist]. *)
Record fit_input := {
  in_spectral_axis : list Q;
  in_specids : list nat;
  in_fittype : string;
  in_tol : list Q;
  in_res : Q;
  in_indivspec : individual_spectrum;
}.

(** What one call of the fitting capability is given. *)
Record fit_call := {
  call_decomposer : Decomposer;
  call_guesses : guesses;
  call_guesses_parent : guesses;
  call_tol : list Q;
  call_res : Q;
  call_fittype : string;
}.

(** [gen_template]: the template is built from the trimmed axis, the cube's
    unit and its rest frequency. *)
Definition gen_template (scouseobject : scouse) : psktemplate :=
  {| tpl_xarr := xtrim scouseobject;
     tpl_unit := BUNIT scouseobject;
     tpl_refX := restfrq scouseobject |}.

Section Stage3.

(** The external collaborators: numpy's indexing of a spectrum by the trimmed
    channel ids, the noise estimate of [individual_spectrum]'s constructor,
    and [Decomposer.fit_spectrum_from_parent]. *)
Context (np_take : list Q → list nat → list Q).
Context (get_rms : list Q → Q).
Context (fit_spectrum_from_parent : fit_call → fit_outcome).

(** Modelled from the spec: the constructor of [individual_spectrum] is not
    under src/.  It stores its arguments and a noise estimate, and leaves the
    template, both guesses and the model unset ([guesses_from_parent] is set
    by [initialise_fitting] right after, before anything reads it). *)
Definition new_individual_spectrum (coordinates : Z * Z) (spectrum : list Q) (index : Z)
    (saa_dict_index : nat) (saaindex : Z) : individual_spectrum :=
  {| index := index; coordinates := coordinates; spectrum := spectrum;
     rms := get_rms spectrum;
     saa_dict_index := PyInt (Z.of_nat saa_dict_index);
     saaindex := PyInt saaindex;
     template := None;
     guesses_from_parent := [];
     guesses_updated := None;
     model_from_parent := PyNone |}.

(** The innermost loop of [initialise_fitting]: one new object per pixel of
    the SAA, allocated at the next free reference. *)
Definition spectra_of_pixels (scouseobject : scouse) (template : psktemplate)
    (i : nat) (SAA : saa) (st : heap * loc * list loc) (pixels : list ((Z * Z) * Z))
    : heap * loc * list loc :=
  foldl (λ '(h, next, indivspec_list) '(yx, index),
           let indivspec :=
             new_individual_spectrum (yx.2, yx.1) (cube scouseobject yx.1 yx.2) index
                                     i (saa_index SAA) in
           let indivspec := set_template (Some template) indivspec in
           let indivspec := set_guesses_from_parent (saa_model_params SAA) indivspec in
           (<[next := indivspec]> h, S next, indivspec_list ++ [next]))
        st pixels.

(** The loop over the items of one SAA dictionary. *)
Fixpoint spectra_of_saas (scouseobject : scouse) (template : psktemplate)
    (i : nat) (items : list (Z * saa)) (st : heap * loc * list loc)
    : res (heap * loc * list loc) :=
  match items with
  | [] => Ok st
  | (j, SAA) :: items' =>
      if to_be_fit SAA then
        let indices := default [] (saa_indices SAA) in
        flat ← indices_flat SAA;
        spectra_of_saas scouseobject template i items'
          (spectra_of_pixels scouseobject template i SAA st (zip indices flat))
      else spectra_of_saas scouseobject template i items' st
  end.

(** The loop over [range(len(scouseobject.wsaa))]. *)
Fixpoint spectra_of_dicts (scouseobject : scouse) (template : psktemplate)
    (is_ : list nat) (st : heap * loc * list loc) : res (heap * loc * list loc) :=
  match is_ with
  | [] => Ok st
  | i :: is' =>
      match saa_dict scouseobject !! i with
      | None => Raise KeyError
      | Some saa_dict_i =>
          st' ← spectra_of_saas scouseobject template i saa_dict_i st;
          spectra_of_dicts scouseobject template is' st'
      end
  end.

(** [initialise_fitting]: [next] is the first free reference of the store. *)
Definition initialise_fitting (scouseobject : scouse) (h : heap) (next : loc)
    : res (heap * loc * list loc) :=
  let template := gen_template scouseobject in
  spectra_of_dicts scouseobject template (seq 0 (length (wsaa scouseobject))) (h, next, []).

(** The arguments [decomposition_method] passes to the fit. *)
Definition fit_call_of (input : fit_input) : fit_call :=
  let indivspec := in_indivspec input in
  let spectrum := np_take (spectrum indivspec) (in_specids input) in
  let decomposer :=
    {| dec_spectral_axis := in_spectral_axis input;
       dec_spectrum := spectrum;
       dec_rms := rms indivspec;
       dec_psktemplate := template indivspec |} in
  let guesses :=
    if decide (np_size_opt (guesses_updated indivspec) ≤ 1)%nat
    then guesses_from_parent indivspec
    else default [] (guesses_updated indivspec) in
  {| call_decomposer := decomposer;
     call_guesses := guesses;
     call_guesses_parent := guesses_from_parent indivspec;
     call_tol := in_tol input;
     call_res := in_res input;
     call_fittype := in_fittype input |}.

(** [decomposition_method]: the list [[model, decomposer.guesses_updated]] it
    returns is a pair. *)
Definition decomposition_method (input : fit_input) : option indivmodel * guesses :=
  let decomposer := fit_spectrum_from_parent (fit_call_of input) in
  let model := if validfit decomposer then Some (modeldict decomposer) else None in
  (model, dec_guesses_updated decomposer).

(** [scouseobjectlist+[indivspec]] *)
Definition make_input (scouseobject : scouse) (indivspec : individual_spectrum) : fit_input :=
  {| in_spectral_axis := xtrim scouseobject;
     in_specids := trimids scouseobject;
     in_fittype := fittype scouseobject;
     in_tol := tol scouseobject;
     in_res := CDELT3 scouseobject;
     in_indivspec := indivspec |}.

(** Modelled from the spec: [parallel_map] of [parallel_map.py] is not under
    src/; it "returns outputs in the same order as inputs". *)
Definition parallel_map {A B} (f : A → B) (inputs : list A) (numcores : Z) : list B :=
  fmap (M:=list) f inputs.

(** The [for i, result in enumerate(results)] loop.  The pending list holds
    [None] in the slots of the tasks that completed; [setattr] on such a slot
    would raise. *)
Fixpoint process_results (i : nat) (results : list (option indivmodel * guesses))
    (h : heap) (indivspec_list : list (option loc)) (indivspec_list_completed : list loc)
    : res (heap * list (option loc) * list loc) :=
  match results with
  | [] => Ok (h, indivspec_list, indivspec_list_completed)
  | (model, guesses_updated) :: results' =>
      slot ← getitem indivspec_list i;
      match slot with
      | None => Raise AttributeError
      | Some indivspec =>
          let h := <[indivspec := set_template None (h indivspec)]> h in
          match model with
          | None =>
              if decide (length guesses_updated = 0%nat) then
                process_results (S i) results' h (<[i := None]> indivspec_list)
                  (indivspec_list_completed ++ [indivspec])
              else
                process_results (S i) results'
                  (<[indivspec := set_guesses_updated (Some guesses_updated) (h indivspec)]> h)
                  indivspec_list indivspec_list_completed
          | Some model =>
              process_results (S i) results'
                (<[indivspec := add_model model (h indivspec)]> h)
                (<[i := None]> indivspec_list)
                (indivspec_list_completed ++ [indivspec])
          end
      end
  end.

(** One pass of the [while] body: both branches on [njobs] and on [verbose]
    compute the results of the batch on the store at dispatch, in order. *)
Definition iteration (scouseobject : scouse) (h : heap) (indivspec_list : list loc)
    (indivspec_list_completed : list loc) : res (heap * list loc * list loc) :=
  let inputlist : list fit_input :=
    (λ a, make_input scouseobject (h a)) <$> indivspec_list in
  let results : list (option indivmodel * guesses) :=
    if decide (njobs scouseobject > 1) then
      parallel_map decomposition_method inputlist (njobs scouseobject)
    else decomposition_method <$> inputlist in
  '(h', slots, completed') ←
    process_results 0 results h (Some <$> indivspec_list) indivspec_list_completed;
  Ok (h', omap (M:=list) id slots, completed').

(** The [while] loop, with fuel for the number of passes.  Its condition,
    [np.size(np.asarray(indivspec_list) != 0.0)], is the size of an array of
    one boolean per entry: the loop runs while the list is not empty. *)
Fixpoint retry_loop (fuel : nat) (scouseobject : scouse) (h : heap)
    (indivspec_list : list loc) (indivspec_list_completed : list loc)
    : res (heap * list loc) :=
  match indivspec_list with
  | [] => Ok (h, indivspec_list_completed)
  | _ :: _ =>
      match fuel with
      | O => OutOfFuel
      | S fuel' =>
          '(h', indivspec_list', completed') ←
            iteration scouseobject h indivspec_list indivspec_list_completed;
          retry_loop fuel' scouseobject h' indivspec_list' completed'
      end
  end.

Definition autonomous_decomposition (fuel : nat) (scouseobject : scouse) (h : heap)
    (indivspec_list : list loc) : res (heap * list loc) :=
  retry_loop fuel scouseobject h indivspec_list [].

End Stage3.

(** * Vocabulary of the statements *)

(** ** numpy *)

(** Order on (value, position) pairs: by value, then by position. *)
Definition lex_lt (x y : Z * nat) : Prop :=
  x.1 < y.1 ∨ (x.1 = y.1 ∧ (x.2 < y.2)%nat).

(** [i] is the position of the first occurrence of [v] in [ar]. *)
Definition first_occurrence (ar : list Z) (v : Z) (i : nat) : Prop :=
  ar !! i = Some v ∧ ∀ j, ar !! j = Some v → (i ≤ j)%nat.

(** The value [mask_runs] compares with, when there is one, is a lower bound
    of the values still to come. *)
Definition prev_below (prev : option Z) (aux : list (Z * nat)) : Prop :=
  ∀ p, prev = Some p → Forall (λ x, p <= x.1) aux.

(** ** The compiler *)

(** The tasks of the completed list with pixel index [p], in list order. *)
Definition candidates (h : heap) (completed : list loc) (p : Z) : list loc :=
  filter (λ a, index (h a) = p) completed.

(** The index array [compile_spectra] builds. *)
Definition indexarr_of (h : heap) (completed : list loc) : list Z :=
  (λ a, index (h a)) <$> completed.

(** [compilation_method], read on the list of candidates. *)
Definition compile_group (h : heap) (cands : list loc) : res (heap * loc) :=
  if decide (length cands = 1%nat) then
    indivspec ← getitem cands 0;
    Ok (wrap_single h indivspec, indivspec)
  else
    aics ← mapM (λ a, aic_entry (h a)) cands;
    if decide (drop_nan aics = []) then
      indivspec ← getitem cands 0;
      Ok (wrap_single h indivspec, indivspec)
    else
      let '(uniqvals, uniqids) := np_unique (drop_nan aics) in
      picked ← mapM (getitem cands) uniqids;
      u0 ← getitem uniqids 0;
      indivspec ← getitem cands u0;
      Ok (<[indivspec :=
              set_provenance (PyList ((λ a, saa_dict_index (h a)) <$> picked))
                             (PyList ((λ a, saaindex (h a)) <$> picked))
                             (PyList ((λ a, model_from_parent (h a)) <$> picked))
                             (h indivspec)]> h,
          indivspec).

(** A candidate whose fit was exhausted, and one that converged. *)
Definition no_model (h : heap) (a : loc) : Prop := model_from_parent (h a) = PyNone.
Definition has_model (h : heap) (a : loc) : Prop := ∃ m, model_from_parent (h a) = PyModel m.

(** The rounded AIC of a candidate with a model, by its key; [None] when the
    candidate has no model or the rounded AIC is NaN. *)
Definition rounded_aic (h : heap) (a : loc) : option Z :=
  match model_from_parent (h a) with
  | PyModel m => float_key (around2 (AIC m))
  | _ => None
  end.

(** A candidate that takes part in the removal of duplicates: it has a model
    whose rounded AIC is not NaN.  The other candidates as the scheduler
    leaves them have no model, or a model whose AIC is NaN. *)
Definition scored (h : heap) (a : loc) : Prop := is_Some (rounded_aic h a).

(** [a] is the first of the candidates, in list order, with its rounded AIC. *)
Definition first_achieving (h : heap) (cands : list loc) (a : loc) : Prop :=
  ∃ k, cands !! k = Some a ∧
       ∀ j c, cands !! j = Some c → rounded_aic h c = rounded_aic h a → (k ≤ j)%nat.

(** A task as the scheduler hands it over: its model is [None] or a model. *)
Definition fresh (h : heap) (a : loc) : Prop := no_model h a ∨ has_model h a.

(** Such a task that takes no part in the removal of duplicates: it has no
    model, or a model whose AIC is NaN. *)
Definition unscored (h : heap) (a : loc) : Prop := fresh h a ∧ rounded_aic h a = None.

(** What [wrap_single] writes: each provenance attribute in a one-element
    list. *)
Definition wrap_obj (o : individual_spectrum) : individual_spectrum :=
  set_provenance (PyList [saa_dict_index o]) (PyList [saaindex o])
                 (PyList [model_from_parent o]) o.

(** The value is a Python list. *)
Definition is_pylist (v : pyval) : Prop := ∃ l, v = PyList l.

(** What one call of the loop guarantees about the task [r] it returns for
    position [i] of the distinct indices, from store [h] to final store [h']. *)
Definition compiled_at (h h' : heap) (completed : list loc) (indexarr_unique : list Z)
    (i : nat) (r : loc) : Prop :=
  ∃ p, indexarr_unique !! i = Some p ∧
       r ∈ candidates h completed p ∧
       is_pylist (model_from_parent (h' r)) ∧
       (length (candidates h completed p) = 1%nat → h' r = wrap_obj (h r)).

(** ** The scheduler *)

(** The three ways a batch result is classified. *)
Inductive outcome :=
| CONVERGED (model : indivmodel)
| EXHAUSTED
| RETRY (guesses_updated : guesses).

(** The nested [if model is None] / [if np.size(guesses_updated) == 0.0]. *)
Definition classify (result : option indivmodel * guesses) : outcome :=
  match result with
  | (Some model, _) => CONVERGED model
  | (None, guesses_updated) =>
      if decide (length guesses_updated = 0%nat) then EXHAUSTED
      else RETRY guesses_updated
  end.

(** The outcomes that move a task to the completed list. *)
Definition terminal (oc : outcome) : Prop :=
  match oc with
  | RETRY _ => False
  | _ => True
  end.

#[global] Instance terminal_dec oc : Decision (terminal oc).
Proof. destruct oc; simpl; apply _. Defined.

(** The attribute values a task is left with after its result is processed. *)
Definition settle (oc : outcome) (o : individual_spectrum) : individual_spectrum :=
  match oc with
  | CONVERGED model => add_model model (set_template None o)
  | EXHAUSTED => set_template None o
  | RETRY guesses_updated => set_guesses_updated (Some guesses_updated) (set_template None o)
  end.

(** The writes to the store for one result, as the loop body makes them. *)
Definition settle_store (h : heap) (a : loc) (oc : outcome) : heap :=
  let h1 := <[a := set_template None (h a)]> h in
  match oc with
  | CONVERGED model => <[a := add_model model (h1 a)]> h1
  | EXHAUSTED => h1
  | RETRY guesses_updated => <[a := set_guesses_updated (Some guesses_updated) (h1 a)]> h1
  end.

(** A batch, as the list of its tasks paired with their results. *)
Definition batch_store (h : heap) (work : list (loc * (option indivmodel * guesses))) : heap :=
  foldl (λ h '(a, r), settle_store h a (classify r)) h work.

(** The pending list after the loop over the results, before it is filtered. *)
Definition batch_slots (work : list (loc * (option indivmodel * guesses))) : list (option loc) :=
  (λ '(a, r), if decide (terminal (classify r)) then None else Some a) <$> work.

(** The tasks the loop over the results appends to the completed list. *)
Definition batch_finished (work : list (loc * (option indivmodel * guesses))) : list loc :=
  omap (λ '(a, r), if decide (terminal (classify r)) then Some a else None) work.

(** The state of the task generator is sound for template [tpl]: the tasks
    made so far are distinct, lie below the next free reference, and carry
    the template. *)
Definition generated (tpl : psktemplate) (st : heap * loc * list loc) : Prop :=
  let '(h, next, indivspec_list) := st in
  NoDup indivspec_list ∧
  ∀ a, a ∈ indivspec_list → (a < next)%nat ∧ template (h a) = Some tpl.

Section Stage3Vocabulary.

Context (np_take : list Q → list nat → list Q).
Context (fit : fit_call → fit_outcome).

(** The result of fitting a task whose attributes are [o], and its class. *)
Definition result_of (scouseobject : scouse) (o : individual_spectrum)
    : option indivmodel * guesses :=
  decomposition_method np_take fit (make_input scouseobject o).

Definition outcome_of (scouseobject : scouse) (o : individual_spectrum) : outcome :=
  classify (result_of scouseobject o).

(** The batch of one pass: every task of the pending list with the result of
    its fit on the store at dispatch. *)
Definition work_of (scouseobject : scouse) (h : heap) (tasks : list loc)
    : list (loc * (option indivmodel * guesses)) :=
  (λ a, (a, result_of scouseobject (h a))) <$> tasks.


(** The retry chain of one task: from attributes [o] it ends with the terminal
    outcome [oc], leaving the attributes [o']. *)
Inductive ends (scouseobject : scouse)
  : individual_spectrum → outcome → individual_spectrum → Prop :=
| ends_now o :
    terminal (outcome_of scouseobject o) →
    ends scouseobject o (outcome_of scouseobject o) (settle (outcome_of scouseobject o) o)
| ends_later o guesses_updated oc o' :
    outcome_of scouseobject o = RETRY guesses_updated →
    ends scouseobject (settle (RETRY guesses_updated) o) oc o' →
    ends scouseobject o oc o'.

(** The claim in the spec's words: a task that stays pending after a pass
    still hands the template it had to its next fit. *)
Definition retry_carries_template (scouseobject : scouse) (h : heap) (tasks : list loc)
    : Prop :=
  ∀ h' pending completed,
    iteration np_take fit scouseobject h tasks [] = Ok (h', pending, completed) →
    ∀ a, a ∈ pending →
         dec_psktemplate (call_decomposer (fit_call_of np_take (make_input scouseobject (h' a))))
         = template (h a).

End Stage3Vocabulary.

(** ** The claims that fail, in the spec's words *)

(** The rule in the spec's words for candidates none of which has a model:
    the first is the representative, and the provenance lists hold the pair
    of every candidate, each with a null model. *)
Definition records_every_candidate (h : heap) (completed : list loc) (p : Z) : Prop :=
  ∀ h' d, compile_spectra h completed = Ok (h', d) →
    ∃ rep, d !! p = Some rep ∧
      head (candidates h completed p) = Some rep ∧
      saa_dict_index (h' rep)
        = PyList ((λ a, saa_dict_index (h a)) <$> candidates h completed p) ∧
      saaindex (h' rep)
        = PyList ((λ a, saaindex (h a)) <$> candidates h completed p) ∧
      model_from_parent (h' rep)
        = PyList ((λ _, PyNone) <$> candidates h completed p).

(** The deduplicated set in the spec's words: going through the candidates in
    their original order, a candidate with a model is kept when no earlier one
    has the same rounded AIC. *)
Fixpoint deduplicated (h : heap) (seen : list Z) (cands : list loc) : list loc :=
  match cands with
  | [] => []
  | a :: rest =>
      match rounded_aic h a with
      | None => deduplicated h seen rest
      | Some v =>
          if decide (v ∈ seen) then deduplicated h seen rest
          else a :: deduplicated h (v :: seen) rest
      end
  end.

(** The rule in the spec's words: the representative is the first entry of
    the deduplicated set, and the provenance lists hold the entries of that
    set. *)
Definition first_occurrence_rule (h : heap) (completed : list loc) (p : Z) : Prop :=
  ∀ h' d, compile_spectra h completed = Ok (h', d) →
    ∃ rep sdi si mfp, d !! p = Some rep ∧
      head (deduplicated h [] (candidates h completed p)) = Some rep ∧
      saa_dict_index (h' rep) = PyList sdi ∧
      saaindex (h' rep) = PyList si ∧
      model_from_parent (h' rep) = PyList mfp ∧
      sdi ≡ₚ (λ a, saa_dict_index (h a)) <$> deduplicated h [] (candidates h completed p) ∧
      si ≡ₚ (λ a, saaindex (h a)) <$> deduplicated h [] (candidates h completed p) ∧
      mfp ≡ₚ (λ a, model_from_parent (h a)) <$> deduplicated h [] (candidates h completed p).

(** The property in the spec's words: a second run over the same list gives
    the same compiled spectrum for every pixel index. *)
Definition recompilation_is_identical (h : heap) (completed : list loc) : Prop :=
  ∀ h1 d1, compile_spectra h completed = Ok (h1, d1) →
    ∃ h2 d2, compile_spectra h1 completed = Ok (h2, d2) ∧
             ∀ p, h2 <$> d2 !! p = h1 <$> d1 !! p.

(** ** Inputs for examples *)

(** A task as the scheduler leaves it, for examples. *)
Definition task (p : Z) (region container : Z) (model : pyval) : individual_spectrum :=
  {| index := p; coordinates := (0, 0); spectrum := []; rms := 0;
     saa_dict_index := PyInt container; saaindex := PyInt region;
     template := None; guesses_from_parent := []; guesses_updated := None;
     model_from_parent := model |}.

Definition model_with_aic (a : float) : indivmodel :=
  {| AIC := a; ncomps := 1; params := []; errors := [] |}.

(** Pixel 7 with two candidates, neither of which converged. *)
Definition two_null_candidates : heap :=
  λ a, match a with
       | O => task 7 10 0 PyNone
       | _ => task 7 11 1 PyNone
       end.

(** Pixel 7 with two candidates that converged to AIC 50.00 and 45.12. *)
Definition two_distinct_fits : heap :=
  λ a, match a with
       | O => task 7 10 0 (PyModel (model_with_aic 50%float))
       | _ => task 7 11 1 (PyModel (model_with_aic 45.12%float))
       end.

(** Three completed tasks: two candidates for pixel 7, one for pixel 8. *)
Definition three_tasks : heap :=
  λ a, match a with
       | O => task 7 10 0 (PyModel (model_with_aic 50%float))
       | 1%nat => task 8 10 0 PyNone
       | _ => task 7 11 1 (PyModel (model_with_aic 45.12%float))
       end.

(** Pixel 7 with a candidate without a model listed before one with a model. *)
Definition null_then_model : heap :=
  λ a, match a with
       | O => task 7 10 0 PyNone
       | _ => task 7 11 1 (PyModel (model_with_aic 45.12%float))
       end.

(** Pixel 7 with two candidates whose AICs, 0.02 and 0.015, [np.around] takes
    to the same value: 0.015 * 100 is 1.5 in binary64, and the half goes to
    the even 2. *)
Definition rounding_tie : heap :=
  λ a, match a with
       | O => task 7 10 0 (PyModel (model_with_aic 0.02%float))
       | _ => task 7 11 1 (PyModel (model_with_aic 0.015%float))
       end.

(** Pixel 7 with two candidates whose AICs, 45.135 and 45.13, [np.around]
    takes to different values: 45.135 * 100 is 4513.5 in binary64, and the
    half goes to the even 4514. *)
Definition rounding_split : heap :=
  λ a, match a with
       | O => task 7 10 0 (PyModel (model_with_aic 45.135%float))
       | _ => task 7 11 1 (PyModel (model_with_aic 45.13%float))
       end.

(** Pixel 7 with a candidate whose model has a NaN AIC listed before one
    whose model has AIC 45.12. *)
Definition nan_then_model : heap :=
  λ a, match a with
       | O => task 7 10 0 (PyModel (model_with_aic nan))
       | _ => task 7 11 1 (PyModel (model_with_aic 45.12%float))
       end.

(** A fitting capability for examples: two guesses give a model whose AIC is
    the whole part of the first guess, three or more drop the first two and ask for a retry with
    the rest, fewer than two fail with no guess left. *)
Definition demo_fit (call : fit_call) : fit_outcome :=
  match call_guesses call with
  | [a; b] =>
      {| validfit := true;
         modeldict := {| AIC := PrimFloat.of_uint63 (Uint63.of_Z (Qfloor a));
                         ncomps := 1; params := [a; b]; errors := [] |};
         dec_guesses_updated := [] |}
  | _ :: _ :: g =>
      {| validfit := false; modeldict := model_with_aic 0%float;
         dec_guesses_updated := g |}
  | _ =>
      {| validfit := false; modeldict := model_with_aic 0%float;
         dec_guesses_updated := [] |}
  end.

Definition demo_take (flux : list Q) (ids : list nat) : list Q :=
  omap (λ i, flux !! i) ids.

Definition demo_rms (flux : list Q) : Q := 0.

(** Two averaging areas over a 2 x 2 plane: the coarse one holds pixels 0 and
    1, the fine one holds pixel 1 again and pixel 3. *)
Definition demo_scouse : scouse :=
  {| verbose := false; njobs := 1; wsaa := [2%Q; 1%Q];
     saa_dict :=
       [ [(0, {| saa_index := 0; saa_indices := Some [(0, 0); (0, 1)]; saa_sample := true;
                 saa_cube_shape := (4, 2, 2);
                 saa_model_params := [1%Q; 2%Q; 3%Q; 4%Q] |})];
         [(0, {| saa_index := 0; saa_indices := Some [(0, 1)]; saa_sample := true;
                 saa_cube_shape := (4, 2, 2);
                 saa_model_params := [3%Q; 6%Q] |});
          (1, {| saa_index := 1; saa_indices := Some [(1, 1)]; saa_sample := true;
                 saa_cube_shape := (4, 2, 2);
                 saa_model_params := [] |})] ];
     cube := λ y x, [inject_Z y; inject_Z x];
     BUNIT := "K"; restfrq := 100; CDELT3 := 1;
     xtrim := [1%Q]; trimids := [0%nat]; fittype := "gaussian"; tol := [] |}.

Definition demo_blank : heap := λ _, task 0 0 0 PyNone.

(** The store the task generator leaves: tasks 0 to 3. *)
Definition demo_store : heap :=
  match initialise_fitting demo_rms demo_scouse demo_blank 0%nat with
  | Ok (h, _, _) => h
  | _ => demo_blank
  end.

Definition demo_tasks : list loc := [0; 1; 2; 3]%nat.

(** The store the loop leaves; tasks 2 and 3 complete in the first pass,
    tasks 0 and 1 after one retry. *)
Definition demo_final : heap :=
  match autonomous_decomposition demo_take demo_fit 2 demo_scouse demo_store demo_tasks with
  | Ok (h, _) => h
  | _ => demo_store
  end.

(** A capability whose refined guess set keeps its size: never a model, always
    the same two guesses. *)
Definition stalled_fit (call : fit_call) : fit_outcome :=
  {| validfit := false; modeldict := model_with_aic 0%float;
     dec_guesses_updated := [1%Q; 2%Q] |}.

(** * Vocabulary, continued *)

(** ** The task generator *)

(** The pixel [yx] (row, column) lies in the plane of a cube of shape
    [shape]. *)
Definition in_plane (shape : Z * Z * Z) (yx : Z * Z) : Prop :=
  (0 <= yx.1 < shape.1.2) ∧ (0 <= yx.2 < shape.2).

#[global] Instance in_plane_dec shape yx : Decision (in_plane shape yx).
Proof. unfold in_plane. apply _. Defined.

(** The row-major position of a pixel in the plane. *)
Definition flat_index (shape : Z * Z * Z) (yx : Z * Z) : Z := yx.1 * shape.2 + yx.2.

(** The attributes of the task made for pixel [yx] of the area [SAA] of
    dictionary [i]. *)
Definition task_of_pixel (get_rms : list Q → Q) (scouseobject : scouse) (i : nat)
    (SAA : saa) (yx : Z * Z) : individual_spectrum :=
  {| index := flat_index (saa_cube_shape SAA) yx;
     coordinates := (yx.2, yx.1);
     spectrum := cube scouseobject yx.1 yx.2;
     rms := get_rms (cube scouseobject yx.1 yx.2);
     saa_dict_index := PyInt (Z.of_nat i);
     saaindex := PyInt (saa_index SAA);
     template := Some (gen_template scouseobject);
     guesses_from_parent := saa_model_params SAA;
     guesses_updated := None;
     model_from_parent := PyNone |}.

(** The tasks of one area: one per pixel when the area is to be fit, none
    otherwise. *)
Definition tasks_of_saa (get_rms : list Q → Q) (scouseobject : scouse) (i : nat)
    (SAA : saa) : list individual_spectrum :=
  if to_be_fit SAA
  then task_of_pixel get_rms scouseobject i SAA <$> default [] (saa_indices SAA)
  else [].

(** The tasks of one dictionary, area after area. *)
Definition tasks_of_dict (get_rms : list Q → Q) (scouseobject : scouse) (i : nat)
    (items : list (Z * saa)) : list individual_spectrum :=
  items ≫= λ item, tasks_of_saa get_rms scouseobject i item.2.

(** The tasks of the dictionaries at the positions [ids]. *)
Definition tasks_of_dicts (get_rms : list Q → Q) (scouseobject : scouse) (ids : list nat)
    : list individual_spectrum :=
  ids ≫= λ i, tasks_of_dict get_rms scouseobject i (default [] (saa_dict scouseobject !! i)).

(** The ids of the area were added, there is one at least, and every one is
    a pixel of the plane. *)
Definition pixels_in_plane (SAA : saa) : Prop :=
  ∃ indices, saa_indices SAA = Some indices ∧ indices ≠ [] ∧
             Forall (in_plane (saa_cube_shape SAA)) indices.

(** Every area of the dictionary that is to be fit has its pixels in the
    plane. *)
Definition saas_in_plane (items : list (Z * saa)) : Prop :=
  Forall (λ item : Z * saa, to_be_fit item.2 = true → pixels_in_plane item.2) items.

(** The dictionaries at the positions [ids] exist, with their areas to be fit
    in the plane. *)
Definition fittable (scouseobject : scouse) (ids : list nat) : Prop :=
  Forall (λ i, ∃ items, saa_dict scouseobject !! i = Some items ∧ saas_in_plane items) ids.

(** From the state [st] of the task generator to [st']: the objects [objs]
    were allocated at consecutive references from the first free one and
    appended to the list in this order, and no other object was written. *)
Definition allocates (st st' : heap * loc * list loc) (objs : list individual_spectrum)
    : Prop :=
  st'.1.2 = (st.1.2 + length objs)%nat ∧
  st'.2 = st.2 ++ seq st.1.2 (length objs) ∧
  st'.1.1 <$> seq st.1.2 (length objs) = objs ∧
  ∀ b, (b < st.1.2 ∨ st'.1.2 ≤ b)%nat → st'.1.1 b = st.1.1 b.

(** ** What the scheduler writes *)

(** The attributes of a task that the loop only reads are the same in [o]
    and [o'], and [o'] holds no template if [o] holds none. *)
Definition scheduler_writes (o o' : individual_spectrum) : Prop :=
  index o' = index o ∧ coordinates o' = coordinates o ∧
  spectrum o' = spectrum o ∧ rms o' = rms o ∧
  saa_dict_index o' = saa_dict_index o ∧ saaindex o' = saaindex o ∧
  guesses_from_parent o' = guesses_from_parent o ∧
  (template o = None → template o' = None).

(** The refined guesses of a task, when it has some, are not an empty list. *)
Definition refined_guesses_nonempty (o : individual_spectrum) : Prop :=
  guesses_updated o ≠ Some [].

(** The model of a task is [None] or a model. *)
Definition plain_model (o : individual_spectrum) : Prop :=
  model_from_parent o = PyNone ∨ ∃ m, model_from_parent o = PyModel m.

(** ** What the compiler writes *)

(** The attributes of a representative after a call of [compilation_method]:
    each of the three provenance attributes is the list of that attribute's
    values over the retained candidates, read in the store [h]. *)
Definition provenance_obj (h : heap) (retained : list loc) (o : individual_spectrum)
    : individual_spectrum :=
  set_provenance (PyList ((λ a, saa_dict_index (h a)) <$> retained))
                 (PyList ((λ a, saaindex (h a)) <$> retained))
                 (PyList ((λ a, model_from_parent (h a)) <$> retained)) o.

#[global] Instance fresh_dec h a : Decision (fresh h a).
Proof.
  unfold fresh, no_model, has_model.
  destruct (model_from_parent (h a)) as [|z|m|l].
  - left. by left.
  - right. intros [?|[? ?]]; discriminate.
  - left. right. by eexists.
  - right. intros [?|[? ?]]; discriminate.
Defined.

(** The candidates can be compiled: there is one only, or every one is as the
    scheduler leaves it. *)
Definition compilable (h : heap) (cands : list loc) : Prop :=
  length cands = 1%nat ∨ Forall (fresh h) cands.

#[global] Instance compilable_dec h cands : Decision (compilable h cands).
Proof. unfold compilable. apply _. Defined.

(** What one call of the loop leaves, from store [h] to final store [h']: the
    task [r] returned for position [i] of the distinct indices heads a list of
    retained candidates of that pixel index, and carries their provenance. *)
Definition compiled_from (h h' : heap) (completed : list loc) (indexarr_unique : list Z)
    (i : nat) (r : loc) : Prop :=
  ∃ p retained, indexarr_unique !! i = Some p ∧
    head retained = Some r ∧
    (∀ c, c ∈ retained → c ∈ candidates h completed p) ∧
    compilable h (candidates h completed p) ∧
    h' r = provenance_obj h retained (h r).

(** ** Termination *)








(** ** The order of completion *)

Section CompletionOrder.

Context (np_take : list Q → list nat → list Q).
Context (fit : fit_call → fit_outcome).

(** The task with attributes [o] completes in pass [n] of the loop, counted
    from 0: its first [n] fits give no model and some refined guesses, which
    are stored on it, and the next one gives a model or no guess. *)
Fixpoint completes_in (n : nat) (scouseobject : scouse) (o : individual_spectrum) : Prop :=
  match n with
  | O => terminal (outcome_of np_take fit scouseobject o)
  | S n' =>
      ∃ guesses_updated,
        outcome_of np_take fit scouseobject o = RETRY guesses_updated ∧
        completes_in n' scouseobject (settle (RETRY guesses_updated) o)
  end.

(** The order of completion of the tasks of a list, from the store [h]: [a]
    completes in an earlier pass than [b], or in the same pass and stands
    before [b] in the list. *)
Definition completes_before (scouseobject : scouse) (h : heap) (tasks : list loc)
    (a b : loc) : Prop :=
  ∃ na nb ia ib,
    completes_in na scouseobject (h a) ∧ completes_in nb scouseobject (h b) ∧
    tasks !! ia = Some a ∧ tasks !! ib = Some b ∧
    (na < nb ∨ (na = nb ∧ ia < ib))%nat.

End CompletionOrder.

(** ** Further inputs for examples *)

(** A task with parent guesses 1, 2, 3, no template and no refined guesses. *)
Definition three_guesses : heap :=
  λ _, set_guesses_from_parent [1%Q; 2%Q; 3%Q] (task 0 0 0 PyNone).

(** The store and the dictionary the compiler leaves on the small run. *)
Definition demo_compiled_store : heap :=
  match compile_spectra demo_final [2; 3; 0; 1]%nat with
  | Ok (h, _) => h
  | _ => demo_final
  end.

Definition demo_dict : gmap Z loc :=
  match compile_spectra demo_final [2; 3; 0; 1]%nat with
  | Ok (_, d) => d
  | _ => ∅
  end.

(** The store the loop leaves when task 0 is fitted on its own. *)
Definition demo_alone : heap :=
  match autonomous_decomposition demo_take demo_fit 2 demo_scouse demo_store [0%nat] with
  | Ok (h, _) => h
  | _ => demo_store
  end.

(** * Properties *)

(** ** numpy's [unique] *)

Lemma first_occurrence_exists ar v : v ∈ ar → ∃ i, first_occurrence ar v i.
Proof.
  intros Hin.
  destruct (list_find_elem_of (λ x, x = v) ar v Hin eq_refl) as [[i x] Hfind].
  apply list_find_Some in Hfind as (Hi & -> & Hbefore).
  exists i. split; [done|].
  intros j Hj. destruct (decide (i ≤ j)%nat) as [|Hlt]; [done|].
  exfalso. apply (Hbefore j v Hj); [lia|done].
Qed.

Lemma insert_stable_perm x l : insert_stable x l ≡ₚ x :: l.
Proof.
  induction l as [|y l IH]; simpl; [done|].
  destruct (x.1 <=? y.1); [done|].
  rewrite IH. apply Permutation_swap.
Qed.

Lemma lex_lt_fst x y : lex_lt x y → x.1 <= y.1.
Proof. unfold lex_lt. lia. Qed.

Lemma insert_stable_sorted x l :
  StronglySorted lex_lt l →
  Forall (λ y, (x.2 < y.2)%nat) l →
  StronglySorted lex_lt (insert_stable x l).
Proof.
  induction l as [|y l IH]; simpl; intros Hs Hlt.
  - repeat constructor.
  - apply StronglySorted_cons in Hs as [Hy Hs].
    apply Forall_cons in Hlt as [Hxy Hlt].
    destruct (Z.leb_spec (x.1) (y.1)) as [Hle|Hgt].
    + apply StronglySorted_cons. split.
      * constructor; [unfold lex_lt; lia|].
        rewrite Forall_forall in Hy, Hlt |- *. intros z Hz.
        specialize (Hy z Hz). specialize (Hlt z Hz).
        apply lex_lt_fst in Hy. unfold lex_lt. lia.
      * by apply StronglySorted_cons.
    + apply StronglySorted_cons. split; [|by apply IH].
      rewrite insert_stable_perm. constructor; [unfold lex_lt; lia|done].
Qed.

Lemma argsort_from_spec ar k :
  let s := foldr insert_stable [] (zip ar (seq k (length ar))) in
  s ≡ₚ zip ar (seq k (length ar)) ∧ StronglySorted lex_lt s ∧
  Forall (λ y, (k ≤ y.2)%nat) s.
Proof.
  revert k. induction ar as [|a ar IH]; intros k; simpl.
  - repeat split; constructor.
  - destruct (IH (S k)) as (Hp & Hs & Hge).
    split_and!.
    + by rewrite insert_stable_perm, Hp.
    + apply insert_stable_sorted; [done|].
      eapply Forall_impl; [exact Hge|]. simpl. intros; lia.
    + rewrite insert_stable_perm. constructor; [simpl; lia|].
      eapply Forall_impl; [exact Hge|]. simpl. intros; lia.
Qed.

Lemma elem_of_zip_seq (ar : list Z) k v i :
  (v, i) ∈ zip ar (seq k (length ar)) ↔ (k ≤ i)%nat ∧ ar !! (i - k)%nat = Some v.
Proof.
  revert k. induction ar as [|a ar IH]; intros k; simpl.
  - rewrite elem_of_nil. naive_solver.
  - rewrite elem_of_cons, IH. split.
    + intros [[= -> ->]|[Hle Hl]].
      * split; [lia|]. by rewrite Nat.sub_diag.
      * split; [lia|]. by replace (i - k)%nat with (S (i - S k)) by lia.
    + intros [Hle Hl]. destruct (decide (i = k)) as [->|Hne].
      * left. rewrite Nat.sub_diag in Hl. simpl in Hl. congruence.
      * right. split; [lia|].
        by replace (i - k)%nat with (S (i - S k)) in Hl by lia.
Qed.

Lemma elem_of_argsort ar v i : (v, i) ∈ argsort ar ↔ ar !! i = Some v.
Proof.
  unfold argsort. destruct (argsort_from_spec ar 0) as (Hp & _ & _).
  rewrite Hp, elem_of_zip_seq, Nat.sub_0_r. naive_solver lia.
Qed.

Lemma argsort_sorted ar : StronglySorted lex_lt (argsort ar).
Proof. apply (argsort_from_spec ar 0). Qed.

Lemma elem_of_mask_runs prev aux z :
  StronglySorted lex_lt aux → prev_below prev aux →
  z ∈ mask_runs prev aux ↔
    z ∈ aux ∧ prev ≠ Some z.1 ∧ ∀ y, y ∈ aux → y.1 = z.1 → (z.2 ≤ y.2)%nat.
Proof.
  revert prev. induction aux as [|x rest IH]; intros prev Hs Hprev; simpl.
  - rewrite elem_of_nil. naive_solver.
  - apply StronglySorted_cons in Hs as [Hx Hs].
    rewrite Forall_forall in Hx.
    assert (prev_below (Some x.1) rest) as Hprev'.
    { intros p [= <-]. apply Forall_forall. intros y Hy.
      apply lex_lt_fst. by apply Hx. }
    specialize (IH (Some x.1) Hs Hprev').
    assert (z ∈ rest → z.1 = x.1 →
            ¬ (∀ y, y ∈ x :: rest → y.1 = z.1 → (z.2 ≤ y.2)%nat)) as Hnotmin.
    { intros Hz Heq Hmin. specialize (Hmin x (list_elem_of_here _ _) (eq_sym Heq)).
      destruct (Hx z Hz) as [?|[_ ?]]; lia. }
    assert (∀ y, y ∈ x :: rest → y.1 = x.1 → (x.2 ≤ y.2)%nat) as Hxmin.
    { intros y [->|Hy]%elem_of_cons Heq; [lia|].
      destruct (Hx y Hy) as [?|[_ ?]]; lia. }
    destruct (decide (prev = Some x.1)) as [Hpe|Hpne].
    + rewrite IH. split.
      * intros (Hz & Hne & Hmin). split_and!.
        -- by apply list_elem_of_further.
        -- congruence.
        -- intros y [->|Hy]%elem_of_cons Heq; [congruence|by apply Hmin].
      * intros (Hz & Hne & Hmin).
        apply elem_of_cons in Hz as [->|Hz]; [congruence|].
        split_and!; [done| |].
        -- intros [= Heq]. by apply (Hnotmin Hz).
        -- intros y Hy. apply Hmin. by apply list_elem_of_further.
    + rewrite elem_of_cons, IH. split.
      * intros [->|(Hz & Hne & Hmin)]; [split_and!; [left|done|done]|].
        split_and!.
        -- by apply list_elem_of_further.
        -- intros Hp. specialize (Hprev _ Hp).
           apply Forall_cons in Hprev as [Hpx _].
           specialize (Hx z Hz). apply lex_lt_fst in Hx.
           assert (z.1 ≠ x.1) by congruence.
           assert (Some z.1 ≠ Some x.1) by congruence.
           apply Hpne. rewrite Hp. f_equal. lia.
        -- intros y [->|Hy]%elem_of_cons Heq; [congruence|by apply Hmin].
      * intros (Hz & Hne & Hmin).
        apply elem_of_cons in Hz as [->|Hz]; [by left|]. right.
        split_and!; [done| |].
        -- intros [= Heq]. by apply (Hnotmin Hz).
        -- intros y Hy. apply Hmin. by apply list_elem_of_further.
Qed.

Lemma mask_runs_sorted prev aux :
  StronglySorted lex_lt aux →
  StronglySorted (λ x y : Z * nat, x.1 < y.1) (mask_runs prev aux).
Proof.
  revert prev. induction aux as [|x rest IH]; intros prev Hs; simpl.
  - constructor.
  - pose proof Hs as Hs0.
    apply StronglySorted_cons in Hs as [Hx Hs].
    destruct (decide (prev = Some x.1)); [by apply IH|].
    apply StronglySorted_cons. split; [|by apply IH].
    apply Forall_forall. intros z Hz.
    apply elem_of_mask_runs in Hz as (Hz & Hne & _); [|done|].
    + rewrite Forall_forall in Hx. specialize (Hx z Hz).
      apply lex_lt_fst in Hx. assert (z.1 ≠ x.1) by congruence. lia.
    + intros p [= <-]. apply Forall_forall. intros y Hy.
      apply lex_lt_fst. rewrite Forall_forall in Hx. by apply Hx.
Qed.

(** [np.unique(ar, return_index=True)]: the values are strictly increasing,
    they are the values of [ar], and each index is that of the first
    occurrence of its value. *)
Lemma np_unique_spec ar :
  StronglySorted Z.lt (np_unique ar).1 ∧
  (∀ v, v ∈ (np_unique ar).1 ↔ v ∈ ar) ∧
  Forall2 (first_occurrence ar) (np_unique ar).1 (np_unique ar).2.
Proof.
  unfold np_unique. simpl.
  pose proof (argsort_sorted ar) as Hs.
  assert (prev_below None (argsort ar)) as Hprev by (intros p [=]).
  assert (∀ z, z ∈ mask_runs None (argsort ar) → first_occurrence ar z.1 z.2) as Hfo.
  { intros [v i] Hz. apply elem_of_mask_runs in Hz as (Hz & _ & Hmin); [|done..].
    split; [by apply elem_of_argsort|].
    intros j Hj. apply (Hmin (v, j)); [by apply elem_of_argsort|done]. }
  split_and!.
  - pose proof (mask_runs_sorted None _ Hs) as Hm. clear Hfo.
    induction Hm as [|x l Hl IH Hx]; simpl; constructor; [done|].
    by apply Forall_fmap.
  - intros v. rewrite list_elem_of_fmap. split.
    + intros ([v' i] & -> & Hz). apply Hfo in Hz as [Hi _].
      by eapply list_elem_of_lookup_2.
    + intros Hv. destruct (first_occurrence_exists ar v Hv) as [i [Hi Hmin]].
      exists (v, i). split; [done|].
      apply elem_of_mask_runs; [done..|]. split_and!; [by apply elem_of_argsort|done|].
      intros [v' j] Hy Heq. simpl in *. subst v'.
      apply Hmin. by apply elem_of_argsort.
  - induction (mask_runs None (argsort ar)) as [|x l IH]; simpl; constructor.
    + apply Hfo. left.
    + apply IH. intros z Hz. apply Hfo. by right.
Qed.

(** ** The candidates of a pixel *)

Lemma getitem_middle {A} (pre l : list A) x :
  getitem (pre ++ x :: l) (length pre) = Ok x.
Proof. unfold getitem. by rewrite list_lookup_middle. Qed.

Lemma getitem_lookup {A} (l : list A) i x : l !! i = Some x → getitem l i = Ok x.
Proof. unfold getitem. by intros ->. Qed.

Lemma sublist_from h (pre l : list loc) p :
  mapM (getitem (pre ++ l)) (np_where_eq_from (length pre) (indexarr_of h l) p)
  = Ok (candidates h l p).
Proof.
  revert pre. induction l as [|x l IH]; intros pre; [done|].
  unfold candidates. rewrite filter_cons. simpl.
  specialize (IH (pre ++ [x])).
  rewrite <- app_assoc, length_app, Nat.add_1_r in IH. simpl in IH.
  destruct (decide (index (h x) = p)) as [Heq|Hne]; simpl.
  - rewrite getitem_middle. simpl. by rewrite IH.
  - done.
Qed.

(** [[indivspec_list_completed[j] for j in idx]] is the list of candidates. *)
Lemma sublist_completed h completed p :
  mapM (getitem completed) (np_where_eq (indexarr_of h completed) p)
  = Ok (candidates h completed p).
Proof. apply (sublist_from h [] completed p). Qed.

Lemma mapM_res_length {A B} (f : A → res B) l k :
  mapM f l = Ok k → length k = length l.
Proof.
  revert k. induction l as [|x l IH]; intros k; simpl.
  - by intros [= <-].
  - destruct (f x); simpl; [|done..].
    destruct (mapM f l); simpl; [|done..].
    intros [= <-]. simpl. f_equal. by apply IH.
Qed.

Lemma length_where h completed p :
  length (np_where_eq (indexarr_of h completed) p) = length (candidates h completed p).
Proof. symmetry. eapply mapM_res_length, sublist_completed. Qed.

Lemma compilation_method_group h i indexarr_unique completed p :
  indexarr_unique !! i = Some p →
  compilation_method h i (indexarr_of h completed) indexarr_unique completed
  = compile_group h (candidates h completed p).
Proof.
  intros Hi. unfold compilation_method, compile_group.
  rewrite (getitem_lookup _ _ _ Hi). simpl.
  pose proof (sublist_completed h completed p) as Hsub.
  rewrite length_where.
  destruct (decide (length (candidates h completed p) = 1%nat)) as [Hone|Hmany].
  - rewrite <- length_where in Hone.
    destruct (np_where_eq (indexarr_of h completed) p) as [|j [|? ?]]; try done.
    simpl in Hsub. rewrite (getitem_lookup [j] 0 j eq_refl). simpl.
    destruct (getitem completed j) as [a| |]; simpl in *; [|done..].
    by injection Hsub as <-.
  - rewrite Hsub. simpl.
    destruct (mapM _ (candidates h completed p)) as [aics| |]; simpl; [|done..].
    destruct (decide (drop_nan aics = [])); [done|].
    by destruct (np_unique (drop_nan aics)).
Qed.

(** ** Candidates that all lack a model *)

Lemma bind_Ok {A B} (a : A) (f : A → res B) : (Ok a ≫= f) = f a.
Proof. reflexivity. Qed.

Lemma drop_nan_all_null {A} (l : list A) : drop_nan ((λ _, None) <$> l) = [].
Proof. unfold drop_nan. induction l; simpl; auto. Qed.

Lemma wrap_single_eq h a :
  wrap_single h a a
  = set_provenance (PyList [saa_dict_index (h a)]) (PyList [saaindex (h a)])
                   (PyList [model_from_parent (h a)]) (h a).
Proof. unfold wrap_single. cbv zeta. apply fn_lookup_insert. Qed.

Lemma wrap_single_ne h a b : a ≠ b → wrap_single h a b = h b.
Proof. intros. unfold wrap_single. cbv zeta. by apply fn_lookup_insert_ne. Qed.

Lemma aic_entry_no_model h a : no_model h a → aic_entry (h a) = Ok None.
Proof. unfold no_model, aic_entry. by intros ->. Qed.

Lemma aic_entry_has_model h a : has_model h a → aic_entry (h a) = Ok (rounded_aic h a).
Proof. unfold has_model, aic_entry, rounded_aic. by intros [m ->]. Qed.

Lemma scored_has_model h a : scored h a → has_model h a.
Proof.
  unfold scored, has_model, rounded_aic. intros [v Hv].
  destruct (model_from_parent (h a)); try discriminate Hv. by eexists.
Qed.

Lemma aic_entries_modelled_then_null h ms ns :
  Forall (has_model h) ms → Forall (no_model h) ns →
  mapM (λ a, aic_entry (h a)) (ms ++ ns)
  = Ok ((rounded_aic h <$> ms) ++ ((λ _, None) <$> ns)).
Proof.
  intros Hms Hns. induction Hms as [|a ms [m Hm] _ IH]; simpl.
  - induction Hns as [|a ns Ha _ IH]; simpl; [done|].
    rewrite (aic_entry_no_model _ _ Ha). simpl. by rewrite IH.
  - rewrite (aic_entry_has_model h a) by by exists m.
    simpl. by rewrite IH.
Qed.

Lemma aic_entry_unscored h a : unscored h a → aic_entry (h a) = Ok None.
Proof.
  intros [[Hn|Hm] Hnone]; [by apply aic_entry_no_model|].
  by rewrite (aic_entry_has_model _ _ Hm), Hnone.
Qed.

Lemma aic_entries_scored_then_unscored h ms ns :
  Forall (scored h) ms → Forall (unscored h) ns →
  mapM (λ a, aic_entry (h a)) (ms ++ ns)
  = Ok ((rounded_aic h <$> ms) ++ ((λ _, None) <$> ns)).
Proof.
  intros Hms Hns. induction Hms as [|a ms Ha _ IH]; simpl.
  - induction Hns as [|a ns Ha _ IH]; simpl; [done|].
    rewrite (aic_entry_unscored _ _ Ha). simpl. by rewrite IH.
  - rewrite (aic_entry_has_model h a) by by apply scored_has_model.
    simpl. by rewrite IH.
Qed.

Lemma drop_nan_modelled_then_null h ms (ns : list loc) :
  Forall (scored h) ms →
  Some <$> drop_nan ((rounded_aic h <$> ms) ++ ((λ _, None) <$> ns)) = rounded_aic h <$> ms.
Proof.
  intros Hms. unfold drop_nan. rewrite omap_app.
  fold (drop_nan ((λ _, None) <$> ns)). rewrite drop_nan_all_null, app_nil_r.
  induction Hms as [|a ms [v Hv] _ IH]; simpl; [done|].
  rewrite Hv. simpl. f_equal. exact IH.
Qed.

(** C2 (as stated) fails: for pixel 7 with two candidates without a model, the
    compiled spectrum records one provenance pair, not two. *)
Lemma all_null_records_one_pair :
  ¬ records_every_candidate two_null_candidates [0; 1]%nat 7.
Proof.
  intros Hclaim.
  destruct (Hclaim (wrap_single two_null_candidates 0%nat) {[ 7 := 0%nat ]})
    as (rep & Hrep & _ & Hsdi & _).
  { reflexivity. }
  vm_compute in Hrep. injection Hrep as <-.
  vm_compute in Hsdi. discriminate Hsdi.
Qed.

(** C2 (amended): for a pixel index with two or more completed candidates none
    of which has a model, the compiler picks the first candidate, by
    completed-list order, as the representative, and its three provenance
    lists have length one: the first candidate's own region-container index,
    region index and null model.  No other object is changed. *)
Theorem all_null_takes_first h completed indexarr_unique i p first rest :
  indexarr_unique !! i = Some p →
  candidates h completed p = first :: rest →
  rest ≠ [] →
  Forall (no_model h) (first :: rest) →
  ∃ h',
    compilation_method h i (indexarr_of h completed) indexarr_unique completed
      = Ok (h', first) ∧
    saa_dict_index (h' first) = PyList [saa_dict_index (h first)] ∧
    saaindex (h' first) = PyList [saaindex (h first)] ∧
    model_from_parent (h' first) = PyList [PyNone] ∧
    ∀ b, b ≠ first → h' b = h b.
Proof.
  intros Hi Hc Hrest Hnull.
  exists (wrap_single h first).
  rewrite (compilation_method_group _ _ _ _ _ Hi), Hc.
  unfold compile_group.
  destruct (decide (length (first :: rest) = 1%nat)) as [Hlen|_].
  { destruct rest; [done|simpl in Hlen; lia]. }
  assert (mapM (λ a, aic_entry (h a)) (first :: rest)
          = Ok ((λ _, None) <$> first :: rest)) as Haics
    by exact (aic_entries_modelled_then_null h [] (first :: rest) (Forall_nil_2 _) Hnull).
  rewrite Haics, bind_Ok.
  rewrite (drop_nan_all_null (first :: rest)).
  destruct (decide (@nil Z = [])) as [_|]; [|done].
  rewrite (getitem_lookup (first :: rest) 0 first eq_refl), bind_Ok.
  split; [done|].
  pose proof (Forall_inv Hnull) as Hfirst. unfold no_model in Hfirst.
  rewrite wrap_single_eq. simpl. rewrite Hfirst.
  split_and!; try done.
  intros b Hb. by rewrite wrap_single_ne.
Qed.

Lemma all_null_takes_first_witness :
  ∃ h',
    compilation_method two_null_candidates 0
      (indexarr_of two_null_candidates [0; 1]%nat) [7] [0; 1]%nat = Ok (h', 0%nat) ∧
    saa_dict_index (h' 0%nat) = PyList [saa_dict_index (two_null_candidates 0%nat)] ∧
    saaindex (h' 0%nat) = PyList [saaindex (two_null_candidates 0%nat)] ∧
    model_from_parent (h' 0%nat) = PyList [PyNone] ∧
    ∀ b, b ≠ 0%nat → h' b = two_null_candidates b.
Proof.
  apply (all_null_takes_first two_null_candidates [0; 1]%nat [7] 0 7 0%nat [1%nat]).
  - reflexivity.
  - reflexivity.
  - discriminate.
  - repeat constructor.
Defined.

(** ** Rounding in binary64 *)

(** [np.around] works on the binary64 product: 0.015, 45.135, 1.115 and 2.675
    times 100 are the halves 1.5, 4513.5, 111.5 and 267.5, which go to the
    even integer.  NaN stays NaN, and a product that overflows is infinite. *)
Lemma around2_in_binary64 :
  float_key (around2 0.015%float) = float_key 0.02%float ∧
  float_key (around2 45.135%float) = float_key 45.14%float ∧
  float_key (around2 1.115%float) = float_key 1.12%float ∧
  float_key (around2 2.675%float) = float_key 2.68%float ∧
  float_key (around2 45.13%float) = float_key 45.13%float ∧
  float_key (around2 nan) = None ∧
  float_key (around2 infinity) = float_key infinity ∧
  float_key (around2 1e308%float) = float_key infinity.
Proof. repeat split; reflexivity. Qed.

(** AICs 0.02 and 0.015 are one solution for the compiler: the first candidate
    alone is retained. *)
Lemma rounding_tie_keeps_first :
  ∃ h' d, compile_spectra rounding_tie [0; 1]%nat = Ok (h', d) ∧
          d !! 7 = Some 0%nat ∧
          saa_dict_index (h' 0%nat) = PyList [PyInt 0].
Proof. eexists _, _. split; [reflexivity|]. split; reflexivity. Qed.

(** AICs 45.135 and 45.13 are two solutions: both candidates are retained, the
    second, with the lower rounded AIC, first. *)
Lemma rounding_split_keeps_both :
  ∃ h' d, compile_spectra rounding_split [0; 1]%nat = Ok (h', d) ∧
          d !! 7 = Some 1%nat ∧
          saa_dict_index (h' 1%nat) = PyList [PyInt 1; PyInt 0].
Proof. eexists _, _. split; [reflexivity|]. split; reflexivity. Qed.

(** A model whose AIC is NaN is left out of the values [np.unique] sees, like
    a candidate without a model: position 0 then selects the candidate with
    the NaN, and the model with AIC 45.12 is dropped. *)
Lemma nan_aic_shadows_model :
  ∃ h' d, compile_spectra nan_then_model [0; 1]%nat = Ok (h', d) ∧
          d !! 7 = Some 0%nat ∧
          model_from_parent (h' 0%nat) = PyList [PyModel (model_with_aic nan)].
Proof. eexists _, _. split; [reflexivity|]. split; reflexivity. Qed.

(** ** Candidates with models: deduplication by rounded AIC *)

(** C1 (as stated) fails: with AIC 50.00 then 45.12 the representative is the
    second candidate, the one with the lower AIC, not the first. *)
Lemma representative_is_not_first_occurrence :
  ¬ first_occurrence_rule two_distinct_fits [0; 1]%nat 7.
Proof.
  intros Hclaim.
  assert (∃ (h' : heap) (d : gmap Z loc),
            compile_spectra two_distinct_fits [0; 1]%nat = Ok (h', d) ∧
            (d !! 7 : option loc) = Some 1%nat) as (h' & d & Hrun & Hd).
  { eexists _, _. split; reflexivity. }
  destruct (Hclaim h' d Hrun) as (rep & ? & ? & ? & Hrep & Hhead & _).
  vm_compute in Hhead. injection Hhead as Hzero. subst rep.
  rewrite Hd in Hrep. discriminate Hrep.
Qed.

Lemma Forall2_elem_of_l {A B} (P : A → B → Prop) l k x :
  Forall2 P l k → x ∈ l → ∃ y, y ∈ k ∧ P x y.
Proof.
  induction 1 as [|x' y' l k Hxy _ IH]; [by intros ?%elem_of_nil|].
  intros [->|Hx]%elem_of_cons.
  - exists y'. split; [left|done].
  - destruct (IH Hx) as (y & Hy & HP). exists y. split; [by right|done].
Qed.

Lemma Forall2_elem_of_r {A B} (P : A → B → Prop) l k y :
  Forall2 P l k → y ∈ k → ∃ x, x ∈ l ∧ P x y.
Proof.
  induction 1 as [|x' y' l k Hxy _ IH]; [by intros ?%elem_of_nil|].
  intros [->|Hy]%elem_of_cons.
  - exists x'. split; [left|done].
  - destruct (IH Hy) as (x & Hx & HP). exists x. split; [by right|done].
Qed.

Lemma lookup_rounded h (ms : list loc) (vals : list Z) i v :
  Some <$> vals = rounded_aic h <$> ms →
  vals !! i = Some v ↔ ∃ a, ms !! i = Some a ∧ rounded_aic h a = Some v.
Proof.
  intros Heq.
  assert ((Some <$> vals) !! i = (rounded_aic h <$> ms) !! i) as Hi by by rewrite Heq.
  rewrite !list_lookup_fmap in Hi.
  destruct (vals !! i) as [v'|], (ms !! i) as [a|]; simpl in Hi; try discriminate Hi.
  - injection Hi as Hi. split.
    + intros [= ->]. eauto.
    + intros (a' & [= <-] & Ha). congruence.
  - split; [done|]. by intros (a' & ? & _).
Qed.

Lemma mapM_getitem {A} (l : list A) (ids : list nat) :
  Forall (λ i, is_Some (l !! i)) ids →
  ∃ picked, mapM (getitem l) ids = Ok picked ∧
            Forall2 (λ i a, l !! i = Some a) ids picked.
Proof.
  induction 1 as [|i ids [a Ha] _ (picked & Hp & Hall)]; simpl.
  - exists []. split; [done|constructor].
  - exists (a :: picked). rewrite (getitem_lookup _ _ _ Ha), bind_Ok, Hp.
    split; [done|]. by constructor.
Qed.

(** C1 (amended): for a pixel index with two or more completed candidates, at
    least one with a model whose AIC is not NaN, and none without such a model
    listed before one with it, the compiler rounds each model's AIC to two
    decimals, as [np.around] does in binary64, and retains, for each distinct
    rounded value, the first candidate by completed-list order achieving it.
    The provenance lists of the representative hold the region-container
    index, region index and model of exactly the retained candidates, in
    increasing order of rounded AIC, and the representative is the first of
    them: the earliest candidate with the lowest rounded AIC. *)
Theorem dedup_keeps_first_of_each_aic h completed indexarr_unique i p modelled unmodelled :
  indexarr_unique !! i = Some p →
  candidates h completed p = modelled ++ unmodelled →
  (2 ≤ length (modelled ++ unmodelled))%nat →
  modelled ≠ [] →
  Forall (scored h) modelled →
  Forall (unscored h) unmodelled →
  ∃ h' rep retained uniqvals,
    compilation_method h i (indexarr_of h completed) indexarr_unique completed
      = Ok (h', rep) ∧
    rounded_aic h <$> retained = Some <$> uniqvals ∧
    StronglySorted Z.lt uniqvals ∧
    Forall (first_achieving h (modelled ++ unmodelled)) retained ∧
    (∀ c, c ∈ modelled → ∃ a, a ∈ retained ∧ rounded_aic h a = rounded_aic h c) ∧
    saa_dict_index (h' rep) = PyList ((λ a, saa_dict_index (h a)) <$> retained) ∧
    saaindex (h' rep) = PyList ((λ a, saaindex (h a)) <$> retained) ∧
    model_from_parent (h' rep) = PyList ((λ a, model_from_parent (h a)) <$> retained) ∧
    head retained = Some rep ∧
    (∀ c v w, c ∈ modelled → rounded_aic h c = Some v →
              rounded_aic h rep = Some w → w <= v) ∧
    (∀ b, b ≠ rep → h' b = h b).
Proof.
  intros Hi Hc Hlen Hne Hms Hns.
  rewrite (compilation_method_group _ _ _ _ _ Hi), Hc.
  unfold compile_group.
  destruct (decide (length (modelled ++ unmodelled) = 1%nat)) as [?|_]; [lia|].
  rewrite (aic_entries_scored_then_unscored h _ _ Hms Hns), bind_Ok.
  pose proof (drop_nan_modelled_then_null h modelled unmodelled Hms) as Hvals.
  set (vals := drop_nan _) in *.
  destruct (decide (vals = [])) as [Hnil|_].
  { rewrite Hnil in Hvals. destruct modelled; [done|discriminate Hvals]. }
  destruct (np_unique_spec vals) as (Hsorted & Hmem & Hfirst).
  destruct (np_unique vals) as [uniqvals uniqids]. simpl in Hsorted, Hmem, Hfirst.
  (* every index of [uniqids] is a position in the modelled prefix *)
  assert (Forall2 (λ v k, ∃ a, modelled !! k = Some a ∧ rounded_aic h a = Some v ∧
                              first_occurrence vals v k) uniqvals uniqids) as Hpos.
  { eapply Forall2_impl; [exact Hfirst|]. intros v k Hfo. simpl.
    destruct (proj1 (lookup_rounded h modelled vals k v Hvals) (proj1 Hfo))
      as (a & Ha & Hv). eauto. }
  destruct (mapM_getitem (modelled ++ unmodelled) uniqids) as (retained & Hpick & Hret).
  { apply Forall_forall. intros k Hk.
    destruct (Forall2_elem_of_r _ _ _ _ Hpos Hk) as (v & _ & a & Ha & _).
    exists a. by apply lookup_app_l_Some. }
  rewrite Hpick, bind_Ok.
  (* the retained candidates line up with the unique values *)
  assert (Forall2 (λ v a, rounded_aic h a = Some v ∧
                          first_achieving h (modelled ++ unmodelled) a)
                  uniqvals retained) as Halign.
  { clear Hpick Hmem Hsorted Hfirst.
    revert retained Hret.
    induction Hpos as [|v k uv uk (a & Ha & Hv & Hfo) _ IH]; intros retained Hret.
    - apply Forall2_nil_inv_l in Hret as ->. constructor.
    - apply Forall2_cons_inv_l in Hret as (a' & retained' & Ha' & Hret & ->).
      rewrite (lookup_app_l_Some _ _ _ _ Ha) in Ha'. injection Ha' as <-.
      constructor; [|by apply IH].
      split; [done|]. exists k. split; [by apply lookup_app_l_Some|].
      intros j c Hj Hcv. rewrite Hv in Hcv.
      destruct Hfo as [_ Hmin]. apply Hmin.
      apply (lookup_rounded h modelled vals j v Hvals).
      exists c. split; [|done].
      destruct (decide (j < length modelled)%nat) as [Hlt|Hge].
      + by rewrite lookup_app_l in Hj.
      + rewrite lookup_app_r in Hj by lia.
        apply list_elem_of_lookup_2 in Hj.
        rewrite Forall_forall in Hns. destruct (Hns c Hj) as [_ Hnone].
        rewrite Hnone in Hcv. discriminate Hcv. }
  (* the unique values are not empty *)
  destruct modelled as [|m0 modelled']; [done|].
  destruct (Forall_inv Hms) as [v0 Hv0].
  assert (v0 ∈ uniqvals) as Hv0in.
  { apply Hmem. apply (list_elem_of_lookup_2 _ 0%nat).
    apply (lookup_rounded h (m0 :: modelled') vals 0 v0 Hvals). eauto. }
  destruct uniqvals as [|w uniqvals']; [by apply elem_of_nil in Hv0in|].
  apply Forall2_cons_inv_l in Hpos as (k0 & uniqids' & (a0 & Ha0 & Hw & _) & _ & ->).
  apply Forall2_cons_inv_l in Hret as (rep & retained' & Hrep & Hret' & ->).
  rewrite (getitem_lookup (k0 :: uniqids') 0 k0 eq_refl), bind_Ok.
  rewrite (getitem_lookup _ _ _ Hrep), bind_Ok.
  rewrite (lookup_app_l_Some _ _ _ _ Ha0) in Hrep. injection Hrep as <-.
  eexists _, a0, (a0 :: retained'), (w :: uniqvals').
  split; [reflexivity|].
  rewrite fn_lookup_insert.
  split_and!; try done.
  - clear -Halign. remember (w :: uniqvals') as uv eqn:E1.
    remember (a0 :: retained') as ret eqn:E2. clear E1 E2.
    induction Halign as [|v a uv ret [Hv _] _ IH]; [done|].
    rewrite !fmap_cons. by rewrite Hv, IH.
  - eapply Forall2_Forall_r; [exact Halign|].
    apply Forall_forall. by intros v _ a [_ ?].
  - intros c Hcin.
    pose proof Hcin as Hcin'. rewrite Forall_forall in Hms.
    destruct (Hms c Hcin) as [v Hv].
    apply list_elem_of_lookup_1 in Hcin' as [j Hj].
    assert (v ∈ w :: uniqvals') as Hvin.
    { apply Hmem. apply (list_elem_of_lookup_2 _ j).
      apply (lookup_rounded h (m0 :: modelled') vals j v Hvals). eauto. }
    destruct (Forall2_elem_of_l _ _ _ _ Halign Hvin) as (a & Hain & Hav & _).
    exists a. split; [done|congruence].
  - intros c v w' Hcin Hv Hw'. assert (w' = w) as -> by congruence.
    apply list_elem_of_lookup_1 in Hcin as [j Hj].
    assert (v ∈ w :: uniqvals') as Hvin.
    { apply Hmem. apply (list_elem_of_lookup_2 _ j).
      apply (lookup_rounded h (m0 :: modelled') vals j v Hvals). eauto. }
    apply elem_of_cons in Hvin as [->|Hvin]; [lia|].
    apply StronglySorted_cons in Hsorted as [Hall _].
    rewrite Forall_forall in Hall. specialize (Hall v Hvin). lia.
  - intros b Hb. by rewrite fn_lookup_insert_ne.
Qed.

Lemma dedup_keeps_first_of_each_aic_witness :
  ∃ h' rep retained uniqvals,
    compilation_method two_distinct_fits 0
      (indexarr_of two_distinct_fits [0; 1]%nat) [7] [0; 1]%nat = Ok (h', rep) ∧
    rounded_aic two_distinct_fits <$> retained = Some <$> uniqvals ∧
    StronglySorted Z.lt uniqvals ∧
    Forall (first_achieving two_distinct_fits ([0; 1]%nat ++ [])) retained ∧
    (∀ c, c ∈ [0; 1]%nat →
          ∃ a, a ∈ retained ∧ rounded_aic two_distinct_fits a = rounded_aic two_distinct_fits c) ∧
    saa_dict_index (h' rep) = PyList ((λ a, saa_dict_index (two_distinct_fits a)) <$> retained) ∧
    saaindex (h' rep) = PyList ((λ a, saaindex (two_distinct_fits a)) <$> retained) ∧
    model_from_parent (h' rep)
      = PyList ((λ a, model_from_parent (two_distinct_fits a)) <$> retained) ∧
    head retained = Some rep ∧
    (∀ c v w, c ∈ [0; 1]%nat → rounded_aic two_distinct_fits c = Some v →
              rounded_aic two_distinct_fits rep = Some w → w <= v) ∧
    (∀ b, b ≠ rep → h' b = two_distinct_fits b).
Proof.
  apply (dedup_keeps_first_of_each_aic two_distinct_fits [0; 1]%nat [7] 0 7
           [0; 1]%nat []).
  - reflexivity.
  - reflexivity.
  - simpl. lia.
  - discriminate.
  - repeat constructor; eexists; reflexivity.
  - constructor.
Defined.

(** ** Coverage of the compiled mapping *)

Lemma aic_entry_fresh h a : fresh h a → aic_entry (h a) = Ok (rounded_aic h a).
Proof.
  intros [Hn|Hm].
  - rewrite (aic_entry_no_model _ _ Hn). unfold rounded_aic.
    unfold no_model in Hn. by rewrite Hn.
  - by apply aic_entry_has_model.
Qed.

Lemma aic_entries_fresh h cands :
  Forall (fresh h) cands →
  mapM (λ a, aic_entry (h a)) cands = Ok (rounded_aic h <$> cands).
Proof.
  induction 1 as [|a cands Ha _ IH]; [done|].
  simpl. by rewrite (aic_entry_fresh _ _ Ha), bind_Ok, IH.
Qed.

Lemma length_drop_nan aics : (length (drop_nan aics) ≤ length aics)%nat.
Proof.
  unfold drop_nan. induction aics as [|[v|] aics IH]; csimpl; simpl; lia.
Qed.

Lemma StronglySorted_lt_NoDup (l : list Z) : StronglySorted Z.lt l → NoDup l.
Proof.
  induction 1 as [|x l _ IH Hx]; constructor; [|done].
  intros Hin. rewrite Forall_forall in Hx. specialize (Hx x Hin). lia.
Qed.

Lemma wrap_single_insert h a : wrap_single h a = <[a := wrap_obj (h a)]> h.
Proof. reflexivity. Qed.

(** Every branch of [compilation_method] succeeds on a single candidate and on
    fresh candidates: it picks one of them and rewrites that object only,
    keeping its index and leaving a list in [model_from_parent]. *)
Lemma compile_group_ok h cands :
  cands ≠ [] → length cands = 1%nat ∨ Forall (fresh h) cands →
  ∃ rep o, compile_group h cands = Ok (<[rep := o]> h, rep) ∧
           rep ∈ cands ∧ index o = index (h rep) ∧
           is_pylist (model_from_parent o) ∧
           (length cands = 1%nat → o = wrap_obj (h rep)).
Proof.
  intros Hne Hfresh. unfold compile_group.
  destruct cands as [|c0 cands']; [done|].
  destruct (decide (length (c0 :: cands') = 1%nat)) as [_|Hmany].
  { exists c0, (wrap_obj (h c0)).
    rewrite (getitem_lookup (c0 :: cands') 0 c0 eq_refl), bind_Ok, wrap_single_insert.
    split_and!; [done|left|done|by eexists|done]. }
  destruct Hfresh as [?|Hfresh]; [done|].
  rewrite (aic_entries_fresh _ _ Hfresh), bind_Ok.
  set (aics := rounded_aic h <$> c0 :: cands').
  assert (length aics = length (c0 :: cands')) as Hlen by apply length_fmap.
  destruct (decide (drop_nan aics = [])) as [_|Hvals].
  { exists c0, (wrap_obj (h c0)).
    rewrite (getitem_lookup (c0 :: cands') 0 c0 eq_refl), bind_Ok, wrap_single_insert.
    split_and!; [done|left|done|by eexists|done]. }
  destruct (np_unique_spec (drop_nan aics)) as (_ & Hmem & Hfirst).
  destruct (np_unique (drop_nan aics)) as [uniqvals uniqids].
  cbn [fst snd] in Hmem, Hfirst.
  assert (Forall (λ k, is_Some ((c0 :: cands') !! k)) uniqids) as Hin.
  { apply Forall_forall. intros k Hk.
    destruct (Forall2_elem_of_r _ _ _ _ Hfirst Hk) as (v & _ & Hv & _).
    apply lookup_lt_is_Some. apply lookup_lt_Some in Hv.
    pose proof (length_drop_nan aics). lia. }
  destruct (mapM_getitem _ _ Hin) as (picked & Hpick & _).
  rewrite Hpick, bind_Ok.
  destruct uniqids as [|u0 uniqids'].
  { apply Forall2_nil_inv_r in Hfirst as ->.
    destruct (drop_nan aics) as [|v vals]; [done|].
    exfalso. eapply elem_of_nil, Hmem. left. }
  rewrite (getitem_lookup (u0 :: uniqids') 0 u0 eq_refl), bind_Ok.
  apply Forall_cons in Hin as [[rep Hrep] _].
  rewrite (getitem_lookup _ _ _ Hrep), bind_Ok.
  eexists rep, _. split_and!; [reflexivity| |done|by eexists|done].
  by eapply list_elem_of_lookup_2.
Qed.

Lemma Forall2_and_elem_of {A B} (P : A → B → Prop) l k :
  Forall2 P l k → Forall2 (λ x y, P x y ∧ y ∈ k) l k.
Proof.
  induction 1 as [|x y l k Hxy _ IH]; constructor.
  - split; [done|left].
  - eapply Forall2_impl; [exact IH|]. intros x' y' [? ?]. split; [done|by right].
Qed.

Lemma indexarr_of_ext h h' completed :
  (∀ a, index (h' a) = index (h a)) → indexarr_of h' completed = indexarr_of h completed.
Proof. intros He. unfold indexarr_of. apply list_fmap_ext. intros _ a _. apply He. Qed.

Lemma candidates_ext h h' completed p :
  (∀ a, index (h' a) = index (h a)) → candidates h' completed p = candidates h completed p.
Proof.
  intros He. unfold candidates. apply list_filter_iff. intros a. by rewrite He.
Qed.

Lemma elem_of_candidates h completed p a :
  a ∈ candidates h completed p ↔ a ∈ completed ∧ index (h a) = p.
Proof. unfold candidates. rewrite list_elem_of_filter. naive_solver. Qed.

Lemma candidates_nonempty h completed p :
  p ∈ indexarr_of h completed → candidates h completed p ≠ [].
Proof.
  unfold indexarr_of. rewrite list_elem_of_fmap. intros (a & -> & Ha) Hnil.
  assert (a ∈ candidates h completed (index (h a))) as Hin
    by by apply elem_of_candidates.
  rewrite Hnil in Hin. by apply elem_of_nil in Hin.
Qed.

(** The loop over the distinct pixel indices: every call succeeds when the
    candidates are fresh or single, keeps every object's index, rewrites the
    returned tasks only, and returns a task of the pixel index it was called
    for. *)
Lemma compile_results_ok completed indexarr_unique :
  NoDup indexarr_unique →
  ∀ ids h,
    NoDup ids →
    (∀ i, i ∈ ids → ∃ p, indexarr_unique !! i = Some p ∧ p ∈ indexarr_of h completed) →
    (∀ a i, a ∈ completed → i ∈ ids →
            indexarr_unique !! i = Some (index (h a)) →
            fresh h a ∨ length (candidates h completed (index (h a))) = 1%nat) →
    ∃ h' rs,
      compile_results h ids (indexarr_of h completed) indexarr_unique completed
        = Ok (h', rs) ∧
      (∀ a, index (h' a) = index (h a)) ∧
      (∀ a, a ∉ rs → h' a = h a) ∧
      Forall2 (compiled_at h h' completed indexarr_unique) ids rs.
Proof.
  intros Hnd ids. induction ids as [|i ids IH]; intros h Hids Hp Hfresh.
  { exists h, []. split_and!; [done|done|done|constructor]. }
  apply NoDup_cons in Hids as [Hi Hids].
  destruct (Hp i) as (p & Hip & Hpin); [left|].
  simpl. rewrite (compilation_method_group _ _ _ _ _ Hip).
  destruct (compile_group_ok h (candidates h completed p))
    as (rep & o & -> & Hrep & Ho & Hlist & Hone).
  { by apply candidates_nonempty. }
  { destruct (decide (length (candidates h completed p) = 1%nat)) as [|Hmany];
      [by left|right].
    apply Forall_forall. intros a [Ha Hidx]%elem_of_candidates.
    destruct (Hfresh a i Ha) as [?|Hlen]; [left|congruence|done|].
    by rewrite Hidx in Hlen. }
  rewrite bind_Ok. cbn beta iota.
  pose proof Hrep as Hrepc.
  apply elem_of_candidates in Hrep as [Hrep Hrepidx].
  assert (∀ a, index ((<[rep := o]> h) a) = index (h a)) as Hsame.
  { intros a. destruct (decide (rep = a)) as [->|Hne].
    - by rewrite fn_lookup_insert.
    - by rewrite fn_lookup_insert_ne. }
  destruct (IH (<[rep := o]> h)) as (h' & rs & Hrun & Hidx & Hframe & Hall).
  - done.
  - intros i' Hi'. destruct (Hp i') as (p' & ? & ?); [by right|].
    exists p'. by rewrite (indexarr_of_ext _ _ _ Hsame).
  - intros a i' Ha Hi' Hlook. rewrite Hsame in Hlook.
    rewrite (candidates_ext _ _ _ _ Hsame), Hsame.
    destruct (decide (rep = a)) as [->|Hne].
    + exfalso. rewrite Hrepidx in Hlook.
      assert (i = i') as -> by exact (NoDup_lookup _ _ _ _ Hnd Hip Hlook). done.
    + unfold fresh, no_model, has_model. rewrite fn_lookup_insert_ne by done.
      apply (Hfresh a i' Ha); [by right|done].
  - rewrite (indexarr_of_ext _ _ _ Hsame) in Hrun. rewrite Hrun, bind_Ok.
    assert (rep ∉ rs) as Hnotin.
    { intros Hin.
      destruct (Forall2_elem_of_r _ _ _ _ Hall Hin) as (i' & Hi' & p' & Hp' & Hc' & _).
      rewrite (candidates_ext _ _ _ _ Hsame) in Hc'.
      apply elem_of_candidates in Hc' as [_ Hc']. rewrite Hrepidx in Hc'. subst p'.
      assert (i = i') as -> by exact (NoDup_lookup _ _ _ _ Hnd Hip Hp'). done. }
    assert (h' rep = o) as Hrepo by by rewrite (Hframe _ Hnotin), fn_lookup_insert.
    exists h', (rep :: rs). split_and!; [done| | |].
    + intros a. by rewrite Hidx, Hsame.
    + intros a [Hne Ha]%not_elem_of_cons.
      by rewrite (Hframe _ Ha), fn_lookup_insert_ne.
    + constructor.
      * exists p. rewrite Hrepo. by split_and!.
      * eapply Forall2_impl; [exact (Forall2_and_elem_of _ _ _ Hall)|].
        intros i' r ((p' & Hp' & Hc' & Hl' & Hw') & Hr). exists p'.
        rewrite (candidates_ext _ _ _ _ Hsame) in Hc', Hw'.
        assert (rep ≠ r) as Hne by (intros ->; done).
        rewrite fn_lookup_insert_ne in Hw' by done. by split_and!.
Qed.

Lemma np_sort_perm ar : np_sort ar ≡ₚ ar.
Proof.
  unfold np_sort, argsort.
  destruct (argsort_from_spec ar 0) as (Hperm & _).
  rewrite Hperm. rewrite fst_zip; [done|]. by rewrite length_seq.
Qed.

Lemma indexarr_unique_spec indexarr :
  NoDup (np_sort (np_unique indexarr).1) ∧
  ∀ p, p ∈ np_sort (np_unique indexarr).1 ↔ p ∈ indexarr.
Proof.
  destruct (np_unique_spec indexarr) as (Hsorted & Hmem & _).
  split.
  - rewrite np_sort_perm. by apply StronglySorted_lt_NoDup.
  - intros p. by rewrite np_sort_perm.
Qed.

Lemma fill_dict_from_dom (k : loc → Z) (d0 : gmap Z loc) rs :
  dom (foldl (λ d r, <[k r := r]> d) d0 rs) = dom d0 ∪ list_to_set (k <$> rs).
Proof.
  revert d0. induction rs as [|r rs IH]; intros d0; simpl.
  - set_solver.
  - rewrite IH, dom_insert_L. set_solver.
Qed.

Lemma fill_dict_from_lookup (k : loc → Z) (d0 : gmap Z loc) rs p rep :
  foldl (λ d r, <[k r := r]> d) d0 rs !! p = Some rep →
  (rep ∈ rs ∧ k rep = p) ∨ d0 !! p = Some rep.
Proof.
  revert d0. induction rs as [|r rs IH]; intros d0; simpl; [by right|].
  intros [[Hin Hk]|Hd0]%IH.
  - left. split; [by right|done].
  - destruct (decide (k r = p)) as [<-|Hne].
    + rewrite lookup_insert_eq in Hd0. injection Hd0 as <-. left. split; [left|done].
    + rewrite lookup_insert_ne in Hd0 by done. by right.
Qed.

Lemma seq_positions h completed indexarr_unique :
  (∀ p, p ∈ indexarr_unique ↔ p ∈ indexarr_of h completed) →
  ∀ i, i ∈ seq 0 (length indexarr_unique) →
       ∃ p, indexarr_unique !! i = Some p ∧ p ∈ indexarr_of h completed.
Proof.
  intros Hmem i [_ Hi]%elem_of_seq. simpl in Hi.
  destruct (lookup_lt_is_Some_2 indexarr_unique i Hi) as [p Hp].
  exists p. split; [done|]. apply Hmem. by eapply list_elem_of_lookup_2.
Qed.

(** The keys written to the dictionary are the distinct indices, in order. *)
Lemma compiled_keys h h' completed indexarr_unique rs :
  (∀ a, index (h' a) = index (h a)) →
  Forall2 (compiled_at h h' completed indexarr_unique)
          (seq 0 (length indexarr_unique)) rs →
  (λ a, index (h' a)) <$> rs = indexarr_unique.
Proof.
  intros Hidx Hall. apply list_eq. intros j. rewrite list_lookup_fmap.
  destruct (rs !! j) as [r|] eqn:Hr; simpl.
  - destruct (Forall2_lookup_r _ _ _ _ _ Hall Hr) as (i & Hi & p & Hlook & Hc & _).
    apply lookup_seq in Hi as [-> _]. simpl in Hlook.
    apply elem_of_candidates in Hc as [_ Hc]. by rewrite Hidx, Hc, Hlook.
  - symmetry. apply lookup_ge_None. apply lookup_ge_None in Hr.
    apply Forall2_length in Hall. rewrite length_seq in Hall. lia.
Qed.

(** C3: for every completed-task list of fresh tasks, the compiler returns a
    mapping whose key set is exactly the set of pixel indices that occur in
    the list; being a mapping it holds one compiled spectrum per index, and
    that one is a task of the list with that very index. *)
Theorem compiled_keys_are_the_pixel_indices h completed :
  Forall (fresh h) completed →
  ∃ h' d,
    compile_spectra h completed = Ok (h', d) ∧
    dom d = list_to_set (indexarr_of h completed) ∧
    (∀ p rep, d !! p = Some rep → rep ∈ completed ∧ index (h rep) = p) ∧
    (∀ a, index (h' a) = index (h a)).
Proof.
  intros Hfresh. unfold compile_spectra.
  fold (indexarr_of h completed).
  destruct (indexarr_unique_spec (indexarr_of h completed)) as [Hnd Hmem].
  set (indexarr_unique := np_sort (np_unique (indexarr_of h completed)).1) in *.
  destruct (compile_results_ok completed indexarr_unique Hnd
              (seq 0 (length indexarr_unique)) h)
    as (h' & rs & Hrun & Hidx & _ & Hall).
  - apply NoDup_seq.
  - by apply seq_positions.
  - intros a i Ha _ _. left. rewrite Forall_forall in Hfresh. by apply Hfresh.
  - rewrite Hrun, bind_Ok. exists h', (fill_dict h' rs).
    split_and!; [done| | |done].
    + unfold fill_dict.
      rewrite fill_dict_from_dom, (compiled_keys _ _ _ _ _ Hidx Hall), dom_empty_L.
      apply set_eq. intros p. rewrite elem_of_union, !elem_of_list_to_set, Hmem.
      set_solver.
    + intros p rep Hd. unfold fill_dict in Hd.
      apply fill_dict_from_lookup in Hd as [[Hin Hk]|Hd]; [|done].
      destruct (Forall2_elem_of_r _ _ _ _ Hall Hin) as (i & _ & p' & _ & Hc & _).
      apply elem_of_candidates in Hc as [Hc _].
      split; [done|]. by rewrite <- Hidx.
Qed.

Lemma compiled_keys_are_the_pixel_indices_witness :
  ∃ h' d,
    compile_spectra three_tasks [0; 1; 2]%nat = Ok (h', d) ∧
    dom d = list_to_set (indexarr_of three_tasks [0; 1; 2]%nat) ∧
    (∀ p rep, d !! p = Some rep →
              rep ∈ [0; 1; 2]%nat ∧ index (three_tasks rep) = p) ∧
    (∀ a, index (h' a) = index (three_tasks a)).
Proof.
  apply (compiled_keys_are_the_pixel_indices three_tasks [0; 1; 2]%nat).
  repeat apply Forall_cons_2; [right; eexists; reflexivity|by left|
                               right; eexists; reflexivity|constructor].
Defined.

(** ** Compiling a second time *)

(** C8 (as stated) fails: the first run rewrites the task of pixel 7 in place,
    and the second run wraps its provenance attributes once more. *)
Lemma second_compilation_differs :
  ¬ recompilation_is_identical two_null_candidates [0%nat].
Proof.
  intros Hclaim.
  destruct (Hclaim (wrap_single two_null_candidates 0%nat) {[ 7 := 0%nat ]})
    as (h2 & d2 & Hrun & Hsame).
  { reflexivity. }
  vm_compute in Hrun. injection Hrun as <- <-.
  specialize (Hsame 7). vm_compute in Hsame. discriminate Hsame.
Qed.

Lemma aic_entry_cases o : (∃ v, aic_entry o = Ok v) ∨ aic_entry o = Raise AttributeError.
Proof. unfold aic_entry. destruct (model_from_parent o); eauto. Qed.

Lemma aic_entry_pylist o : is_pylist (model_from_parent o) → aic_entry o = Raise AttributeError.
Proof. unfold aic_entry. by intros [l ->]. Qed.

(** A list in [model_from_parent] of one candidate makes the AIC list fail. *)
Lemma aic_entries_raise h (cands : list loc) a :
  a ∈ cands → is_pylist (model_from_parent (h a)) →
  mapM (λ a, aic_entry (h a)) cands = Raise AttributeError.
Proof.
  intros Hin Hlist. revert Hin.
  induction cands as [|c cands IH]; intros Hin; [by apply elem_of_nil in Hin|].
  simpl. destruct (aic_entry_cases (h c)) as [[v Hv]|Hraise].
  - rewrite Hv, bind_Ok.
    apply elem_of_cons in Hin as [->|Hin].
    + rewrite (aic_entry_pylist _ Hlist) in Hv. discriminate Hv.
    + by rewrite (IH Hin).
  - by rewrite Hraise.
Qed.

Lemma compile_group_raises h (cands : list loc) a :
  length cands ≠ 1%nat → a ∈ cands → is_pylist (model_from_parent (h a)) →
  compile_group h cands = Raise AttributeError.
Proof.
  intros Hlen Hin Hlist. unfold compile_group.
  destruct (decide (length cands = 1%nat)); [done|].
  by rewrite (aic_entries_raise _ _ _ Hin Hlist).
Qed.

(** Pixel indices are pairwise distinct exactly when every pixel has a single
    candidate. *)
Lemma single_candidates_NoDup h completed :
  (∀ p, p ∈ indexarr_of h completed → length (candidates h completed p) = 1%nat) →
  NoDup (indexarr_of h completed).
Proof.
  unfold indexarr_of, candidates.
  induction completed as [|x l IH]; intros Hone; [constructor|].
  rewrite fmap_cons.
  assert (index (h x) ∉ (λ a, index (h a)) <$> l) as Hnotin.
  { intros Hin. specialize (Hone (index (h x)) (list_elem_of_here _ _)).
    rewrite filter_cons_True in Hone by done. simpl in Hone.
    apply list_elem_of_fmap in Hin as (b & Hb & Hbin).
    assert (b ∈ filter (λ a, index (h a) = index (h x)) l) as Hf
      by (apply list_elem_of_filter; split; [by symmetry|done]).
    destruct (filter _ l); [by apply elem_of_nil in Hf|]. simpl in Hone. lia. }
  constructor; [done|]. apply IH. intros p Hp.
  specialize (Hone p (list_elem_of_further _ _ _ Hp)).
  rewrite filter_cons_False in Hone; [done|]. intros Heq. subst p. done.
Qed.

Lemma NoDup_single_candidate h completed a :
  NoDup (indexarr_of h completed) → a ∈ completed →
  candidates h completed (index (h a)) = [a].
Proof.
  unfold indexarr_of, candidates.
  induction completed as [|x l IH]; intros Hnd Hin; [by apply elem_of_nil in Hin|].
  rewrite fmap_cons in Hnd. apply NoDup_cons in Hnd as [Hx Hnd].
  assert (∀ b, b ∈ l → index (h b) ≠ index (h x)) as Hne.
  { intros b Hb Heq. apply Hx. apply list_elem_of_fmap. exists b. by split. }
  apply elem_of_cons in Hin as [->|Hin].
  - rewrite filter_cons_True by done. f_equal.
    clear -Hne. induction l as [|b l IH]; [done|].
    rewrite filter_cons_False; [|apply Hne; left].
    apply IH. intros b' Hb'. apply Hne. by right.
  - rewrite filter_cons_False; [by apply IH|]. intros Heq. by apply (Hne a Hin).
Qed.

Lemma fill_dict_ext h h' rs :
  (∀ a, index (h' a) = index (h a)) → fill_dict h' rs = fill_dict h rs.
Proof.
  intros He. unfold fill_dict. generalize (∅ : gmap Z loc).
  induction rs as [|r rs IH]; intros d; simpl; [done|]. by rewrite He, IH.
Qed.

(** On a store where every remaining pixel has a single candidate or a
    candidate whose [model_from_parent] is already a list, the loop raises as
    soon as it reaches a pixel with several candidates. *)
Lemma compile_results_raises completed indexarr_unique :
  NoDup indexarr_unique →
  ∀ ids h,
    NoDup ids →
    (∀ i, i ∈ ids → ∃ p, indexarr_unique !! i = Some p ∧ p ∈ indexarr_of h completed) →
    (∀ i p, i ∈ ids → indexarr_unique !! i = Some p →
            length (candidates h completed p) = 1%nat ∨
            ∃ a, a ∈ candidates h completed p ∧ is_pylist (model_from_parent (h a))) →
    (∃ i p, i ∈ ids ∧ indexarr_unique !! i = Some p ∧
            length (candidates h completed p) ≠ 1%nat) →
    compile_results h ids (indexarr_of h completed) indexarr_unique completed
      = Raise AttributeError.
Proof.
  intros Hnd ids. induction ids as [|i ids IH]; intros h Hids Hp Hgroups Hmulti.
  { destruct Hmulti as (i & p & Hi & _). by apply elem_of_nil in Hi. }
  apply NoDup_cons in Hids as [Hi Hids].
  destruct (Hp i) as (p & Hip & Hpin); [left|].
  simpl. rewrite (compilation_method_group _ _ _ _ _ Hip).
  destruct (decide (length (candidates h completed p) = 1%nat)) as [Hone|Hmany].
  - destruct (compile_group_ok h (candidates h completed p))
      as (rep & o & -> & Hrep & Ho & _ & _); [by apply candidates_nonempty|by left|].
    rewrite bind_Ok. cbn beta iota.
    apply elem_of_candidates in Hrep as [Hrep Hrepidx].
    assert (∀ a, index ((<[rep := o]> h) a) = index (h a)) as Hsame.
    { intros a. destruct (decide (rep = a)) as [->|Hne].
      - by rewrite fn_lookup_insert.
      - by rewrite fn_lookup_insert_ne. }
    rewrite <- (indexarr_of_ext _ _ _ Hsame).
    rewrite IH; [done|done| | |].
    + intros i' Hi'. destruct (Hp i') as (p' & ? & ?); [by right|].
      exists p'. by rewrite (indexarr_of_ext _ _ _ Hsame).
    + intros i' p' Hi' Hp'. rewrite (candidates_ext _ _ _ _ Hsame).
      destruct (Hgroups i' p' (list_elem_of_further _ _ _ Hi') Hp')
        as [?|(a & Ha & Hlist)]; [by left|right].
      exists a. split; [done|].
      apply elem_of_candidates in Ha as [_ Ha].
      rewrite fn_lookup_insert_ne; [done|]. intros ->.
      rewrite Hrepidx in Ha. subst p'.
      assert (i = i') as -> by exact (NoDup_lookup _ _ _ _ Hnd Hip Hp'). done.
    + destruct Hmulti as (i' & p' & Hi' & Hp' & Hlen).
      exists i', p'. rewrite (candidates_ext _ _ _ _ Hsame).
      split_and!; [|done..].
      apply elem_of_cons in Hi' as [->|Hi']; [|done].
      rewrite Hip in Hp'. injection Hp' as <-. done.
  - destruct (Hgroups i p (list_elem_of_here _ _) Hip) as [?|(a & Ha & Hlist)]; [done|].
    by rewrite (compile_group_raises _ _ _ Hmany Ha Hlist).
Qed.

Lemma Forall2_same_choice {A B} (P Q : A → B → Prop) l k1 k2 :
  Forall2 P l k1 → Forall2 Q l k2 →
  (∀ x y1 y2, x ∈ l → P x y1 → Q x y2 → y1 = y2) → k1 = k2.
Proof.
  intros HP. revert k2. induction HP as [|x y l k1 Hxy _ IH]; intros k2 HQ Hfun.
  - by apply Forall2_nil_inv_l in HQ as ->.
  - apply Forall2_cons_inv_l in HQ as (y2 & k2' & Hxy2 & HQ & ->).
    f_equal.
    + eapply Hfun; [left|done..].
    + apply IH; [done|]. intros x' y1 y2' Hx'. apply Hfun. by right.
Qed.

(** C8 (amended): the compiler rewrites the representative tasks in place, so
    a second run over the same completed-task list, unless it is empty, does
    not reproduce the first.  When every pixel index of the list has a single candidate, the
    second run returns the same mapping from pixel index to task, and wraps
    each provenance attribute of every task in one more list; when some pixel
    index has two or more candidates, the second run raises an
    AttributeError. *)
Theorem second_compilation_nests_or_raises h completed h1 d :
  Forall (fresh h) completed →
  compile_spectra h completed = Ok (h1, d) →
  (NoDup (indexarr_of h completed) →
     ∃ h2, compile_spectra h1 completed = Ok (h2, d) ∧
           ∀ a, a ∈ completed → h1 a = wrap_obj (h a) ∧ h2 a = wrap_obj (h1 a)) ∧
  (¬ NoDup (indexarr_of h completed) →
     compile_spectra h1 completed = Raise AttributeError).
Proof.
  intros Hfresh Hrun1. unfold compile_spectra in *.
  fold (indexarr_of h completed) in Hrun1. fold (indexarr_of h1 completed).
  destruct (indexarr_unique_spec (indexarr_of h completed)) as [Hnd Hmem].
  set (indexarr_unique := np_sort (np_unique (indexarr_of h completed)).1) in *.
  destruct (compile_results_ok completed indexarr_unique Hnd
              (seq 0 (length indexarr_unique)) h)
    as (h1' & rs & Hrs & Hidx & _ & Hall).
  { apply NoDup_seq. }
  { by apply seq_positions. }
  { intros a i Ha _ _. left. rewrite Forall_forall in Hfresh. by apply Hfresh. }
  rewrite Hrs, bind_Ok in Hrun1. injection Hrun1 as -> <-.
  rewrite (indexarr_of_ext _ _ _ Hidx).
  fold indexarr_unique.
  assert (∀ p, p ∈ indexarr_unique ↔ p ∈ indexarr_of h1 completed) as Hmem1
    by (intros p; by rewrite (indexarr_of_ext _ _ _ Hidx)).
  split.
  - intros Hone.
    assert (∀ a, a ∈ completed →
                 candidates h completed (index (h a)) = [a]) as Hsingle
      by (intros a; by apply NoDup_single_candidate).
    destruct (compile_results_ok completed indexarr_unique Hnd
                (seq 0 (length indexarr_unique)) h1)
      as (h2 & rs2 & Hrs2 & Hidx2 & _ & Hall2).
    { apply NoDup_seq. }
    { by apply seq_positions. }
    { intros a i Ha _ _. right.
      by rewrite (candidates_ext _ _ _ _ Hidx), Hidx, (Hsingle a Ha). }
    rewrite (indexarr_of_ext _ _ _ Hidx) in Hrs2.
    assert (∀ i r p, indexarr_unique !! i = Some p → r ∈ candidates h completed p →
                     candidates h completed p = [r]) as Hcand.
    { intros i r p Hp Hr. pose proof Hr as Hr'.
      apply elem_of_candidates in Hr' as [Hrin <-]. by apply Hsingle. }
    assert (rs2 = rs) as ->.
    { eapply Forall2_same_choice; [exact Hall2|exact Hall|].
      intros i r2 r _ (p2 & Hp2 & Hr2 & _) (p & Hp & Hr & _).
      rewrite Hp in Hp2. injection Hp2 as <-.
      rewrite (candidates_ext _ _ _ _ Hidx) in Hr2.
      rewrite (Hcand i r p Hp Hr) in Hr2.
      by apply list_elem_of_singleton in Hr2. }
    rewrite Hrs2, bind_Ok. exists h2. split.
    { f_equal. f_equal. apply fill_dict_ext. intros a. by rewrite Hidx2. }
    intros a Ha.
    assert (index (h a) ∈ indexarr_unique) as Hin.
    { apply Hmem. unfold indexarr_of. apply list_elem_of_fmap. by exists a. }
    apply list_elem_of_lookup_1 in Hin as [i Hi].
    assert (is_Some (seq 0 (length indexarr_unique) !! i)) as [i' Hi'].
    { apply lookup_lt_is_Some. rewrite length_seq. by eapply lookup_lt_Some. }
    pose proof Hi' as Hi''. apply lookup_seq in Hi'' as [-> _]. simpl in Hi'.
    destruct (Forall2_lookup_l _ _ _ _ _ Hall Hi') as (r & Hr & p & Hp & Hc & _ & Hw).
    destruct (Forall2_lookup_l _ _ _ _ _ Hall2 Hi') as (r2 & Hr2 & p2 & Hp2 & Hc2 & _ & Hw2).
    rewrite Hr in Hr2. injection Hr2 as <-.
    rewrite Hi in Hp, Hp2. injection Hp as <-. injection Hp2 as <-.
    rewrite (candidates_ext _ _ _ _ Hidx) in Hw2.
    rewrite (Hsingle a Ha) in Hc, Hw, Hw2.
    apply list_elem_of_singleton in Hc as ->.
    split; [by apply Hw|by apply Hw2].
  - intros Hdup.
    rewrite <- (indexarr_of_ext _ _ _ Hidx).
    rewrite (compile_results_raises completed indexarr_unique Hnd); [done| | | |].
    + apply NoDup_seq.
    + by apply seq_positions.
    + intros i p Hi Hp. right.
      apply elem_of_seq in Hi as [_ Hi]. simpl in Hi.
      assert (seq 0 (length indexarr_unique) !! i = Some i) as Hi'
        by (by apply lookup_seq).
      destruct (Forall2_lookup_l _ _ _ _ _ Hall Hi') as (r & Hr & p' & Hp' & Hc & Hl & _).
      rewrite Hp in Hp'. injection Hp' as <-.
      exists r. by rewrite (candidates_ext _ _ _ _ Hidx).
    + destruct (decide (Forall (λ p, length (candidates h completed p) = 1%nat)
                               (indexarr_of h completed))) as [Hone|Hmany].
      { exfalso. apply Hdup, single_candidates_NoDup.
        by rewrite Forall_forall in Hone. }
      apply not_Forall_Exists in Hmany; [|apply _].
      apply Exists_exists in Hmany as (p & Hp & Hlen).
      apply Hmem in Hp. apply list_elem_of_lookup_1 in Hp as [i Hi].
      exists i, p. rewrite (candidates_ext _ _ _ _ Hidx).
      split_and!; [|done..].
      apply elem_of_seq. split; [lia|]. simpl. by eapply lookup_lt_Some.
Qed.

(** Two candidates for pixel 7: the first run leaves a list in the model
    attribute of its representative, and the second run fails on it. *)
Lemma recompiling_three_tasks_raises :
  ∃ h1 d, compile_spectra three_tasks [0; 1; 2]%nat = Ok (h1, d) ∧
          compile_spectra h1 [0; 1; 2]%nat = Raise AttributeError.
Proof. eexists _, _. split; reflexivity. Qed.

Lemma second_compilation_nests_or_raises_witness :
  (NoDup (indexarr_of two_null_candidates [0%nat]) →
     ∃ h2, compile_spectra (wrap_single two_null_candidates 0%nat) [0%nat]
             = Ok (h2, {[ 7 := 0%nat ]}) ∧
           ∀ a, a ∈ [0%nat] →
                wrap_single two_null_candidates 0%nat a = wrap_obj (two_null_candidates a) ∧
                h2 a = wrap_obj (wrap_single two_null_candidates 0%nat a)) ∧
  (¬ NoDup (indexarr_of two_null_candidates [0%nat]) →
     compile_spectra (wrap_single two_null_candidates 0%nat) [0%nat]
       = Raise AttributeError).
Proof.
  apply (second_compilation_nests_or_raises two_null_candidates [0%nat]).
  - repeat constructor.
  - reflexivity.
Defined.

(** ** The scheduler *)

Lemma settle_store_eq h a oc : settle_store h a oc a = settle oc (h a).
Proof.
  unfold settle_store. cbv zeta. destruct oc; simpl; by rewrite !fn_lookup_insert.
Qed.

Lemma settle_store_ne h a oc b : a ≠ b → settle_store h a oc b = h b.
Proof.
  intros Hne. unfold settle_store. cbv zeta.
  destruct oc; simpl; by rewrite !fn_lookup_insert_ne.
Qed.

Lemma process_results_spec results :
  ∀ pre tasks h completed,
    length results = length tasks →
    process_results (length pre) results h (pre ++ (Some <$> tasks)) completed
    = Ok (batch_store h (zip tasks results),
          pre ++ batch_slots (zip tasks results),
          completed ++ batch_finished (zip tasks results)).
Proof.
  induction results as [|[model gu] results IH]; intros pre tasks h completed Hlen.
  - destruct tasks; [|done]. simpl. by rewrite !app_nil_r.
  - destruct tasks as [|a tasks]; [done|]. injection Hlen as Hlen.
    rewrite fmap_cons. cbn [process_results].
    rewrite getitem_middle, bind_Ok.
    assert (∀ x : option loc,
              S (length pre) = length (pre ++ [x]) ∧
              pre ++ x :: (Some <$> tasks) = (pre ++ [x]) ++ (Some <$> tasks)) as Hpre.
    { intros x. rewrite length_app, <- app_assoc. simpl. split; [lia|done]. }
    assert (<[length pre := None]> (pre ++ Some a :: (Some <$> tasks))
            = pre ++ None :: (Some <$> tasks)) as Hins.
    { rewrite insert_app_r_alt by lia. by rewrite Nat.sub_diag. }
    unfold batch_store, batch_slots, batch_finished. simpl zip. cbn [foldl fmap list_fmap].
    destruct model as [model|]; [|destruct (decide (length gu = 0%nat)) as [Hz|Hnz]].
    + rewrite Hins. destruct (Hpre None) as [-> ->].
      rewrite (IH (pre ++ [None]) tasks _ _ Hlen).
      unfold batch_store, batch_slots, batch_finished, classify at 2 4, settle_store.
      csimpl. by rewrite <- !app_assoc.
    + rewrite Hins. destruct (Hpre None) as [-> ->].
      rewrite (IH (pre ++ [None]) tasks _ _ Hlen).
      unfold batch_store, batch_slots, batch_finished, classify at 2 4, settle_store.
      csimpl. destruct (decide (length gu = 0%nat)); [|done].
      csimpl. by rewrite <- !app_assoc.
    + destruct (Hpre (Some a)) as [-> ->].
      rewrite (IH (pre ++ [Some a]) tasks _ _ Hlen).
      unfold batch_store, batch_slots, batch_finished, classify at 2 4, settle_store.
      csimpl. destruct (decide (length gu = 0%nat)); [done|].
      csimpl. by rewrite <- !app_assoc.
Qed.

Lemma zip_with_results {A B} (f : A → B) (l : list A) :
  zip l (f <$> l) = (λ a, (a, f a)) <$> l.
Proof. induction l as [|a l IH]; [done|]. rewrite !fmap_cons. simpl. by rewrite IH. Qed.

Lemma batch_slots_retry (f : loc → option indivmodel * guesses) tasks :
  omap id (batch_slots ((λ a, (a, f a)) <$> tasks))
  = filter (λ a, ¬ terminal (classify (f a))) tasks.
Proof.
  unfold batch_slots. induction tasks as [|a tasks IH]; [done|].
  rewrite !fmap_cons, filter_cons. csimpl.
  destruct (decide (terminal (classify (f a)))) as [Ht|Hnt]; csimpl.
  - rewrite decide_False by tauto. exact IH.
  - rewrite decide_True by done. by rewrite IH.
Qed.

Lemma batch_finished_terminal (f : loc → option indivmodel * guesses) tasks :
  batch_finished ((λ a, (a, f a)) <$> tasks)
  = filter (λ a, terminal (classify (f a))) tasks.
Proof.
  unfold batch_finished. induction tasks as [|a tasks IH]; [done|].
  rewrite !fmap_cons, filter_cons. csimpl.
  destruct (decide (terminal (classify (f a)))) as [Ht|Hnt]; csimpl; by rewrite IH.
Qed.

Lemma batch_store_notin (f : loc → option indivmodel * guesses) tasks h b :
  b ∉ tasks → batch_store h ((λ a, (a, f a)) <$> tasks) b = h b.
Proof.
  unfold batch_store. revert h. induction tasks as [|a tasks IH]; intros h Hb; [done|].
  apply not_elem_of_cons in Hb as [Hne Hb].
  rewrite fmap_cons. simpl. rewrite IH by done. by apply settle_store_ne.
Qed.

Lemma batch_store_in (f : loc → option indivmodel * guesses) tasks h a :
  NoDup tasks → a ∈ tasks →
  batch_store h ((λ a, (a, f a)) <$> tasks) a = settle (classify (f a)) (h a).
Proof.
  unfold batch_store. revert h.
  induction tasks as [|x tasks IH]; intros h Hnd Ha; [by apply elem_of_nil in Ha|].
  apply NoDup_cons in Hnd as [Hx Hnd]. rewrite fmap_cons. simpl.
  apply elem_of_cons in Ha as [->|Ha].
  - pose proof (batch_store_notin f tasks (settle_store h x (classify (f x))) x Hx) as Hn.
    unfold batch_store in Hn. rewrite Hn. apply settle_store_eq.
  - rewrite IH by done. f_equal. apply settle_store_ne. by intros ->.
Qed.

Section Stage3Properties.

Context (np_take : list Q → list nat → list Q).
Context (fit : fit_call → fit_outcome).

(** One pass, written as a function of the batch. *)
Lemma iteration_spec scouseobject h tasks completed :
  iteration np_take fit scouseobject h tasks completed
  = Ok (batch_store h (work_of np_take fit scouseobject h tasks),
        filter (λ a, ¬ terminal (outcome_of np_take fit scouseobject (h a))) tasks,
        completed ++ filter (λ a, terminal (outcome_of np_take fit scouseobject (h a))) tasks).
Proof.
  unfold iteration, parallel_map.
  set (results := if decide (njobs scouseobject > 1) then _ else _).
  assert (results = (λ a, result_of np_take fit scouseobject (h a)) <$> tasks) as ->.
  { unfold results, result_of. destruct (decide _); by rewrite <- list_fmap_compose. }
  rewrite (process_results_spec _ [] tasks h completed) by by rewrite length_fmap.
  rewrite bind_Ok. cbn beta iota.
  rewrite zip_with_results. simpl app.
  rewrite (batch_slots_retry (λ a, result_of np_take fit scouseobject (h a))).
  by rewrite (batch_finished_terminal (λ a, result_of np_take fit scouseobject (h a))).
Qed.

(** C7: the fit is called with the updated guesses exactly when the
    [guesses_updated] attribute holds a list of more than one value, and with
    the guesses inherited from the parent region when it holds a list of one
    value or none, or [None]; the parent's guesses are passed as they are for
    the tolerance comparison, and the result of the executor is that of this
    one call. *)
Theorem executor_guesses (input : fit_input) :
  let indivspec := in_indivspec input in
  let call := fit_call_of np_take input in
  (∀ g, guesses_updated indivspec = Some g → (1 < length g)%nat →
        call_guesses call = g) ∧
  (∀ g, guesses_updated indivspec = Some g → (length g ≤ 1)%nat →
        call_guesses call = guesses_from_parent indivspec) ∧
  (guesses_updated indivspec = None →
     call_guesses call = guesses_from_parent indivspec) ∧
  call_guesses_parent call = guesses_from_parent indivspec ∧
  decomposition_method np_take fit input
  = (if validfit (fit call) then Some (modeldict (fit call)) else None,
     dec_guesses_updated (fit call)).
Proof.
  cbv zeta. unfold decomposition_method, fit_call_of. simpl.
  split_and!; [| | |done..].
  - intros g Hg Hlen. rewrite Hg.
    destruct (decide _) as [Hle|_]; [simpl in Hle; lia|done].
  - intros g Hg Hlen. rewrite Hg.
    destruct (decide _) as [_|Hgt]; [done|simpl in Hgt; lia].
  - intros Hg. rewrite Hg.
    destruct (decide _) as [_|Hgt]; [done|simpl in Hgt; lia].
Qed.

(** C4: in one pass, every task of the batch is classified by the result of
    its fit: with a model it is appended to the completed list and leaves the
    pending list, and its model attribute holds that model; without a model
    and with no updated guesses it is appended to the completed list and
    leaves the pending list, its model attribute as it was; otherwise the
    updated guesses are stored in its [guesses_updated] attribute and it stays
    pending.  In each case the template reference is cleared and no other
    attribute changes. *)
Theorem iteration_classifies scouseobject h tasks completed :
  NoDup tasks →
  ∃ h' pending finished,
    iteration np_take fit scouseobject h tasks completed
      = Ok (h', pending, completed ++ finished) ∧
    ∀ a, a ∈ tasks →
      template (h' a) = None ∧
      scheduler_writes (h a) (h' a) ∧
      match decomposition_method np_take fit (make_input scouseobject (h a)) with
      | (Some model, _) =>
          a ∈ finished ∧ (a ∉ pending) ∧
          model_from_parent (h' a) = PyModel model ∧
          guesses_updated (h' a) = guesses_updated (h a)
      | (None, []) =>
          a ∈ finished ∧ (a ∉ pending) ∧
          model_from_parent (h' a) = model_from_parent (h a) ∧
          guesses_updated (h' a) = guesses_updated (h a)
      | (None, g :: rest) =>
          a ∈ pending ∧ (a ∉ finished) ∧
          model_from_parent (h' a) = model_from_parent (h a) ∧
          guesses_updated (h' a) = Some (g :: rest)
      end.
Proof.
  intros Hnd. eexists _, _, _. split; [apply iteration_spec|].
  intros a Ha.
  assert (batch_store h (work_of np_take fit scouseobject h tasks) a
          = settle (outcome_of np_take fit scouseobject (h a)) (h a)) as ->
    by exact (batch_store_in (λ a, result_of np_take fit scouseobject (h a)) tasks h a Hnd Ha).
  fold (result_of np_take fit scouseobject (h a)).
  assert (outcome_of np_take fit scouseobject (h a) = classify (result_of np_take fit scouseobject (h a)))
    as Hoc by reflexivity.
  assert ((terminal (classify (result_of np_take fit scouseobject (h a))) →
             a ∈ filter (λ a, terminal (outcome_of np_take fit scouseobject (h a))) tasks ∧
             a ∉ filter (λ a, ¬ terminal (outcome_of np_take fit scouseobject (h a))) tasks) ∧
          (¬ terminal (classify (result_of np_take fit scouseobject (h a))) →
             a ∈ filter (λ a, ¬ terminal (outcome_of np_take fit scouseobject (h a))) tasks ∧
             a ∉ filter (λ a, terminal (outcome_of np_take fit scouseobject (h a))) tasks))
    as [Hterm Hretry].
  { rewrite !list_elem_of_filter, Hoc. tauto. }
  rewrite Hoc. clear Hoc.
  destruct (result_of np_take fit scouseobject (h a)) as [[model|] [|g rest]];
    cbn [classify] in *.
  - destruct Hterm; [done|]. unfold scheduler_writes. by split_and!.
  - destruct Hterm; [done|]. unfold scheduler_writes. by split_and!.
  - destruct Hterm; [done|]. unfold scheduler_writes. by split_and!.
  - destruct Hretry; [simpl; tauto|]. unfold scheduler_writes. by split_and!.
Qed.

Lemma retry_loop_cons fuel scouseobject h a tasks completed :
  retry_loop np_take fit (S fuel) scouseobject h (a :: tasks) completed
  = retry_loop np_take fit fuel scouseobject
      (batch_store h (work_of np_take fit scouseobject h (a :: tasks)))
      (filter (λ a, ¬ terminal (outcome_of np_take fit scouseobject (h a))) (a :: tasks))
      (completed ++ filter (λ a, terminal (outcome_of np_take fit scouseobject (h a))) (a :: tasks)).
Proof. cbn [retry_loop]. by rewrite iteration_spec, bind_Ok. Qed.

(** The loop only appends to the completed list, and what it appends is a
    rearrangement of the pending list. *)
Lemma retry_loop_extends fuel scouseobject :
  ∀ h tasks completed h' out,
    retry_loop np_take fit fuel scouseobject h tasks completed = Ok (h', out) →
    ∃ later, out = completed ++ later ∧ later ≡ₚ tasks.
Proof.
  induction fuel as [|fuel IH]; intros h tasks completed h' out Hrun.
  - destruct tasks; [|done]. injection Hrun as _ <-.
    exists []. by rewrite app_nil_r.
  - destruct tasks as [|a tasks].
    { injection Hrun as _ <-. exists []. by rewrite app_nil_r. }
    rewrite retry_loop_cons in Hrun.
    apply IH in Hrun as (later & -> & Hlater).
    eexists. rewrite <- app_assoc. split; [done|].
    rewrite Hlater.
    apply (filter_app_complement (λ a, terminal (outcome_of np_take fit scouseobject (h a)))).
Qed.

(** C6: when the loop returns, the completed list is a rearrangement of the
    list of tasks that entered the loop: every task is there, as often as it
    was given, so once for a list without repetition. *)
Theorem completed_is_permutation fuel scouseobject h tasks h' completed :
  autonomous_decomposition np_take fit fuel scouseobject h tasks = Ok (h', completed) →
  completed ≡ₚ tasks ∧ (NoDup tasks → NoDup completed).
Proof.
  intros Hrun. apply retry_loop_extends in Hrun as (later & -> & Hlater).
  simpl. split; [done|]. by rewrite Hlater.
Qed.


(** *** What the loop hands to the compiler *)

Lemma settle_store_fresh h a oc :
  (∀ b, fresh h b) → ∀ b, fresh (settle_store h a oc) b.
Proof.
  intros Hfresh b. destruct (decide (a = b)) as [->|Hne].
  - unfold fresh, no_model, has_model. rewrite settle_store_eq.
    destruct oc; simpl; [right; eauto|apply Hfresh..].
  - unfold fresh, no_model, has_model. rewrite settle_store_ne by done. apply Hfresh.
Qed.

Lemma batch_store_fresh work :
  ∀ h, (∀ b, fresh h b) → ∀ b, fresh (batch_store h work) b.
Proof.
  unfold batch_store. induction work as [|[a r] work IH]; intros h Hfresh; [done|].
  simpl. apply IH. by apply settle_store_fresh.
Qed.

(** The loop keeps every task fresh: [model_from_parent] is [None] or the
    model [add_model] attached, which is what the compiler expects. *)
Lemma retry_loop_fresh fuel scouseobject :
  ∀ h tasks completed h' out,
    (∀ b, fresh h b) →
    retry_loop np_take fit fuel scouseobject h tasks completed = Ok (h', out) →
    ∀ b, fresh h' b.
Proof.
  induction fuel as [|fuel IH]; intros h tasks completed h' out Hfresh Hrun.
  - destruct tasks; [|done]. by injection Hrun as <- _.
  - destruct tasks as [|a tasks]; [by injection Hrun as <- _|].
    rewrite retry_loop_cons in Hrun. eapply IH; [|exact Hrun].
    by apply batch_store_fresh.
Qed.

(** *** Termination *)





(** The store after one pass over a batch of distinct tasks. *)
Lemma pass_store scouseobject h tasks :
  NoDup tasks →
  (∀ a, a ∈ tasks →
        batch_store h (work_of np_take fit scouseobject h tasks) a
        = settle (outcome_of np_take fit scouseobject (h a)) (h a)) ∧
  (∀ b, b ∉ tasks → batch_store h (work_of np_take fit scouseobject h tasks) b = h b).
Proof.
  intros Hnd. split.
  - intros a Ha.
    exact (batch_store_in (λ a, result_of np_take fit scouseobject (h a)) _ h a Hnd Ha).
  - intros b Hb. by apply (batch_store_notin (λ a, result_of np_take fit scouseobject (h a))).
Qed.



(** *** The template *)

Context (get_rms : list Q → Q).

Lemma spectra_of_pixels_generated scouseobject tpl i SAA pixels :
  ∀ st, generated tpl st →
        generated tpl (spectra_of_pixels get_rms scouseobject tpl i SAA st pixels).
Proof.
  unfold spectra_of_pixels.
  induction pixels as [|[yx idx] pixels IH]; intros [[h next] l] Hst; [done|].
  simpl. apply IH. destruct Hst as [Hnd Hall]. split.
  - apply NoDup_app. split_and!; [done| |apply NoDup_singleton].
    intros a Ha Hn. apply list_elem_of_singleton in Hn as ->.
    destruct (Hall _ Ha). lia.
  - intros a [Ha|Hn]%elem_of_app.
    + destruct (Hall a Ha) as [Hlt Htpl]. split; [lia|].
      rewrite fn_lookup_insert_ne by lia. done.
    + apply list_elem_of_singleton in Hn as ->.
      split; [lia|]. by rewrite fn_lookup_insert.
Qed.

Lemma spectra_of_saas_generated scouseobject tpl i items :
  ∀ st st', generated tpl st →
            spectra_of_saas get_rms scouseobject tpl i items st = Ok st' →
            generated tpl st'.
Proof.
  induction items as [|[j SAA] items IH]; intros st st' Hst Hrun; simpl in Hrun.
  - by injection Hrun as <-.
  - destruct (to_be_fit SAA); [|by eapply IH].
    destruct (indices_flat SAA) as [flat| |]; [|done..].
    rewrite bind_Ok in Hrun. eapply IH; [|exact Hrun].
    by apply spectra_of_pixels_generated.
Qed.

Lemma spectra_of_dicts_generated scouseobject tpl ids :
  ∀ st st', generated tpl st →
            spectra_of_dicts get_rms scouseobject tpl ids st = Ok st' →
            generated tpl st'.
Proof.
  induction ids as [|i ids IH]; intros st st' Hst Hrun; simpl in Hrun.
  - by injection Hrun as <-.
  - destruct (saa_dict scouseobject !! i) as [saa_dict_i|]; [|done].
    destruct (spectra_of_saas get_rms scouseobject tpl i saa_dict_i st)
      as [st1| |] eqn:Hsaas; [|done..].
    rewrite bind_Ok in Hrun. eapply IH; [|exact Hrun].
    by eapply spectra_of_saas_generated.
Qed.

(** C9 (amended): the template is built once, by the task generator, and set
    on every task it makes, so the first fit of every task receives it.  The
    scheduler clears the template reference of every task of a batch when it
    processes the batch's results, whether the task completes or stays
    pending: after any pass the template of every task of the batch is unset,
    and the next fit of a task that stays pending receives no template. *)
Theorem template_reaches_first_fit_only scouseobject h0 next h1 next1 tasks :
  initialise_fitting get_rms scouseobject h0 next = Ok (h1, next1, tasks) →
  NoDup tasks ∧
  (∀ a, a ∈ tasks →
        template (h1 a) = Some (gen_template scouseobject) ∧
        dec_psktemplate (call_decomposer (fit_call_of np_take (make_input scouseobject (h1 a))))
        = Some (gen_template scouseobject)) ∧
  (∀ h batch completed h' pending completed',
     NoDup batch →
     iteration np_take fit scouseobject h batch completed = Ok (h', pending, completed') →
     (∀ a, a ∈ batch → template (h' a) = None) ∧
     (∀ a, a ∈ pending →
           dec_psktemplate
             (call_decomposer (fit_call_of np_take (make_input scouseobject (h' a))))
           = None)).
Proof.
  intros Hinit. unfold initialise_fitting in Hinit.
  apply (spectra_of_dicts_generated _ (gen_template scouseobject) _ (h0, next, []))
    in Hinit as [Hnd Hall].
  2:{ split; [constructor|]. by intros a ?%elem_of_nil. }
  split_and!; [done| |].
  - intros a Ha. destruct (Hall a Ha) as [_ Htpl]. by rewrite <- Htpl.
  - intros h batch completed h' pending completed' Hbatch Hrun.
    rewrite iteration_spec in Hrun. injection Hrun as <- <- <-.
    destruct (pass_store scouseobject h batch Hbatch) as [Hin _].
    assert (∀ a, a ∈ batch →
                 template (batch_store h (work_of np_take fit scouseobject h batch) a) = None) as Hnone.
    { intros a Ha. rewrite (Hin a Ha).
      by destruct (outcome_of np_take fit scouseobject (h a)). }
    split; [done|].
    intros a [_ Ha]%list_elem_of_filter. simpl. by apply Hnone.
Qed.

End Stage3Properties.

(** ** Termination of the loop *)

Section Termination.
Context (np_take : list Q → list nat → list Q).
Context (fit : fit_call → fit_outcome).



End Termination.

(** ** The order of the completed list *)

Lemma filter_lookup_lt {A} (P : A → Prop) `{!∀ x, Decision (P x)} (l : list A) :
  ∀ i j a b,
    filter P l !! i = Some a → filter P l !! j = Some b → (i < j)%nat →
    ∃ i' j', l !! i' = Some a ∧ l !! j' = Some b ∧ (i' < j')%nat.
Proof.
  induction l as [|x l IH]; intros i j a b Hi Hj Hlt; [done|].
  rewrite filter_cons in Hi, Hj. destruct (decide (P x)) as [Hx|Hx].
  - destruct j as [|j]; [lia|]. simpl in Hj. destruct i as [|i].
    + simpl in Hi. injection Hi as ->.
      apply list_elem_of_lookup_2, list_elem_of_filter in Hj as [_ Hb].
      apply list_elem_of_lookup_1 in Hb as [j' Hj'].
      exists 0%nat, (S j'). split_and!; [done|done|lia].
    + simpl in Hi. destruct (IH i j a b Hi Hj) as (i' & j' & ? & ? & ?); [lia|].
      exists (S i'), (S j'). split_and!; [done|done|lia].
  - destruct (IH i j a b Hi Hj Hlt) as (i' & j' & ? & ? & ?).
    exists (S i'), (S j'). split_and!; [done|done|lia].
Qed.

Lemma head_filter_lt {A} (P : A → Prop) `{!∀ x, Decision (P x)} (l : list A) a c :
  head (filter P l) = Some a → c ∈ filter P l → c ≠ a →
  ∃ i j, filter P l !! i = Some a ∧ filter P l !! j = Some c ∧ (i < j)%nat.
Proof.
  intros Hhead Hc Hne. apply list_elem_of_lookup_1 in Hc as [j Hj].
  rewrite head_lookup in Hhead.
  exists 0%nat, j. split_and!; [done..|].
  destruct j; [congruence|lia].
Qed.

Section CompletionOrderProperties.
Context (np_take : list Q → list nat → list Q).
Context (fit : fit_call → fit_outcome).

Lemma completes_in_unique scouseobject n m o :
  completes_in np_take fit n scouseobject o → completes_in np_take fit m scouseobject o →
  n = m.
Proof.
  revert m o. induction n as [|n IH]; intros [|m] o; simpl.
  - done.
  - intros Hterm (g & Hoc & _). rewrite Hoc in Hterm. destruct Hterm.
  - intros (g & Hoc & _) Hterm. rewrite Hoc in Hterm. destruct Hterm.
  - intros (g & Hoc & Hn) (g' & Hoc' & Hm). rewrite Hoc in Hoc'. injection Hoc' as <-.
    f_equal. by eapply IH.
Qed.

(** The order of completion is strict: the completed list is the one list of
    the tasks in this order. *)
Lemma completes_before_asymmetric scouseobject h tasks a b :
  NoDup tasks →
  completes_before np_take fit scouseobject h tasks a b →
  ¬ completes_before np_take fit scouseobject h tasks b a.
Proof.
  intros Hnd (na & nb & ia & ib & Hna & Hnb & Hia & Hib & Hord)
         (nb' & na' & ib' & ia' & Hnb' & Hna' & Hib' & Hia' & Hord').
  pose proof (completes_in_unique _ _ _ _ Hna Hna').
  pose proof (completes_in_unique _ _ _ _ Hnb Hnb').
  pose proof (NoDup_lookup _ _ _ _ Hnd Hia Hia').
  pose proof (NoDup_lookup _ _ _ _ Hnd Hib Hib'). lia.
Qed.

(** A task that stays pending completes one pass later than it does from the
    store the pass leaves. *)
Lemma completes_in_retry scouseobject h tasks a n :
  NoDup tasks →
  a ∈ filter (λ a, ¬ terminal (outcome_of np_take fit scouseobject (h a))) tasks →
  completes_in np_take fit n scouseobject
    (batch_store h (work_of np_take fit scouseobject h tasks) a) →
  completes_in np_take fit (S n) scouseobject (h a).
Proof.
  intros Hnd [Hretry Ha]%list_elem_of_filter Hn.
  destruct (pass_store np_take fit scouseobject h tasks Hnd) as [Hin _].
  rewrite (Hin a Ha) in Hn.
  destruct (outcome_of np_take fit scouseobject (h a)) as [m| |g] eqn:Hoc;
    [by destruct Hretry..|].
  simpl. rewrite Hoc. by exists g.
Qed.

Lemma retry_loop_round_order scouseobject fuel :
  ∀ h tasks completed h' out,
    NoDup tasks →
    retry_loop np_take fit fuel scouseobject h tasks completed = Ok (h', out) →
    ∃ later,
      out = completed ++ later ∧
      (∀ a, a ∈ later →
            ∃ n i, completes_in np_take fit n scouseobject (h a) ∧ tasks !! i = Some a) ∧
      (∀ i j a b, later !! i = Some a → later !! j = Some b → (i < j)%nat →
                  completes_before np_take fit scouseobject h tasks a b).
Proof.
  induction fuel as [|fuel IH]; intros h tasks completed h' out Hnd Hrun.
  { destruct tasks; [|done]. simpl in Hrun. injection Hrun as _ <-.
    exists []. rewrite app_nil_r. split_and!; [done| |]; [by intros a ?%elem_of_nil|done]. }
  destruct tasks as [|t ts].
  { simpl in Hrun. injection Hrun as _ <-.
    exists []. rewrite app_nil_r. split_and!; [done| |]; [by intros a ?%elem_of_nil|done]. }
  rewrite retry_loop_cons in Hrun.
  set (tasks := t :: ts) in *.
  set (F := filter (λ a, terminal (outcome_of np_take fit scouseobject (h a))) tasks) in *.
  set (P := filter (λ a, ¬ terminal (outcome_of np_take fit scouseobject (h a))) tasks) in *.
  destruct (IH _ _ _ _ _ (NoDup_filter _ _ Hnd) Hrun) as (later & -> & Hone & Htwo).
  exists (F ++ later). split; [by rewrite app_assoc|].
  assert (∀ a, a ∈ F → completes_in np_take fit 0 scouseobject (h a) ∧
                       ∃ i, tasks !! i = Some a) as Hfirst.
  { intros a [Hterm Ha]%list_elem_of_filter. split; [done|].
    by apply list_elem_of_lookup_1. }
  assert (∀ a, a ∈ later →
               ∃ n i, completes_in np_take fit (S n) scouseobject (h a) ∧
                      tasks !! i = Some a) as Hlater.
  { intros a Ha. destruct (Hone a Ha) as (n & i & Hn & Hi).
    apply list_elem_of_lookup_2 in Hi.
    pose proof Hi as [_ Hin]%list_elem_of_filter.
    apply list_elem_of_lookup_1 in Hin as [i' Hi'].
    exists n, i'. split; [|done]. by eapply completes_in_retry. }
  split.
  - intros a [Ha|Ha]%elem_of_app.
    + destruct (Hfirst a Ha) as [H0 [i Hi]]. by exists 0%nat, i.
    + destruct (Hlater a Ha) as (n & i & Hn & Hi). by exists (S n), i.
  - intros i j a b Hi Hj Hlt.
    destruct (decide (j < length F)%nat) as [HjF|HjF].
    + rewrite lookup_app_l in Hi, Hj by lia.
      destruct (filter_lookup_lt _ tasks i j a b Hi Hj Hlt) as (ia & ib & Hia & Hib & ?).
      destruct (Hfirst a (list_elem_of_lookup_2 _ _ _ Hi)) as [Ha0 _].
      destruct (Hfirst b (list_elem_of_lookup_2 _ _ _ Hj)) as [Hb0 _].
      exists 0%nat, 0%nat, ia, ib. split_and!; [done..|]. right. lia.
    + rewrite (lookup_app_r F) in Hj by lia.
      destruct (Hlater b (list_elem_of_lookup_2 _ _ _ Hj)) as (nb & ib & Hnb & Hib).
      destruct (decide (i < length F)%nat) as [HiF|HiF].
      * rewrite lookup_app_l in Hi by lia.
        destruct (Hfirst a (list_elem_of_lookup_2 _ _ _ Hi)) as [Ha0 [ia Hia]].
        exists 0%nat, (S nb), ia, ib. split_and!; [done..|]. left. lia.
      * rewrite (lookup_app_r F) in Hi by lia.
        destruct (Htwo _ _ a b Hi Hj) as (na' & nb' & ia' & ib' & Hna & Hnb' & Hia' & Hib' & Hord);
          [lia|].
        assert (completes_in np_take fit (S na') scouseobject (h a)) as Hna1.
        { eapply completes_in_retry; [done| |done]. by eapply list_elem_of_lookup_2. }
        assert (completes_in np_take fit (S nb') scouseobject (h b)) as Hnb1.
        { eapply completes_in_retry; [done| |done]. by eapply list_elem_of_lookup_2. }
        destruct Hord as [Hlt'|[-> Hpos]].
        -- destruct (Hlater a (list_elem_of_lookup_2 _ _ _ Hi)) as (_ & ia & _ & Hia).
           exists (S na'), (S nb'), ia, ib. split_and!; [done..|]. left. lia.
        -- destruct (filter_lookup_lt _ tasks ia' ib' a b Hia' Hib' Hpos)
             as (ia & ib0 & Hia & Hib0 & ?).
           exists (S nb'), (S nb'), ia, ib0. split_and!; [done..|]. right. lia.
Qed.

(** C10: whenever the loop returns, the completed list holds the tasks in the
    order of their completion: a task comes before another when it completes
    in an earlier pass, or in the same pass and stands before it in the list
    of tasks; so a task that completes only after one or more retries comes
    after every task that completed in an earlier pass, even if it was
    generated first.  The first candidate of a pixel index, which the
    compiler's rules select, is therefore the one that completed earliest,
    not the one that was generated first. *)
Theorem completed_in_round_order fuel scouseobject h tasks h' completed :
  NoDup tasks →
  autonomous_decomposition np_take fit fuel scouseobject h tasks = Ok (h', completed) →
  completed ≡ₚ tasks ∧
  (∀ i j a b, completed !! i = Some a → completed !! j = Some b → (i < j)%nat →
              completes_before np_take fit scouseobject h tasks a b) ∧
  (∀ g p first c,
     head (candidates g completed p) = Some first →
     c ∈ candidates g completed p → c ≠ first →
     completes_before np_take fit scouseobject h tasks first c).
Proof.
  unfold autonomous_decomposition. intros Hnd Hrun.
  destruct (retry_loop_extends _ _ _ _ _ _ _ _ _ Hrun) as (later0 & Hout0 & Hperm).
  destruct (retry_loop_round_order _ _ _ _ _ _ _ Hnd Hrun) as (later & Hout & _ & Hord).
  simpl in Hout0, Hout. subst later0 later.
  split_and!; [done|done|].
  intros g p first c Hhead Hc Hne. unfold candidates in *.
  destruct (head_filter_lt _ _ _ _ Hhead Hc Hne) as (i & j & Hi & Hj & Hlt).
  destruct (filter_lookup_lt _ _ _ _ _ _ Hi Hj Hlt) as (i' & j' & Hi' & Hj' & Hlt').
  by eapply Hord.
Qed.

End CompletionOrderProperties.

(** ** A small run *)

Lemma demo_generated :
  initialise_fitting demo_rms demo_scouse demo_blank 0%nat = Ok (demo_store, 4%nat, demo_tasks).
Proof. reflexivity. Qed.

Lemma demo_run :
  autonomous_decomposition demo_take demo_fit 2 demo_scouse demo_store demo_tasks
  = Ok (demo_final, [2; 3; 0; 1]%nat).
Proof. reflexivity. Qed.

(** Tasks 1 and 2 are the candidates of pixel 1, generated in this order, and
    both converge to AIC 3.00; task 2 completed first, and it is the one the
    compiler retains. *)
Lemma demo_compiled :
  ∃ h' d, compile_spectra demo_final [2; 3; 0; 1]%nat = Ok (h', d) ∧
          d !! 1 = Some 2%nat ∧
          saa_dict_index (h' 2%nat) = PyList [PyInt 1].
Proof. eexists _, _. split; [reflexivity|]. split; reflexivity. Qed.

(** C9 (as stated) fails: tasks 0 and 1 stay pending after the first pass, and
    their next fit receives no template. *)
Lemma retry_loses_template :
  ¬ retry_carries_template demo_take demo_fit demo_scouse demo_store demo_tasks.
Proof.
  intros Hclaim.
  specialize (Hclaim _ _ _ (iteration_spec demo_take demo_fit demo_scouse demo_store
                              demo_tasks []) 0%nat).
  assert (0%nat ∈ filter (λ a, ¬ terminal (outcome_of demo_take demo_fit demo_scouse
                                             (demo_store a))) demo_tasks) as Hin.
  { apply list_elem_of_filter. split; [|left]. vm_compute. tauto. }
  specialize (Hclaim Hin). vm_compute in Hclaim. discriminate Hclaim.
Qed.

Lemma iteration_classifies_witness :
  ∃ h' pending finished,
    iteration demo_take demo_fit demo_scouse demo_store demo_tasks []
      = Ok (h', pending, [] ++ finished) ∧
    ∀ a, a ∈ demo_tasks →
      template (h' a) = None ∧
      scheduler_writes (demo_store a) (h' a) ∧
      match decomposition_method demo_take demo_fit
              (make_input demo_scouse (demo_store a)) with
      | (Some model, _) =>
          a ∈ finished ∧ (a ∉ pending) ∧
          model_from_parent (h' a) = PyModel model ∧
          guesses_updated (h' a) = guesses_updated (demo_store a)
      | (None, []) =>
          a ∈ finished ∧ (a ∉ pending) ∧
          model_from_parent (h' a) = model_from_parent (demo_store a) ∧
          guesses_updated (h' a) = guesses_updated (demo_store a)
      | (None, g :: rest) =>
          a ∈ pending ∧ (a ∉ finished) ∧
          model_from_parent (h' a) = model_from_parent (demo_store a) ∧
          guesses_updated (h' a) = Some (g :: rest)
      end.
Proof.
  apply (iteration_classifies demo_take demo_fit demo_scouse demo_store demo_tasks []).
  unfold demo_tasks. repeat (apply NoDup_cons_2; [set_solver by lia|]). apply NoDup_nil_2.
Defined.







Lemma completed_in_round_order_witness :
  [2; 3; 0; 1]%nat ≡ₚ demo_tasks ∧
  (∀ i j a b, [2; 3; 0; 1]%nat !! i = Some a → [2; 3; 0; 1]%nat !! j = Some b →
              (i < j)%nat →
              completes_before demo_take demo_fit demo_scouse demo_store demo_tasks a b) ∧
  (∀ g p first c,
     head (candidates g [2; 3; 0; 1]%nat p) = Some first →
     c ∈ candidates g [2; 3; 0; 1]%nat p → c ≠ first →
     completes_before demo_take demo_fit demo_scouse demo_store demo_tasks first c).
Proof.
  apply (completed_in_round_order demo_take demo_fit 2 demo_scouse demo_store
           demo_tasks demo_final).
  - unfold demo_tasks. repeat (apply NoDup_cons_2; [set_solver by lia|]). apply NoDup_nil_2.
  - reflexivity.
Defined.

Lemma completed_is_permutation_witness :
  [2; 3; 0; 1]%nat ≡ₚ demo_tasks ∧ (NoDup demo_tasks → NoDup [2; 3; 0; 1]%nat).
Proof.
  apply (completed_is_permutation demo_take demo_fit 2 demo_scouse demo_store
           demo_tasks demo_final).
  reflexivity.
Defined.


Lemma template_reaches_first_fit_only_witness :
  NoDup demo_tasks ∧
  (∀ a, a ∈ demo_tasks →
        template (demo_store a) = Some (gen_template demo_scouse) ∧
        dec_psktemplate
          (call_decomposer (fit_call_of demo_take (make_input demo_scouse (demo_store a))))
        = Some (gen_template demo_scouse)) ∧
  (∀ h batch completed h' pending completed',
     NoDup batch →
     iteration demo_take demo_fit demo_scouse h batch completed
       = Ok (h', pending, completed') →
     (∀ a, a ∈ batch → template (h' a) = None) ∧
     (∀ a, a ∈ pending →
           dec_psktemplate
             (call_decomposer (fit_call_of demo_take (make_input demo_scouse (h' a))))
           = None)).
Proof.
  apply (template_reaches_first_fit_only demo_take demo_fit demo_rms demo_scouse
           demo_blank 0%nat demo_store 4%nat demo_tasks).
  reflexivity.
Defined.

(** The positions [np.unique] returns count the candidates with a model only,
    and they are used on the list of all candidates: here position 0 selects
    the candidate without a model, and the only model is dropped. *)
Lemma null_candidate_shadows_model :
  ∃ h' d, compile_spectra null_then_model [0; 1]%nat = Ok (h', d) ∧
          d !! 7 = Some 0%nat ∧
          model_from_parent (h' 0%nat) = PyList [PyNone].
Proof. eexists _, _. split; [reflexivity|]. split; reflexivity. Qed.

(** With it the loop has no pass after which it returns, whatever the fuel. *)
Lemma stalled_fit_never_returns fuel scouseobject h a :
  autonomous_decomposition demo_take stalled_fit fuel scouseobject h [a] = OutOfFuel.
Proof.
  unfold autonomous_decomposition.
  assert (∀ h completed,
            retry_loop demo_take stalled_fit fuel scouseobject h [a] completed
            = OutOfFuel) as Hstall; [|apply Hstall].
  induction fuel as [|fuel IH]; intros h' completed; [done|].
  rewrite retry_loop_cons.
  rewrite filter_cons_True by (intros Ht; exact Ht). apply IH.
Qed.

(** * Properties, continued *)

(** ** The task generator *)

Lemma ravel_in_plane shape yx :
  in_plane shape yx → ravel_multi_index yx shape = Ok (flat_index shape yx).
Proof.
  destruct shape as [[nz ny] nx]. unfold in_plane, ravel_multi_index, flat_index. simpl.
  intros H. by rewrite decide_True.
Qed.

Lemma ravel_not_in_plane shape yx :
  ¬ in_plane shape yx → ravel_multi_index yx shape = Raise ValueError.
Proof.
  destruct shape as [[nz ny] nx]. unfold in_plane, ravel_multi_index. simpl.
  intros H. by rewrite decide_False.
Qed.

Lemma mapM_res_cons {A B} (f : A → res B) x l :
  mapM f (x :: l) = (y ← f x; k ← mapM f l; Ok (y :: k)).
Proof. reflexivity. Qed.

Lemma mapM_ravel shape (pixels : list (Z * Z)) :
  (Forall (in_plane shape) pixels ∧
   mapM (λ yx, ravel_multi_index yx shape) pixels = Ok (flat_index shape <$> pixels)) ∨
  (¬ Forall (in_plane shape) pixels ∧
   mapM (λ yx, ravel_multi_index yx shape) pixels = Raise ValueError).
Proof.
  induction pixels as [|yx pixels IH]; [left; by split|].
  destruct (decide (in_plane shape yx)) as [Hin|Hout].
  - destruct IH as [[Hall Heq]|[Hnot Heq]].
    + left. split; [by constructor|].
      rewrite mapM_res_cons, (ravel_in_plane _ _ Hin), bind_Ok, Heq. reflexivity.
    + right. split; [by intros [_ ?]%Forall_cons|].
      rewrite mapM_res_cons, (ravel_in_plane _ _ Hin), bind_Ok, Heq. reflexivity.
  - right. split; [by intros [? _]%Forall_cons|].
    rewrite mapM_res_cons, (ravel_not_in_plane _ _ Hout). reflexivity.
Qed.

Lemma flat_index_bounds shape yx :
  in_plane shape yx → 0 <= flat_index shape yx < shape.1.2 * shape.2.
Proof. unfold in_plane, flat_index. nia. Qed.

Lemma flat_index_inj shape yx yx' :
  in_plane shape yx → in_plane shape yx' →
  flat_index shape yx = flat_index shape yx' → yx = yx'.
Proof.
  destruct yx as [y x], yx' as [y' x']. unfold in_plane, flat_index. simpl.
  intros [Hy Hx] [Hy' Hx'] Heq.
  assert (y = y') as -> by nia. f_equal. lia.
Qed.

Lemma indices_flat_cases SAA :
  (∃ indices, saa_indices SAA = Some indices ∧ indices ≠ [] ∧
              Forall (in_plane (saa_cube_shape SAA)) indices ∧
              indices_flat SAA = Ok (flat_index (saa_cube_shape SAA) <$> indices)) ∨
  (¬ pixels_in_plane SAA ∧ saa_indices SAA = None ∧
   indices_flat SAA = Raise AttributeError) ∨
  (¬ pixels_in_plane SAA ∧ is_Some (saa_indices SAA) ∧
   indices_flat SAA = Raise ValueError).
Proof.
  unfold indices_flat, pixels_in_plane.
  destruct (saa_indices SAA) as [[|yx indices]|] eqn:Hids.
  - right. right. split_and!; [|by eexists|done].
    intros (indices & [= <-] & Hne & _). done.
  - destruct (mapM_ravel (saa_cube_shape SAA) (yx :: indices)) as [[Hall Heq]|[Hnot Heq]].
    + left. exists (yx :: indices). by split_and!.
    + right. right. split_and!; [|by eexists|done].
      intros (indices' & [= <-] & _ & Hall). done.
  - right. left. split_and!; [|done..]. intros (indices & Hsome & _). discriminate Hsome.
Qed.

(** X1: [indices_flat] returns exactly when the ids of the area were added,
    there is one at least and every one is a pixel of the plane of the cube;
    the flat indices it returns are the row-major positions of the pixels, in
    order, each within the plane, and distinct pixels get distinct flat
    indices.  It raises an [AttributeError] when the ids were never added, and
    a [ValueError] when there is no id or one of them lies outside the
    plane. *)
Theorem indices_flat_spec (SAA : saa) :
  match indices_flat SAA with
  | Ok flat =>
      ∃ indices,
        saa_indices SAA = Some indices ∧ indices ≠ [] ∧
        Forall (in_plane (saa_cube_shape SAA)) indices ∧
        flat = flat_index (saa_cube_shape SAA) <$> indices ∧
        Forall (λ f, 0 <= f < (saa_cube_shape SAA).1.2 * (saa_cube_shape SAA).2) flat ∧
        (NoDup indices ↔ NoDup flat)
  | Raise e =>
      (e = AttributeError ∧ saa_indices SAA = None) ∨
      (e = ValueError ∧
       ∃ indices, saa_indices SAA = Some indices ∧
                  (indices = [] ∨ ¬ Forall (in_plane (saa_cube_shape SAA)) indices))
  | OutOfFuel => False
  end.
Proof.
  destruct (indices_flat_cases SAA)
    as [(indices & Hids & Hne & Hall & ->)|[(_ & Hnone & ->)|(Hnot & [indices Hids] & ->)]].
  - exists indices. split_and!; [done..| |].
    + apply Forall_fmap. eapply Forall_impl; [exact Hall|].
      intros yx Hin. by apply flat_index_bounds.
    + split.
      * intros Hnd. apply NoDup_fmap_2_strong; [|done].
        rewrite Forall_forall in Hall.
        intros yx yx' Hyx Hyx'. apply flat_index_inj; auto.
      * apply NoDup_fmap_1.
  - by left.
  - right. split; [done|]. exists indices. split; [done|].
    destruct (decide (indices = [])) as [|Hne]; [by left|right].
    intros Hall. apply Hnot. by exists indices.
Qed.

Lemma allocates_refl st : allocates st st [].
Proof.
  unfold allocates. simpl. split_and!; [lia|by rewrite app_nil_r|done|done].
Qed.

Lemma allocates_trans st st' st'' objs objs' :
  allocates st st' objs → allocates st' st'' objs' → allocates st st'' (objs ++ objs').
Proof.
  destruct st as [[h n] l], st' as [[h' n'] l'], st'' as [[h'' n''] l''].
  unfold allocates. simpl. intros (-> & -> & Hobjs & Hframe) (-> & -> & Hobjs' & Hframe').
  rewrite length_app, seq_app, fmap_app. split_and!.
  - lia.
  - by rewrite app_assoc.
  - rewrite Hobjs'. f_equal. etrans; [|exact Hobjs].
    apply list_fmap_ext. intros k b Hb. apply Hframe'. left.
    apply lookup_seq in Hb. lia.
  - intros b Hb. rewrite Hframe' by lia. apply Hframe. lia.
Qed.

Lemma allocates_one (h : heap) (next : loc) (l : list loc) o :
  allocates (h, next, l) (<[next := o]> h, S next, l ++ [next]) [o].
Proof.
  unfold allocates. simpl. split_and!; [lia|done| |].
  - by rewrite fn_lookup_insert.
  - intros b Hb. rewrite fn_lookup_insert_ne by lia. done.
Qed.

Section TaskGenerator.

Context (get_rms : list Q → Q).

Lemma spectra_of_pixels_allocates scouseobject i SAA (pixels : list (Z * Z)) :
  ∀ st,
    allocates st
      (spectra_of_pixels get_rms scouseobject (gen_template scouseobject) i SAA st
         (zip pixels (flat_index (saa_cube_shape SAA) <$> pixels)))
      (task_of_pixel get_rms scouseobject i SAA <$> pixels).
Proof.
  induction pixels as [|yx pixels IH]; intros [[h next] l].
  - apply allocates_refl.
  - change (task_of_pixel get_rms scouseobject i SAA <$> yx :: pixels)
      with ([task_of_pixel get_rms scouseobject i SAA yx]
            ++ (task_of_pixel get_rms scouseobject i SAA <$> pixels)).
    eapply allocates_trans; [|apply IH]. apply allocates_one.
Qed.

Lemma spectra_of_saas_cases scouseobject i items :
  ∀ st,
    match spectra_of_saas get_rms scouseobject (gen_template scouseobject) i items st with
    | Ok st' => saas_in_plane items ∧
                allocates st st' (tasks_of_dict get_rms scouseobject i items)
    | Raise e => (e = ValueError ∨ e = AttributeError) ∧ ¬ saas_in_plane items
    | OutOfFuel => False
    end.
Proof.
  unfold saas_in_plane, tasks_of_dict.
  induction items as [|[j SAA] items IH]; intros st.
  - simpl. split; [constructor|apply allocates_refl].
  - simpl. unfold tasks_of_saa at 1. simpl. destruct (to_be_fit SAA) eqn:Hfit.
    + destruct (indices_flat_cases SAA)
        as [(indices & Hids & Hne & Hall & ->)|[(Hnot & _ & ->)|(Hnot & _ & ->)]].
      * rewrite bind_Ok, Hids. simpl.
        pose proof (spectra_of_pixels_allocates scouseobject i SAA indices st) as Hpix.
        specialize (IH (spectra_of_pixels get_rms scouseobject (gen_template scouseobject)
                          i SAA st
                          (zip indices (flat_index (saa_cube_shape SAA) <$> indices)))).
        destruct (spectra_of_saas _ _ _ _ _ _) as [st'|e|]; [|split|done].
        -- destruct IH as [Hitems Halloc]. split.
           ++ constructor; [|done]. intros _. by exists indices.
           ++ eapply allocates_trans; [exact Hpix|exact Halloc].
        -- apply IH.
        -- intros [_ Hitems]%Forall_cons. by apply IH.
      * split; [by right|]. intros [Hhead _]%Forall_cons. apply Hnot. by apply Hhead.
      * split; [by left|]. intros [Hhead _]%Forall_cons. apply Hnot. by apply Hhead.
    + specialize (IH st).
      destruct (spectra_of_saas _ _ _ _ _ _) as [st'|e|]; [|split|done].
      * destruct IH as [Hitems Halloc]. split; [|done].
        constructor; [|done]. simpl. congruence.
      * apply IH.
      * intros [_ Hitems]%Forall_cons. by apply IH.
Qed.

Lemma spectra_of_dicts_cases scouseobject ids :
  ∀ st,
    match spectra_of_dicts get_rms scouseobject (gen_template scouseobject) ids st with
    | Ok st' => fittable scouseobject ids ∧
                allocates st st' (tasks_of_dicts get_rms scouseobject ids)
    | Raise e => (e = KeyError ∨ e = ValueError ∨ e = AttributeError) ∧
                 ¬ fittable scouseobject ids
    | OutOfFuel => False
    end.
Proof.
  unfold fittable, tasks_of_dicts.
  induction ids as [|i ids IH]; intros st.
  - simpl. split; [constructor|apply allocates_refl].
  - simpl. destruct (saa_dict scouseobject !! i) as [items|] eqn:Hi.
    + pose proof (spectra_of_saas_cases scouseobject i items st) as Hsaas. simpl.
      destruct (spectra_of_saas _ _ _ _ _ _) as [st1|e|]; [|split|done].
      * rewrite bind_Ok. destruct Hsaas as [Hitems Halloc1]. specialize (IH st1).
        destruct (spectra_of_dicts _ _ _ _ _) as [st'|e|]; [|split|done].
        -- destruct IH as [Hids Halloc]. split.
           ++ constructor; [by exists items|done].
           ++ eapply allocates_trans; [exact Halloc1|exact Halloc].
        -- apply IH.
        -- intros [_ Hids]%Forall_cons. by apply IH.
      * right. tauto.
      * intros [(items' & Hlook & Hitems) _]%Forall_cons.
        apply Hsaas. congruence.
    + split; [by left|]. intros [(items & Hlook & _) _]%Forall_cons. congruence.
Qed.

(** X2: [initialise_fitting] makes one task for every pixel of every area
    that is to be fit, going through the dictionaries in the order of
    [range(len(wsaa))], the areas of a dictionary in its iteration order and
    the pixels of an area in their order; the task of a pixel has the pixel's
    flat index, its (column, row) coordinates and spectrum, the position of
    the dictionary, the index and the model parameters of the area, the
    shared template, and neither a model nor refined guesses. *)
Theorem initialise_fitting_tasks scouseobject h next h1 next1 tasks :
  initialise_fitting get_rms scouseobject h next = Ok (h1, next1, tasks) →
  h1 <$> tasks = tasks_of_dicts get_rms scouseobject (seq 0 (length (wsaa scouseobject))).
Proof.
  unfold initialise_fitting. intros Hinit.
  pose proof (spectra_of_dicts_cases scouseobject (seq 0 (length (wsaa scouseobject)))
                (h, next, [])) as Hcases.
  rewrite Hinit in Hcases. destruct Hcases as [_ (_ & Htasks & Hobjs & _)].
  simpl in *. by rewrite Htasks.
Qed.

(** X3: [initialise_fitting] never touches an object that exists already: the
    tasks it returns are new objects, at consecutive references from the first
    free one in the order of the list, and every other object of the store is
    as it was. *)
Theorem initialise_fitting_allocates scouseobject h next h1 next1 tasks :
  initialise_fitting get_rms scouseobject h next = Ok (h1, next1, tasks) →
  tasks = seq next (length tasks) ∧
  next1 = (next + length tasks)%nat ∧
  ∀ b, b ∉ tasks → h1 b = h b.
Proof.
  unfold initialise_fitting. intros Hinit.
  pose proof (spectra_of_dicts_cases scouseobject (seq 0 (length (wsaa scouseobject)))
                (h, next, [])) as Hcases.
  rewrite Hinit in Hcases. destruct Hcases as [_ (Hnext & Htasks & _ & Hframe)].
  simpl in *. subst tasks next1. rewrite length_seq. split_and!; [done..|].
  intros b Hb. apply Hframe. rewrite elem_of_seq in Hb. lia.
Qed.


Lemma elem_of_tasks_of_dicts scouseobject ids o :
  fittable scouseobject ids →
  o ∈ tasks_of_dicts get_rms scouseobject ids →
  ∃ i items item yx,
    saa_dict scouseobject !! i = Some items ∧ item ∈ items ∧
    in_plane (saa_cube_shape item.2) yx ∧
    o = task_of_pixel get_rms scouseobject i item.2 yx.
Proof.
  unfold fittable, tasks_of_dicts, tasks_of_dict, tasks_of_saa, saas_in_plane.
  rewrite Forall_forall.
  intros Hfit (i & Ho & Hi)%list_elem_of_bind.
  destruct (Hfit i Hi) as (items & Hlook & Hplane). rewrite Hlook in Ho. simpl in Ho.
  apply list_elem_of_bind in Ho as (item & Ho & Hitem).
  rewrite Forall_forall in Hplane. specialize (Hplane item Hitem).
  destruct (to_be_fit item.2); [|by apply elem_of_nil in Ho].
  destruct (Hplane eq_refl) as (indices & Hids & _ & Hall).
  rewrite Hids in Ho. simpl in Ho.
  apply list_elem_of_fmap in Ho as (yx & -> & Hyx).
  exists i, items, item, yx. split_and!; [done..| |done].
  rewrite Forall_forall in Hall. by apply Hall.
Qed.

(** X5: when every area holds the shape of the same cube, as [saa.__init__]
    sets it, the tasks that [initialise_fitting] makes for one pixel index,
    from whichever areas, all carry the same coordinates, the same spectrum
    and the same noise: the pixel index of a task determines its pixel. *)
Theorem same_index_same_pixel scouseobject shape h next h1 next1 tasks a b :
  (∀ i items item, saa_dict scouseobject !! i = Some items → item ∈ items →
                   saa_cube_shape item.2 = shape) →
  initialise_fitting get_rms scouseobject h next = Ok (h1, next1, tasks) →
  a ∈ tasks → b ∈ tasks →
  index (h1 a) = index (h1 b) →
  coordinates (h1 a) = coordinates (h1 b) ∧
  spectrum (h1 a) = spectrum (h1 b) ∧
  rms (h1 a) = rms (h1 b).
Proof.
  intros Hshape Hinit Ha Hb Hindex. unfold initialise_fitting in Hinit.
  pose proof (spectra_of_dicts_cases scouseobject (seq 0 (length (wsaa scouseobject)))
                (h, next, [])) as Hcases.
  rewrite Hinit in Hcases. destruct Hcases as [Hfit (_ & Htasks & Hobjs & _)].
  simpl in Htasks, Hobjs. rewrite <- Htasks in Hobjs.
  assert (∀ c, c ∈ tasks →
               ∃ i SAA yx, in_plane shape yx ∧ saa_cube_shape SAA = shape ∧
                           h1 c = task_of_pixel get_rms scouseobject i SAA yx) as Hpixel.
  { intros c Hc.
    destruct (elem_of_tasks_of_dicts scouseobject _ (h1 c) Hfit)
      as (i & items & item & yx & Hlook & Hitem & Hplane & Heq).
    { rewrite <- Hobjs. apply list_elem_of_fmap. by exists c. }
    exists i, item.2, yx. rewrite <- (Hshape _ _ _ Hlook Hitem). done. }
  destruct (Hpixel a Ha) as (i & SAA & yx & Hyx & Hs & Heq).
  destruct (Hpixel b Hb) as (i' & SAA' & yx' & Hyx' & Hs' & Heq').
  rewrite Heq, Heq' in Hindex |- *. simpl in *. rewrite Hs, Hs' in Hindex.
  by rewrite (flat_index_inj _ _ _ Hyx Hyx' Hindex).
Qed.

End TaskGenerator.

(** ** What the scheduler writes *)

Lemma scheduler_writes_refl o : scheduler_writes o o.
Proof. unfold scheduler_writes. tauto. Qed.

Lemma scheduler_writes_trans o1 o2 o3 :
  scheduler_writes o1 o2 → scheduler_writes o2 o3 → scheduler_writes o1 o3.
Proof. unfold scheduler_writes. intuition congruence. Qed.

Lemma scheduler_writes_settle oc o : scheduler_writes o (settle oc o).
Proof. unfold scheduler_writes. destruct oc; simpl; tauto. Qed.

Lemma classify_retry r g : classify r = RETRY g → r = (None, g) ∧ g ≠ [].
Proof.
  destruct r as [[m|] g']; simpl; [done|].
  destruct (decide (length g' = 0%nat)) as [|Hne]; [done|].
  intros [= ->]. split; [done|]. by intros ->.
Qed.

(** A relation between the attributes of an object before and after that is
    reflexive, transitive and holds across the processing of one result holds
    across one batch. *)
Lemma batch_store_pointwise (R : individual_spectrum → individual_spectrum → Prop) :
  (∀ o, R o o) → (∀ o1 o2 o3, R o1 o2 → R o2 o3 → R o1 o3) →
  (∀ o r, R o (settle (classify r) o)) →
  ∀ work h b, R (h b) (batch_store h work b).
Proof.
  intros Hrefl Htrans Hsettle work.
  induction work as [|[a r] work IH]; intros h b; [apply Hrefl|].
  unfold batch_store in *. simpl. eapply Htrans; [|apply IH].
  destruct (decide (a = b)) as [->|Hne].
  - rewrite settle_store_eq. apply Hsettle.
  - rewrite settle_store_ne by done. apply Hrefl.
Qed.

Lemma batch_store_template work :
  ∀ h a, a ∈ work.*1 → template (batch_store h work a) = None.
Proof.
  induction work as [|[a' r] work IH]; intros h a Ha; [by apply elem_of_nil in Ha|].
  unfold batch_store in *. simpl.
  destruct (decide (a ∈ work.*1)) as [Hin|Hnotin]; [by apply IH|].
  simpl in Ha. apply elem_of_cons in Ha as [->|Ha]; [|done].
  pose proof (batch_store_pointwise scheduler_writes scheduler_writes_refl
                scheduler_writes_trans (λ o r, scheduler_writes_settle (classify r) o)
                work (settle_store h a' (classify r)) a') as Hw.
  apply Hw. rewrite settle_store_eq. by destruct (classify r).
Qed.

Section SchedulerWrites.

Context (np_take : list Q → list nat → list Q).
Context (fit : fit_call → fit_outcome).

Lemma retry_loop_pointwise (R : individual_spectrum → individual_spectrum → Prop)
    scouseobject :
  (∀ o, R o o) → (∀ o1 o2 o3, R o1 o2 → R o2 o3 → R o1 o3) →
  (∀ o r, R o (settle (classify r) o)) →
  ∀ fuel h tasks completed h' out,
    retry_loop np_take fit fuel scouseobject h tasks completed = Ok (h', out) →
    ∀ b, R (h b) (h' b).
Proof.
  intros Hrefl Htrans Hsettle fuel.
  induction fuel as [|fuel IH]; intros h tasks completed h' out Hrun b.
  - destruct tasks; [|done]. simpl in Hrun. injection Hrun as <- _. apply Hrefl.
  - destruct tasks as [|a tasks].
    { simpl in Hrun. injection Hrun as <- _. apply Hrefl. }
    rewrite retry_loop_cons in Hrun. eapply Htrans; [|exact (IH _ _ _ _ _ Hrun b)].
    by apply batch_store_pointwise.
Qed.

Lemma retry_loop_frame scouseobject fuel :
  ∀ h tasks completed h' out,
    retry_loop np_take fit fuel scouseobject h tasks completed = Ok (h', out) →
    ∀ b, b ∉ tasks → h' b = h b.
Proof.
  induction fuel as [|fuel IH]; intros h tasks completed h' out Hrun b Hb.
  - destruct tasks; [|done]. simpl in Hrun. by injection Hrun as <- _.
  - destruct tasks as [|a tasks].
    { simpl in Hrun. by injection Hrun as <- _. }
    rewrite retry_loop_cons in Hrun.
    rewrite (IH _ _ _ _ _ Hrun b).
    + unfold work_of.
      by apply (batch_store_notin (λ a, result_of np_take fit scouseobject (h a))).
    + intros [_ Hin]%list_elem_of_filter. by apply Hb.
Qed.

Lemma retry_loop_template scouseobject fuel :
  ∀ h tasks completed h' out,
    retry_loop np_take fit fuel scouseobject h tasks completed = Ok (h', out) →
    ∀ a, a ∈ tasks → template (h' a) = None.
Proof.
  induction fuel as [|fuel IH]; intros h tasks completed h' out Hrun a Ha.
  - destruct tasks; [by apply elem_of_nil in Ha|done].
  - destruct tasks as [|a' tasks]; [by apply elem_of_nil in Ha|].
    rewrite retry_loop_cons in Hrun.
    pose proof (retry_loop_pointwise scheduler_writes scouseobject scheduler_writes_refl
                  scheduler_writes_trans (λ o r, scheduler_writes_settle (classify r) o)
                  _ _ _ _ _ _ Hrun a) as Hw.
    apply Hw. apply batch_store_template.
    unfold work_of. rewrite <- list_fmap_compose.
    apply list_elem_of_fmap. by exists a.
Qed.

(** X6: the loop of [autonomous_decomposition] raises no exception of its own:
    every result is paired with the task at its position, which is still in
    the list when its result is processed, so that neither the indexing of
    the list nor a [setattr] on a removed entry can fail.  The loop returns,
    or it runs for ever. *)
Theorem autonomous_decomposition_never_raises fuel scouseobject h tasks :
  (∃ h' completed,
     autonomous_decomposition np_take fit fuel scouseobject h tasks = Ok (h', completed)) ∨
  autonomous_decomposition np_take fit fuel scouseobject h tasks = OutOfFuel.
Proof.
  unfold autonomous_decomposition. generalize (@nil loc) as completed.
  revert h tasks. induction fuel as [|fuel IH]; intros h tasks completed.
  - destruct tasks; [left; by eexists _, _|by right].
  - destruct tasks as [|a tasks]; [left; by eexists _, _|].
    rewrite retry_loop_cons. apply IH.
Qed.

(** X7: whenever the loop returns, the only attributes it has written are the
    template, the refined guesses and the model of the tasks it was given:
    every object keeps its pixel index, coordinates, spectrum, noise, region
    pointers and parent guesses, an object that is not in the list is
    unchanged, and no task of the list holds the template any more. *)
Theorem autonomous_decomposition_writes fuel scouseobject h tasks h' completed :
  autonomous_decomposition np_take fit fuel scouseobject h tasks = Ok (h', completed) →
  (∀ b, scheduler_writes (h b) (h' b)) ∧
  (∀ b, b ∉ tasks → h' b = h b) ∧
  (∀ a, a ∈ tasks → template (h' a) = None).
Proof.
  unfold autonomous_decomposition. intros Hrun. split_and!.
  - eapply retry_loop_pointwise; [apply scheduler_writes_refl|apply scheduler_writes_trans
                                  | |exact Hrun].
    intros o r. apply scheduler_writes_settle.
  - by eapply retry_loop_frame.
  - by eapply retry_loop_template.
Qed.

(** X8: the loop never stores an empty set of refined guesses: an object
    whose refined guesses are unset or not empty before the loop has them
    unset or not empty after it.  A fit that returns no model and no guess
    completes the task without storing the empty set. *)
Theorem refined_guesses_stay_nonempty fuel scouseobject h tasks h' completed :
  autonomous_decomposition np_take fit fuel scouseobject h tasks = Ok (h', completed) →
  ∀ b, refined_guesses_nonempty (h b) → refined_guesses_nonempty (h' b).
Proof.
  unfold autonomous_decomposition. intros Hrun b.
  eapply (retry_loop_pointwise
            (λ o o', refined_guesses_nonempty o → refined_guesses_nonempty o'));
    [by auto|by auto| |exact Hrun].
  intros o r. unfold refined_guesses_nonempty.
  destruct (classify r) as [m| |g] eqn:Hc; simpl; [done|done|].
  apply classify_retry in Hc as [_ Hg]. intros _ [= ->]. done.
Qed.

Lemma retry_loop_plain_model fuel scouseobject h tasks completed h' out :
  retry_loop np_take fit fuel scouseobject h tasks completed = Ok (h', out) →
  ∀ b, plain_model (h b) → plain_model (h' b).
Proof.
  intros Hrun b.
  eapply (retry_loop_pointwise (λ o o', plain_model o → plain_model o'));
    [by auto|by auto| |exact Hrun].
  intros o r. unfold plain_model. destruct (classify r); simpl; [|done|done].
  intros _. right. by eexists.
Qed.

Lemma fit_call_after_single_guess scouseobject o g :
  template o = None → (np_size_opt (guesses_updated o) ≤ 1)%nat →
  fit_call_of np_take (make_input scouseobject (settle (RETRY [g]) o))
  = fit_call_of np_take (make_input scouseobject o).
Proof.
  intros Htpl Hsize. unfold fit_call_of. simpl.
  rewrite Htpl. by rewrite decide_True by done.
Qed.

(** X9: a refined guess set of size one is stored on the task but not used:
    the task stays pending, and its next fit starts from the parent's guesses
    again. *)
Theorem single_refined_guess_is_not_used scouseobject h tasks completed a g :
  NoDup tasks → a ∈ tasks →
  decomposition_method np_take fit (make_input scouseobject (h a)) = (None, [g]) →
  ∃ h' pending completed',
    iteration np_take fit scouseobject h tasks completed = Ok (h', pending, completed') ∧
    a ∈ pending ∧
    guesses_updated (h' a) = Some [g] ∧
    call_guesses (fit_call_of np_take (make_input scouseobject (h' a)))
    = guesses_from_parent (h a).
Proof.
  intros Hnd Ha Hres. eexists _, _, _. split; [apply iteration_spec|].
  assert (outcome_of np_take fit scouseobject (h a) = RETRY [g]) as Hoc.
  { unfold outcome_of, result_of. by rewrite Hres. }
  destruct (pass_store np_take fit scouseobject h tasks Hnd) as [Hin _].
  rewrite (Hin a Ha), Hoc. split_and!.
  - apply list_elem_of_filter. split; [|done]. rewrite Hoc. simpl. tauto.
  - done.
  - reflexivity.
Qed.

(** X10: a task that has no template left and at most one refined guess, and
    whose fit returns no model and exactly one refined guess, is fitted with
    the same arguments in every later pass; the fit being a function of its
    arguments, the loop never returns, whatever the number of passes. *)
Theorem single_refined_guess_never_ends scouseobject fuel h tasks a g :
  NoDup tasks → a ∈ tasks →
  template (h a) = None →
  (np_size_opt (guesses_updated (h a)) ≤ 1)%nat →
  decomposition_method np_take fit (make_input scouseobject (h a)) = (None, [g]) →
  autonomous_decomposition np_take fit fuel scouseobject h tasks = OutOfFuel.
Proof.
  unfold autonomous_decomposition. generalize (@nil loc) as completed.
  revert h tasks.
  induction fuel as [|fuel IH]; intros h tasks completed Hnd Ha Htpl Hsize Hres.
  - destruct tasks; [by apply elem_of_nil in Ha|done].
  - destruct tasks as [|a' tasks]; [by apply elem_of_nil in Ha|].
    rewrite retry_loop_cons.
    assert (outcome_of np_take fit scouseobject (h a) = RETRY [g]) as Hoc.
    { unfold outcome_of, result_of. by rewrite Hres. }
    destruct (pass_store np_take fit scouseobject h (a' :: tasks) Hnd) as [Hin _].
    apply IH.
    + by apply NoDup_filter.
    + apply list_elem_of_filter. split; [|done]. rewrite Hoc. simpl. tauto.
    + rewrite (Hin a Ha), Hoc. done.
    + rewrite (Hin a Ha), Hoc. simpl. lia.
    + rewrite (Hin a Ha), Hoc. unfold decomposition_method in *.
      by rewrite (fit_call_after_single_guess _ _ _ Htpl Hsize).
Qed.

End SchedulerWrites.

(** ** Tasks are fitted independently *)

Section IndependentTasks.

Context (np_take : list Q → list nat → list Q).
Context (fit : fit_call → fit_outcome).

Lemma ends_deterministic scouseobject o oc1 o1 :
  ends np_take fit scouseobject o oc1 o1 →
  ∀ oc2 o2, ends np_take fit scouseobject o oc2 o2 → oc1 = oc2 ∧ o1 = o2.
Proof.
  induction 1 as [o Hterm|o g oc o' Hretry _ IH]; intros oc2 o2 Hends.
  - inversion Hends as [o0 Hterm2|o0 g oc0 o0' Hretry Hrest]; subst; [done|].
    rewrite Hretry in Hterm. destruct Hterm.
  - inversion Hends as [o0 Hterm2|o0 g2 oc0 o0' Hretry2 Hrest]; subst.
    + rewrite Hretry in Hterm2. destruct Hterm2.
    + rewrite Hretry in Hretry2. injection Hretry2 as <-. by apply IH.
Qed.

(** Whenever the loop returns, every task is left where its own retry chain
    ends. *)
Lemma retry_loop_ends scouseobject fuel :
  ∀ h tasks completed h' out,
    NoDup tasks →
    retry_loop np_take fit fuel scouseobject h tasks completed = Ok (h', out) →
    ∀ a, a ∈ tasks → ∃ oc, ends np_take fit scouseobject (h a) oc (h' a).
Proof.
  induction fuel as [|fuel IH]; intros h tasks completed h' out Hnd Hrun a Ha.
  - destruct tasks; [by apply elem_of_nil in Ha|done].
  - destruct tasks as [|a0 tasks]; [by apply elem_of_nil in Ha|].
    rewrite retry_loop_cons in Hrun.
    destruct (pass_store np_take fit scouseobject h (a0 :: tasks) Hnd) as [Hin _].
    specialize (Hin a Ha).
    destruct (decide (terminal (outcome_of np_take fit scouseobject (h a))))
      as [Hterm|Hretry].
    + exists (outcome_of np_take fit scouseobject (h a)).
      rewrite (retry_loop_frame _ _ _ _ _ _ _ _ _ Hrun a).
      * rewrite Hin. by apply ends_now.
      * intros [Hnot _]%list_elem_of_filter. by apply Hnot.
    + destruct (IH _ _ _ _ _ (NoDup_filter _ _ Hnd) Hrun a) as [oc Hends].
      { by apply list_elem_of_filter. }
      exists oc. rewrite Hin in Hends.
      destruct (outcome_of np_take fit scouseobject (h a)) as [m| |g] eqn:Hoc;
        [by destruct Hretry..|].
      by eapply ends_later.
Qed.

(** X11: the attributes the loop leaves on a task depend on that task alone,
    the fit being a function of its arguments: two runs of the loop, on any
    two lists of distinct tasks that hold the task and from any two stores
    that agree on it, leave it with the same attributes, whenever both
    return. *)
Theorem task_result_is_independent scouseobject fuel1 fuel2 h1 h2 tasks1 tasks2
    h1' h2' completed1 completed2 a :
  NoDup tasks1 → NoDup tasks2 → a ∈ tasks1 → a ∈ tasks2 → h1 a = h2 a →
  autonomous_decomposition np_take fit fuel1 scouseobject h1 tasks1 = Ok (h1', completed1) →
  autonomous_decomposition np_take fit fuel2 scouseobject h2 tasks2 = Ok (h2', completed2) →
  h1' a = h2' a.
Proof.
  unfold autonomous_decomposition. intros Hnd1 Hnd2 Ha1 Ha2 Hsame Hrun1 Hrun2.
  destruct (retry_loop_ends _ _ _ _ _ _ _ Hnd1 Hrun1 a Ha1) as [oc1 Hends1].
  destruct (retry_loop_ends _ _ _ _ _ _ _ Hnd2 Hrun2 a Ha2) as [oc2 Hends2].
  rewrite Hsame in Hends1.
  by destruct (ends_deterministic _ _ _ _ Hends1 _ _ Hends2).
Qed.

End IndependentTasks.

(** ** What the compiler writes *)

Lemma aic_entry_not_fresh h a : ¬ fresh h a → aic_entry (h a) = Raise AttributeError.
Proof.
  unfold fresh, no_model, has_model, aic_entry.
  destruct (model_from_parent (h a)); intros Hn; [|done| |done].
  - exfalso. apply Hn. by left.
  - exfalso. apply Hn. right. by eexists.
Qed.

Lemma aic_entries_not_fresh h cands :
  ¬ Forall (fresh h) cands → mapM (λ a, aic_entry (h a)) cands = Raise AttributeError.
Proof.
  induction cands as [|a cands IH]; intros Hn; [by destruct Hn|].
  rewrite mapM_res_cons.
  destruct (decide (fresh h a)) as [Ha|Ha].
  - rewrite (aic_entry_fresh _ _ Ha), bind_Ok, IH; [done|].
    intros Hall. apply Hn. by constructor.
  - by rewrite (aic_entry_not_fresh _ _ Ha).
Qed.

Lemma drop_nan_rounded h (cands : list loc) :
  drop_nan (rounded_aic h <$> cands) = omap (rounded_aic h) cands.
Proof.
  unfold drop_nan. induction cands as [|a cands IH]; [done|].
  csimpl. rewrite IH. by destruct (rounded_aic h a).
Qed.

Lemma wrap_single_provenance h a :
  wrap_single h a = <[a := provenance_obj h [a] (h a)]> h.
Proof. reflexivity. Qed.

(** The two branches that take the first candidate. *)
Lemma compile_group_first h c0 rest :
  rest = [] ∨ (Forall (fresh h) (c0 :: rest) ∧ omap (rounded_aic h) (c0 :: rest) = []) →
  compile_group h (c0 :: rest) = Ok (<[c0 := provenance_obj h [c0] (h c0)]> h, c0).
Proof.
  intros Hcase. unfold compile_group.
  destruct (decide (length (c0 :: rest) = 1%nat)) as [_|Hmany].
  { by rewrite (getitem_lookup (c0 :: rest) 0 c0 eq_refl), bind_Ok, wrap_single_provenance. }
  destruct Hcase as [->|[Hfresh Hnone]]; [done|].
  rewrite (aic_entries_fresh _ _ Hfresh), bind_Ok, drop_nan_rounded.
  rewrite decide_True by done.
  by rewrite (getitem_lookup (c0 :: rest) 0 c0 eq_refl), bind_Ok, wrap_single_provenance.
Qed.

(** The branch that removes duplicates: the positions [np.unique] returns are
    those of the first occurrences among the rounded AIC values of the
    candidates with a model, and they select in the list of all candidates. *)
Lemma compile_group_dedup h cands :
  length cands ≠ 1%nat → Forall (fresh h) cands → omap (rounded_aic h) cands ≠ [] →
  ∃ rep retained uniqvals uniqids,
    compile_group h cands = Ok (<[rep := provenance_obj h retained (h rep)]> h, rep) ∧
    StronglySorted Z.lt uniqvals ∧
    (∀ v, v ∈ uniqvals ↔ v ∈ omap (rounded_aic h) cands) ∧
    Forall2 (first_occurrence (omap (rounded_aic h) cands)) uniqvals uniqids ∧
    Forall2 (λ k r, cands !! k = Some r) uniqids retained ∧
    head retained = Some rep.
Proof.
  intros Hmany Hfresh Hvals. unfold compile_group.
  rewrite decide_False by done.
  rewrite (aic_entries_fresh _ _ Hfresh), bind_Ok, drop_nan_rounded.
  rewrite decide_False by done.
  set (vals := omap (rounded_aic h) cands) in *.
  assert (length vals ≤ length cands)%nat as Hlen.
  { unfold vals. rewrite <- drop_nan_rounded.
    etrans; [apply length_drop_nan|]. by rewrite length_fmap. }
  destruct (np_unique_spec vals) as (Hsorted & Hmem & Hfirst).
  destruct (np_unique vals) as [uniqvals uniqids].
  cbn [fst snd] in Hsorted, Hmem, Hfirst.
  assert (Forall (λ k, is_Some (cands !! k)) uniqids) as Hin.
  { apply Forall_forall. intros k Hk.
    destruct (Forall2_elem_of_r _ _ _ _ Hfirst Hk) as (v & _ & Hv & _).
    apply lookup_lt_is_Some. apply lookup_lt_Some in Hv. lia. }
  destruct (mapM_getitem _ _ Hin) as (retained & Hpick & Hretained).
  rewrite Hpick, bind_Ok.
  destruct uniqids as [|u0 uniqids'].
  { apply Forall2_nil_inv_r in Hfirst as ->.
    destruct vals as [|v vals']; [done|].
    exfalso. eapply elem_of_nil, Hmem. left. }
  rewrite (getitem_lookup (u0 :: uniqids') 0 u0 eq_refl), bind_Ok.
  destruct retained as [|rep retained']; [by apply Forall2_nil_inv_r in Hretained|].
  pose proof Hretained as Hall.
  apply Forall2_cons in Hretained as [Hrep _].
  rewrite (getitem_lookup _ _ _ Hrep), bind_Ok.
  exists rep, (rep :: retained'), uniqvals, (u0 :: uniqids'). by split_and!.
Qed.

(** Every call either raises an [AttributeError], on two or more candidates
    of which one holds neither [None] nor a model, or rewrites one candidate
    with the provenance of a list of candidates that it heads. *)
Lemma compile_group_cases h cands :
  cands ≠ [] →
  (¬ compilable h cands ∧ compile_group h cands = Raise AttributeError) ∨
  (compilable h cands ∧
   ∃ rep retained,
     compile_group h cands = Ok (<[rep := provenance_obj h retained (h rep)]> h, rep) ∧
     head retained = Some rep ∧ ∀ c, c ∈ retained → c ∈ cands).
Proof.
  intros Hne. destruct (decide (compilable h cands)) as [Hok|Hbad].
  - right. split; [done|].
    destruct cands as [|c0 rest]; [done|].
    destruct (decide (rest = [] ∨
                      (Forall (fresh h) (c0 :: rest) ∧
                       omap (rounded_aic h) (c0 :: rest) = []))) as [Hfirst|Hdedup].
    + exists c0, [c0]. rewrite (compile_group_first _ _ _ Hfirst).
      split_and!; [done|done|]. intros c ->%list_elem_of_singleton. left.
    + assert (length (c0 :: rest) ≠ 1%nat) as Hmany.
      { intros Hlen. apply Hdedup. left. destruct rest; [done|discriminate]. }
      destruct Hok as [?|Hfresh]; [done|].
      destruct (compile_group_dedup h (c0 :: rest) Hmany Hfresh)
        as (rep & retained & uniqvals & uniqids & Hrun & _ & _ & _ & Hret & Hhead).
      { intros Hnone. apply Hdedup. by right. }
      exists rep, retained. split_and!; [done|done|].
      intros c Hc. destruct (Forall2_elem_of_r _ _ _ _ Hret Hc) as (k & _ & Hk).
      by eapply list_elem_of_lookup_2.
  - left. split; [done|]. unfold compile_group, compilable in *.
    rewrite decide_False by tauto.
    rewrite aic_entries_not_fresh by tauto. done.
Qed.

Lemma insert_index_same (h : heap) rep o :
  index o = index (h rep) → ∀ a, index ((<[rep := o]> h) a) = index (h a).
Proof.
  intros Ho a. destruct (decide (rep = a)) as [->|Hne].
  - by rewrite fn_lookup_insert.
  - by rewrite fn_lookup_insert_ne.
Qed.

Lemma fresh_insert_ne (h : heap) rep o a : rep ≠ a → fresh (<[rep := o]> h) a ↔ fresh h a.
Proof.
  intros Hne. unfold fresh, no_model, has_model. by rewrite fn_lookup_insert_ne.
Qed.

Lemma compilable_insert_other (h : heap) rep o cands :
  rep ∉ cands → compilable (<[rep := o]> h) cands ↔ compilable h cands.
Proof.
  intros Hnotin. unfold compilable.
  assert (Forall (fresh (<[rep := o]> h)) cands ↔ Forall (fresh h) cands) as ->; [|done].
  rewrite !Forall_forall.
  split; intros Hall a Ha; specialize (Hall a Ha);
    (apply (fresh_insert_ne h rep o a); [by intros ->|done]).
Qed.

Lemma provenance_obj_ext (h h' : heap) retained o :
  (∀ c, c ∈ retained → h' c = h c) →
  provenance_obj h' retained o = provenance_obj h retained o.
Proof.
  intros Hsame. unfold provenance_obj.
  f_equal; f_equal; apply list_fmap_ext; intros k c Hc;
    by rewrite (Hsame c (list_elem_of_lookup_2 _ _ _ Hc)).
Qed.

(** The loop over the distinct pixel indices, on any store: it raises an
    [AttributeError] at the first pixel index whose candidates cannot be
    compiled, and otherwise keeps every object's index, rewrites the returned
    tasks only, and returns for every position a task that heads a list of
    candidates of that pixel index and carries their provenance, read in the
    store the loop started from. *)
Lemma compile_results_cases completed indexarr_unique :
  NoDup indexarr_unique →
  ∀ ids h,
    NoDup ids →
    (∀ i, i ∈ ids → ∃ p, indexarr_unique !! i = Some p ∧ p ∈ indexarr_of h completed) →
    (compile_results h ids (indexarr_of h completed) indexarr_unique completed
       = Raise AttributeError ∧
     ∃ i p, i ∈ ids ∧ indexarr_unique !! i = Some p ∧
            ¬ compilable h (candidates h completed p)) ∨
    (∃ h' rs,
       compile_results h ids (indexarr_of h completed) indexarr_unique completed
         = Ok (h', rs) ∧
       (∀ a, index (h' a) = index (h a)) ∧
       (∀ a, a ∉ rs → h' a = h a) ∧
       Forall2 (compiled_from h h' completed indexarr_unique) ids rs).
Proof.
  intros Hnd ids. induction ids as [|i ids IH]; intros h Hids Hp.
  { right. exists h, []. split_and!; [done|done|done|constructor]. }
  apply NoDup_cons in Hids as [Hi Hids].
  destruct (Hp i) as (p & Hip & Hpin); [left|].
  simpl. rewrite (compilation_method_group _ _ _ _ _ Hip).
  destruct (compile_group_cases h (candidates h completed p))
    as [[Hbad ->]|(Hok & rep & retained & -> & Hhead & Hsub)].
  { by apply candidates_nonempty. }
  { left. split; [done|]. exists i, p. split_and!; [left|done|done]. }
  rewrite bind_Ok. cbn beta iota.
  assert (rep ∈ candidates h completed p) as Hrepc.
  { apply Hsub. destruct retained; [done|]. injection Hhead as ->. left. }
  pose proof Hrepc as [Hrep Hrepidx]%elem_of_candidates.
  set (o := provenance_obj h retained (h rep)).
  assert (∀ a, index ((<[rep := o]> h) a) = index (h a)) as Hsame
    by by apply insert_index_same.
  assert (∀ i' p', i' ∈ ids → indexarr_unique !! i' = Some p' →
                   rep ∉ candidates h completed p') as Hother.
  { intros i' p' Hi' Hp' [_ Hc]%elem_of_candidates. rewrite Hrepidx in Hc. subst p'.
    assert (i = i') as -> by exact (NoDup_lookup _ _ _ _ Hnd Hip Hp'). done. }
  destruct (IH (<[rep := o]> h)) as [[Hrun (i' & p' & Hi' & Hp' & Hbad)]
                                    |(h' & rs & Hrun & Hidx & Hframe & Hall)].
  - done.
  - intros i' Hi'. destruct (Hp i') as (p' & ? & ?); [by right|].
    exists p'. by rewrite (indexarr_of_ext _ _ _ Hsame).
  - left. rewrite (indexarr_of_ext _ _ _ Hsame) in Hrun. rewrite Hrun. split; [done|].
    exists i', p'. split_and!; [by right|done|].
    rewrite (candidates_ext _ _ _ _ Hsame) in Hbad.
    intros Hok'. apply Hbad. apply compilable_insert_other; [|done]. by eapply Hother.
  - right. rewrite (indexarr_of_ext _ _ _ Hsame) in Hrun. rewrite Hrun, bind_Ok.
    assert (rep ∉ rs) as Hnotin.
    { intros Hin.
      destruct (Forall2_elem_of_r _ _ _ _ Hall Hin)
        as (i' & Hi' & p' & retained' & Hp' & Hhead' & Hsub' & _).
      apply (Hother i' p' Hi' Hp').
      rewrite <- (candidates_ext _ _ _ _ Hsame). apply Hsub'.
      destruct retained'; [done|]. injection Hhead' as ->. left. }
    assert (h' rep = o) as Hrepo by by rewrite (Hframe _ Hnotin), fn_lookup_insert.
    exists h', (rep :: rs). split_and!; [done| | |].
    + intros a. by rewrite Hidx, Hsame.
    + intros a [Hne Ha]%not_elem_of_cons.
      by rewrite (Hframe _ Ha), fn_lookup_insert_ne.
    + constructor.
      * exists p, retained. by split_and!.
      * apply Forall2_same_length_lookup. split; [by eapply Forall2_length|].
        intros k i' r Hki' Hkr.
        destruct (Forall2_lookup_lr _ _ _ _ _ _ Hall Hki' Hkr)
          as (p' & retained' & Hp' & Hhead' & Hsub' & Hok' & Hr').
        rewrite (candidates_ext _ _ _ _ Hsame) in Hsub', Hok'.
        assert (rep ∉ candidates h completed p') as Hnotc.
        { eapply Hother; [|done]. by eapply list_elem_of_lookup_2. }
        assert (∀ c, c ∈ retained' → (<[rep := o]> h) c = h c) as Hext.
        { intros c Hc. rewrite fn_lookup_insert_ne; [done|].
          intros ->. apply Hnotc. by apply Hsub'. }
        assert (r ∈ retained') as Hrin.
        { destruct retained'; [done|]. injection Hhead' as ->. left. }
        exists p', retained'. split_and!; [done|done|done| |].
        -- by apply (compilable_insert_other h rep o).
        -- rewrite Hr', (provenance_obj_ext _ _ _ _ Hext). by rewrite (Hext r Hrin).
Qed.

Lemma compiled_from_keys h h' completed indexarr_unique rs :
  (∀ a, index (h' a) = index (h a)) →
  Forall2 (compiled_from h h' completed indexarr_unique)
          (seq 0 (length indexarr_unique)) rs →
  (λ a, index (h' a)) <$> rs = indexarr_unique.
Proof.
  intros Hidx Hall. apply list_eq. intros j. rewrite list_lookup_fmap.
  destruct (rs !! j) as [r|] eqn:Hr; simpl.
  - destruct (Forall2_lookup_r _ _ _ _ _ Hall Hr)
      as (i & Hi & p & retained & Hlook & Hhead & Hsub & _).
    apply lookup_seq in Hi as [-> _]. simpl in Hlook.
    assert (r ∈ candidates h completed p) as [_ Hc]%elem_of_candidates.
    { apply Hsub. destruct retained; [done|]. injection Hhead as ->. left. }
    by rewrite Hidx, Hc, Hlook.
  - symmetry. apply lookup_ge_None. apply lookup_ge_None in Hr.
    apply Forall2_length in Hall. rewrite length_seq in Hall. lia.
Qed.

Lemma fill_dict_from_other (k : loc → Z) (d0 : gmap Z loc) rs p :
  p ∉ k <$> rs → foldl (λ d r, <[k r := r]> d) d0 rs !! p = d0 !! p.
Proof.
  revert d0. induction rs as [|r rs IH]; intros d0 Hp; [done|].
  simpl in *. apply not_elem_of_cons in Hp as [Hne Hp].
  rewrite IH by done. by rewrite lookup_insert_ne.
Qed.

Lemma fill_dict_from_NoDup (k : loc → Z) (d0 : gmap Z loc) rs r :
  NoDup (k <$> rs) → r ∈ rs → foldl (λ d r, <[k r := r]> d) d0 rs !! k r = Some r.
Proof.
  revert d0. induction rs as [|x rs IH]; intros d0 Hnd Hr; [by apply elem_of_nil in Hr|].
  simpl in *. apply NoDup_cons in Hnd as [Hx Hnd].
  destruct (decide (r ∈ rs)) as [Hin|Hnotin]; [by apply IH|].
  apply elem_of_cons in Hr as [->|?]; [|done].
  rewrite fill_dict_from_other by done. by rewrite lookup_insert_eq.
Qed.

(** [compile_spectra] on any store: the error, or the stores, the results of
    the loop and the dictionary. *)
Lemma compile_spectra_cases h completed :
  (compile_spectra h completed = Raise AttributeError ∧
   ∃ p, p ∈ indexarr_of h completed ∧ ¬ compilable h (candidates h completed p)) ∨
  (∃ h' rs,
     compile_spectra h completed = Ok (h', fill_dict h' rs) ∧
     (∀ a, index (h' a) = index (h a)) ∧
     (∀ a, a ∉ rs → h' a = h a) ∧
     NoDup ((λ a, index (h' a)) <$> rs) ∧
     (∀ p, p ∈ (λ a, index (h' a)) <$> rs ↔ p ∈ indexarr_of h completed) ∧
     Forall2 (compiled_from h h' completed (np_sort (np_unique (indexarr_of h completed)).1))
             (seq 0 (length (np_sort (np_unique (indexarr_of h completed)).1))) rs).
Proof.
  unfold compile_spectra. fold (indexarr_of h completed).
  destruct (indexarr_unique_spec (indexarr_of h completed)) as [Hnd Hmem].
  set (indexarr_unique := np_sort (np_unique (indexarr_of h completed)).1) in *.
  destruct (compile_results_cases completed indexarr_unique Hnd
              (seq 0 (length indexarr_unique)) h)
    as [[Hrun (i & p & Hi & Hp & Hbad)]|(h' & rs & Hrun & Hidx & Hframe & Hall)].
  - apply NoDup_seq.
  - by apply seq_positions.
  - left. rewrite Hrun. split; [done|]. exists p. split; [|done].
    apply Hmem. by eapply list_elem_of_lookup_2.
  - right. rewrite Hrun, bind_Ok. exists h', rs.
    rewrite (compiled_from_keys _ _ _ _ _ Hidx Hall). by split_and!.
Qed.

(** X12: on any store and any list, [compile_spectra] either returns or
    raises an [AttributeError], never an [IndexError]; it raises exactly when
    some pixel index has two or more candidates of which one holds neither
    [None] nor a model in [model_from_parent].  When it returns, the keys of
    the dictionary are the pixel indices of the list, and no object has
    changed its pixel index. *)
Theorem compile_spectra_raises_only_attribute_error h completed :
  match compile_spectra h completed with
  | Ok (h', d) =>
      (∀ p, p ∈ indexarr_of h completed → compilable h (candidates h completed p)) ∧
      dom d = list_to_set (indexarr_of h completed) ∧
      (∀ a, index (h' a) = index (h a))
  | Raise e =>
      e = AttributeError ∧
      ∃ p, p ∈ indexarr_of h completed ∧ ¬ compilable h (candidates h completed p)
  | OutOfFuel => False
  end.
Proof.
  destruct (compile_spectra_cases h completed)
    as [[-> Hbad]|(h' & rs & -> & Hidx & _ & _ & Hkeys & Hall)]; [done|].
  split_and!; [| |done].
  - intros p Hp.
    destruct (indexarr_unique_spec (indexarr_of h completed)) as [_ Hmem].
    apply Hmem in Hp. apply list_elem_of_lookup_1 in Hp as [i Hi].
    assert (is_Some (rs !! i)) as [r Hr].
    { apply lookup_lt_is_Some. apply Forall2_length in Hall.
      rewrite length_seq in Hall. rewrite <- Hall. by eapply lookup_lt_Some. }
    assert (seq 0 (length (np_sort (np_unique (indexarr_of h completed)).1)) !! i
            = Some i) as Hseq.
    { apply lookup_seq. split; [done|]. by eapply lookup_lt_Some. }
    destruct (Forall2_lookup_lr _ _ _ _ _ _ Hall Hseq Hr)
      as (p' & retained & Hp' & _ & _ & Hok & _).
    congruence.
  - unfold fill_dict. rewrite fill_dict_from_dom, dom_empty_L.
    apply set_eq. intros p. rewrite elem_of_union, !elem_of_list_to_set, Hkeys.
    set_solver.
Qed.

(** X13: whenever [compile_spectra] returns, the compiled spectrum of a pixel
    index is a task of the list with that index, its three provenance
    attributes are lists of equal length, one entry per retained candidate,
    all of them candidates of that pixel index and the compiled spectrum the
    first of them, every other attribute of it is as before, and an object
    that is not a value of the dictionary is unchanged. *)
Theorem compile_spectra_provenance h completed h' d :
  compile_spectra h completed = Ok (h', d) →
  (∀ p rep, d !! p = Some rep →
     ∃ retained,
       head retained = Some rep ∧
       (∀ c, c ∈ retained → c ∈ candidates h completed p) ∧
       h' rep = provenance_obj h retained (h rep)) ∧
  (∀ b, (∀ p, d !! p ≠ Some b) → h' b = h b).
Proof.
  intros Hrun.
  destruct (compile_spectra_cases h completed)
    as [[Hraise _]|(h1 & rs & Hok & Hidx & Hframe & Hnd & _ & Hall)]; [congruence|].
  rewrite Hok in Hrun. injection Hrun as -> <-. split.
  - intros p rep Hd. unfold fill_dict in Hd.
    apply fill_dict_from_lookup in Hd as [[Hin Hk]|Hd]; [|done].
    destruct (Forall2_elem_of_r _ _ _ _ Hall Hin)
      as (i & _ & p' & retained & _ & Hhead & Hsub & _ & Hobj).
    assert (rep ∈ candidates h completed p') as [_ Hc]%elem_of_candidates.
    { apply Hsub. destruct retained; [done|]. injection Hhead as ->. left. }
    assert (p' = p) as -> by by rewrite <- Hk, Hidx.
    by exists retained.
  - intros b Hb. apply Hframe. intros Hin.
    apply (Hb (index (h' b))). unfold fill_dict.
    by apply (fill_dict_from_NoDup (λ a, index (h' a))).
Qed.

(** X14: a pixel index with a single candidate: the compiler adopts the
    candidate as it is, whatever its model attribute holds, and wraps each of
    its three provenance attributes in a list of length one. *)
Theorem single_candidate_is_adopted h completed indexarr_unique i p a :
  indexarr_unique !! i = Some p →
  candidates h completed p = [a] →
  ∃ h',
    compilation_method h i (indexarr_of h completed) indexarr_unique completed
      = Ok (h', a) ∧
    saa_dict_index (h' a) = PyList [saa_dict_index (h a)] ∧
    saaindex (h' a) = PyList [saaindex (h a)] ∧
    model_from_parent (h' a) = PyList [model_from_parent (h a)] ∧
    ∀ b, b ≠ a → h' b = h b.
Proof.
  intros Hi Hc. rewrite (compilation_method_group _ _ _ _ _ Hi), Hc.
  rewrite compile_group_first by by left.
  eexists. split; [done|]. rewrite fn_lookup_insert. split_and!; [done..|].
  intros b Hb. by rewrite fn_lookup_insert_ne.
Qed.

Lemma sorted_all_equal (l : list Z) v :
  StronglySorted Z.lt l → (∀ x, x ∈ l ↔ x = v) → l = [v].
Proof.
  intros Hs Hmem. destruct l as [|x [|y l]].
  - exfalso. eapply elem_of_nil, Hmem. done.
  - f_equal. apply Hmem. left.
  - exfalso. apply StronglySorted_cons in Hs as [Hx _].
    apply Forall_cons in Hx as [Hxy _].
    assert (x = v) by (apply Hmem; left).
    assert (y = v) by (apply Hmem; right; left). lia.
Qed.

(** X15: when the first candidate of a pixel index has a model, and every
    other candidate has a model whose AIC [np.around] rounds to the same
    binary64 value, or has no model, or a model whose AIC is NaN, only the
    first candidate is retained: it is the representative and the provenance
    lists have length one. *)
Theorem equal_aic_keeps_first h completed indexarr_unique i p first rest v :
  indexarr_unique !! i = Some p →
  candidates h completed p = first :: rest →
  rest ≠ [] →
  rounded_aic h first = Some v →
  Forall (λ a, rounded_aic h a = Some v ∨ unscored h a) rest →
  ∃ h',
    compilation_method h i (indexarr_of h completed) indexarr_unique completed
      = Ok (h', first) ∧
    saa_dict_index (h' first) = PyList [saa_dict_index (h first)] ∧
    saaindex (h' first) = PyList [saaindex (h first)] ∧
    model_from_parent (h' first) = PyList [model_from_parent (h first)] ∧
    ∀ b, b ≠ first → h' b = h b.
Proof.
  intros Hi Hc Hrest Hfirst Hall.
  rewrite (compilation_method_group _ _ _ _ _ Hi), Hc.
  assert (∀ a, rounded_aic h a = Some v → fresh h a) as Hmodel.
  { intros a Ha. right. unfold rounded_aic, has_model in *.
    destruct (model_from_parent (h a)); try done. by eexists. }
  assert (omap (rounded_aic h) (first :: rest)
          = v :: omap (rounded_aic h) rest) as Hvals.
  { csimpl. by rewrite Hfirst. }
  assert (∀ x, x ∈ omap (rounded_aic h) (first :: rest) ↔ x = v) as Hmem.
  { intros x. split; [|intros ->; rewrite Hvals; left].
    intros (a & Ha & Hx)%list_elem_of_omap.
    apply elem_of_cons in Ha as [->|Ha]; [congruence|].
    rewrite Forall_forall in Hall. destruct (Hall a Ha) as [?|[_ Hnone]]; congruence. }
  destruct (compile_group_dedup h (first :: rest))
    as (rep & retained & uniqvals & uniqids & Hrun & Hsorted & Huv & Hui & Hret & Hhead).
  { destruct rest; [done|]. simpl. lia. }
  { constructor; [by apply Hmodel|].
    eapply Forall_impl; [exact Hall|]. intros a [?|[? _]]; [by apply Hmodel|done]. }
  { by rewrite Hvals. }
  assert (uniqvals = [v]) as ->.
  { apply sorted_all_equal; [done|]. intros x. by rewrite Huv, Hmem. }
  apply Forall2_cons_inv_l in Hui as (k & uniqids' & [Hk Hmin] & ->%Forall2_nil_inv_l & ->).
  assert (k = 0%nat) as ->.
  { assert (0 ≤ k)%nat by lia. specialize (Hmin 0%nat). rewrite Hvals in Hmin.
    specialize (Hmin eq_refl). lia. }
  apply Forall2_cons_inv_l in Hret as (r & retained' & Hr & ->%Forall2_nil_inv_l & ->).
  simpl in Hr, Hhead. injection Hr as <-. injection Hhead as <-.
  rewrite Hrun. eexists. split; [done|]. rewrite fn_lookup_insert.
  split_and!; [done..|].
  intros b Hb. by rewrite fn_lookup_insert_ne.
Qed.

Lemma length_omap_rounded h cands :
  Exists (unscored h) cands →
  (length (omap (rounded_aic h) cands) < length cands)%nat.
Proof.
  assert (∀ l : list loc, (length (omap (rounded_aic h) l) ≤ length l)%nat) as Hle.
  { intros l. rewrite <- drop_nan_rounded.
    etrans; [apply length_drop_nan|]. by rewrite length_fmap. }
  induction 1 as [a cands Ha|a cands _ IH]; csimpl.
  - destruct Ha as [_ ->]. specialize (Hle cands). lia.
  - destruct (rounded_aic h a); simpl; lia.
Qed.

(** X16: the branch that removes duplicates, on candidates as the scheduler
    leaves them, of which one at least has a model whose rounded AIC is not
    NaN: [np.unique] returns the distinct rounded AIC values, every one of
    them, in increasing order, each with the position of its first occurrence
    among the rounded AIC values that are not NaN; the retained candidates are
    read at these positions from the list of all the candidates.  The two
    agree when every candidate without a rounded AIC comes last; as soon as
    one candidate has none, the last candidate of the list is never
    retained. *)
Theorem dedup_positions_skip_null_candidates h completed indexarr_unique i p cands :
  indexarr_unique !! i = Some p →
  candidates h completed p = cands →
  (2 ≤ length cands)%nat →
  Forall (fresh h) cands →
  Exists (scored h) cands →
  ∃ h' rep retained uniqvals uniqids,
    compilation_method h i (indexarr_of h completed) indexarr_unique completed
      = Ok (h', rep) ∧
    StronglySorted Z.lt uniqvals ∧
    (∀ v, v ∈ uniqvals ↔ ∃ c, c ∈ cands ∧ rounded_aic h c = Some v) ∧
    Forall2 (first_occurrence (omap (rounded_aic h) cands)) uniqvals uniqids ∧
    Forall2 (λ k r, cands !! k = Some r) uniqids retained ∧
    head retained = Some rep ∧
    h' rep = provenance_obj h retained (h rep) ∧
    (∀ b, b ≠ rep → h' b = h b) ∧
    (Exists (unscored h) cands → NoDup cands →
     ∀ c, last cands = Some c → c ∉ retained).
Proof.
  intros Hi Hc Hlen Hfresh Hmodel.
  rewrite (compilation_method_group _ _ _ _ _ Hi), Hc.
  destruct (compile_group_dedup h cands)
    as (rep & retained & uniqvals & uniqids & Hrun & Hsorted & Huv & Hui & Hret & Hhead).
  { lia. }
  { done. }
  { apply Exists_exists in Hmodel as (a & Ha & v & Hv).
    intros Hnil.
    assert (v ∈ omap (rounded_aic h) cands) as Hin.
    { apply list_elem_of_omap. by exists a. }
    rewrite Hnil in Hin. by apply elem_of_nil in Hin. }
  exists (<[rep := provenance_obj h retained (h rep)]> h), rep, retained, uniqvals, uniqids.
  split_and!; [done|done| |done|done|done| | |].
  - intros v. by rewrite Huv, list_elem_of_omap.
  - by rewrite fn_lookup_insert.
  - intros b Hb. by rewrite fn_lookup_insert_ne.
  - intros Hnull Hnd c Hlast Hin.
    destruct (Forall2_elem_of_r _ _ _ _ Hret Hin) as (k & Hk & Hkc).
    destruct (Forall2_elem_of_r _ _ _ _ Hui Hk) as (w & _ & Hw & _).
    apply lookup_lt_Some in Hw. pose proof (length_omap_rounded h cands Hnull).
    rewrite last_lookup in Hlast.
    pose proof (NoDup_lookup _ _ _ _ Hnd Hkc Hlast). lia.
Qed.

(** ** The order of the completed list across pixels *)

Lemma np_sort_sorted ar : StronglySorted Z.le (np_sort ar).
Proof.
  unfold np_sort. eapply StronglySorted_fmap; [|apply argsort_sorted].
  intros x y. apply lex_lt_fst.
Qed.

Lemma indexarr_unique_ext indexarr1 indexarr2 :
  (∀ p, p ∈ indexarr1 ↔ p ∈ indexarr2) →
  np_sort (np_unique indexarr1).1 = np_sort (np_unique indexarr2).1.
Proof.
  intros Hsame.
  destruct (indexarr_unique_spec indexarr1) as [Hnd1 Hmem1].
  destruct (indexarr_unique_spec indexarr2) as [Hnd2 Hmem2].
  apply (StronglySorted_unique_strong Z.le); [intros; lia|apply np_sort_sorted..|].
  apply NoDup_Permutation; [done..|]. intros p. by rewrite Hmem1, Hmem2.
Qed.

Lemma elem_of_indexarr_candidates h completed p :
  p ∈ indexarr_of h completed ↔ candidates h completed p ≠ [].
Proof.
  split; [apply candidates_nonempty|].
  intros Hne. destruct (candidates h completed p) as [|a l] eqn:Hc; [done|].
  assert (a ∈ candidates h completed p) as [Ha Hp]%elem_of_candidates
    by (rewrite Hc; left).
  unfold indexarr_of. apply list_elem_of_fmap. by exists a.
Qed.

Lemma compile_group_index h cands h' r :
  compile_group h cands = Ok (h', r) → ∀ a, index (h' a) = index (h a).
Proof.
  intros Hrun. destruct cands as [|c0 rest]; [discriminate Hrun|].
  destruct (compile_group_cases h (c0 :: rest))
    as [[_ Hraise]|(_ & rep & retained & Hok & _)]; [done|congruence|].
  rewrite Hok in Hrun. injection Hrun as <- <-. by apply insert_index_same.
Qed.

Lemma compile_results_ext h0 completed1 completed2 indexarr_unique :
  (∀ p, candidates h0 completed1 p = candidates h0 completed2 p) →
  ∀ ids h,
    (∀ a, index (h a) = index (h0 a)) →
    (∀ i, i ∈ ids → is_Some (indexarr_unique !! i)) →
    compile_results h ids (indexarr_of h0 completed1) indexarr_unique completed1
    = compile_results h ids (indexarr_of h0 completed2) indexarr_unique completed2.
Proof.
  intros Hcands ids. induction ids as [|i ids IH]; intros h Hidx Hids; [done|].
  destruct (Hids i) as [p Hp]; [left|]. simpl.
  rewrite <- !(indexarr_of_ext _ _ _ Hidx).
  rewrite !(compilation_method_group _ _ _ _ _ Hp).
  rewrite !(candidates_ext _ _ _ _ Hidx), Hcands.
  destruct (compile_group h (candidates h0 completed2 p)) as [[h1 r]|e|] eqn:Hrun;
    [|done|done].
  rewrite !bind_Ok. cbn beta iota.
  assert (∀ a, index (h1 a) = index (h0 a)) as Hidx1.
  { intros a. by rewrite (compile_group_index _ _ _ _ Hrun), Hidx. }
  rewrite !(indexarr_of_ext _ _ _ Hidx).
  rewrite (IH h1 Hidx1); [done|]. intros i' Hi'. apply Hids. by right.
Qed.

(** X17: the result of [compile_spectra] depends on the completed list only
    through the candidates of each pixel index, in their order: two lists
    that give every pixel index the same candidates in the same order, however
    the candidates of different pixel indices are interleaved, are compiled to
    the same store and the same dictionary, or raise the same error. *)
Theorem compile_spectra_depends_on_candidates h completed1 completed2 :
  (∀ p, candidates h completed1 p = candidates h completed2 p) →
  compile_spectra h completed1 = compile_spectra h completed2.
Proof.
  intros Hcands. unfold compile_spectra.
  fold (indexarr_of h completed1). fold (indexarr_of h completed2).
  rewrite (indexarr_unique_ext (indexarr_of h completed1) (indexarr_of h completed2)).
  - rewrite (compile_results_ext h completed1 completed2 _ Hcands); [done|done|].
    intros i [_ Hi]%elem_of_seq. by apply lookup_lt_is_Some.
  - intros p. by rewrite !elem_of_indexarr_candidates, Hcands.
Qed.

(** ** From the task generator to the dictionary *)

Lemma tasks_of_dicts_plain get_rms scouseobject ids o :
  o ∈ tasks_of_dicts get_rms scouseobject ids → model_from_parent o = PyNone.
Proof.
  unfold tasks_of_dicts, tasks_of_dict, tasks_of_saa.
  intros (i & Ho & _)%list_elem_of_bind.
  apply list_elem_of_bind in Ho as (item & Ho & _).
  destruct (to_be_fit item.2); [|by apply elem_of_nil in Ho].
  by apply list_elem_of_fmap in Ho as (yx & -> & _).
Qed.

Section Stage3Pipeline.

Context (np_take : list Q → list nat → list Q).
Context (get_rms : list Q → Q).
Context (fit : fit_call → fit_outcome).

(** X18: stage 3 end to end: on the tasks that [initialise_fitting] returns,
    whenever the loop of [autonomous_decomposition] returns, [compile_spectra]
    returns too, and the keys of its dictionary are exactly the flat indices
    of the pixels of the areas that are to be fit; the compiled spectrum of a
    key is one of the generated tasks of that pixel. *)
Theorem generated_tasks_compile scouseobject h next h1 next1 tasks fuel h2 completed :
  initialise_fitting get_rms scouseobject h next = Ok (h1, next1, tasks) →
  autonomous_decomposition np_take fit fuel scouseobject h1 tasks = Ok (h2, completed) →
  ∃ h3 d,
    compile_spectra h2 completed = Ok (h3, d) ∧
    dom d = list_to_set
              (index <$> tasks_of_dicts get_rms scouseobject
                           (seq 0 (length (wsaa scouseobject)))) ∧
    (∀ p rep, d !! p = Some rep → rep ∈ tasks ∧ index (h1 rep) = p).
Proof.
  intros Hinit Hrun.
  assert (h1 <$> tasks
          = tasks_of_dicts get_rms scouseobject (seq 0 (length (wsaa scouseobject))))
    as Hobjs.
  { unfold initialise_fitting in Hinit.
    pose proof (spectra_of_dicts_cases get_rms scouseobject
                  (seq 0 (length (wsaa scouseobject))) (h, next, [])) as Hcases.
    rewrite Hinit in Hcases. destruct Hcases as [_ (_ & Htasks & Hobjs & _)].
    simpl in *. by rewrite Htasks. }
  unfold autonomous_decomposition in Hrun.
  destruct (retry_loop_extends _ _ _ _ _ _ _ _ _ Hrun) as (later & -> & Hperm).
  simpl in *.
  assert (∀ a, a ∈ later ↔ a ∈ tasks) as Hsame by (intros a; by rewrite Hperm).
  assert (∀ a, index (h2 a) = index (h1 a)) as Hidx12.
  { intros a.
    eapply (retry_loop_pointwise np_take fit (λ o o', index o' = index o));
      [done|congruence| |exact Hrun].
    intros o r. by destruct (classify r). }
  assert (Forall (fresh h2) later) as Hfresh.
  { apply Forall_forall. intros a Ha%Hsame.
    assert (plain_model (h2 a)) as Hplain; [|exact Hplain].
    eapply retry_loop_plain_model; [exact Hrun|]. left.
    apply (tasks_of_dicts_plain get_rms scouseobject
             (seq 0 (length (wsaa scouseobject)))).
    rewrite <- Hobjs. apply list_elem_of_fmap. by exists a. }
  destruct (compile_spectra_cases h2 later)
    as [[_ (p & Hp & Hbad)]|(h3 & rs & Hok & Hidx & _ & _ & Hkeys & Hall)].
  { exfalso. apply Hbad. right. apply Forall_forall.
    intros a [Ha _]%elem_of_candidates. rewrite Forall_forall in Hfresh. by apply Hfresh. }
  exists h3, (fill_dict h3 rs). split_and!; [done| |].
  - unfold fill_dict. rewrite fill_dict_from_dom, dom_empty_L, <- Hobjs.
    apply set_eq. intros p. rewrite elem_of_union, !elem_of_list_to_set, Hkeys.
    unfold indexarr_of. rewrite <- list_fmap_compose, !list_elem_of_fmap.
    split.
    + intros [?|(a & -> & Ha)]; [set_solver|]. exists a. simpl. by rewrite Hidx12, <- Hsame.
    + intros (a & -> & Ha). right. exists a. simpl. by rewrite Hidx12, Hsame.
  - intros p rep Hd. unfold fill_dict in Hd.
    apply fill_dict_from_lookup in Hd as [[Hin Hk]|Hd]; [|done].
    destruct (Forall2_elem_of_r _ _ _ _ Hall Hin)
      as (i & _ & p' & retained & _ & Hhead & Hsub & _).
    assert (rep ∈ candidates h2 later p') as [Hc _]%elem_of_candidates.
    { apply Hsub. destruct retained; [done|]. injection Hhead as ->. left. }
    split; [by apply Hsame|]. by rewrite <- Hk, Hidx, Hidx12.
Qed.

End Stage3Pipeline.

(** ** The properties on the small run *)

Lemma initialise_fitting_tasks_witness :
  demo_store <$> demo_tasks
  = tasks_of_dicts demo_rms demo_scouse (seq 0 (length (wsaa demo_scouse))).
Proof.
  apply (initialise_fitting_tasks demo_rms demo_scouse demo_blank 0%nat demo_store 4%nat
           demo_tasks).
  reflexivity.
Defined.

Lemma initialise_fitting_allocates_witness :
  demo_tasks = seq 0 (length demo_tasks) ∧
  4%nat = (0 + length demo_tasks)%nat ∧
  ∀ b, b ∉ demo_tasks → demo_store b = demo_blank b.
Proof.
  apply (initialise_fitting_allocates demo_rms demo_scouse demo_blank 0%nat demo_store
           4%nat demo_tasks).
  reflexivity.
Defined.

Lemma same_index_same_pixel_witness :
  coordinates (demo_store 1%nat) = coordinates (demo_store 2%nat) ∧
  spectrum (demo_store 1%nat) = spectrum (demo_store 2%nat) ∧
  rms (demo_store 1%nat) = rms (demo_store 2%nat).
Proof.
  apply (same_index_same_pixel demo_rms demo_scouse (4, 2, 2) demo_blank 0%nat demo_store
           4%nat demo_tasks 1%nat 2%nat).
  - intros i items item Hlook Hitem.
    destruct i as [|[|i]]; simpl in Hlook; [| |discriminate Hlook];
      injection Hlook as <-;
      repeat (apply elem_of_cons in Hitem as [->|Hitem]; [reflexivity|]);
      by apply elem_of_nil in Hitem.
  - reflexivity.
  - right. left.
  - right. right. left.
  - reflexivity.
Defined.

Lemma autonomous_decomposition_writes_witness :
  (∀ b, scheduler_writes (demo_store b) (demo_final b)) ∧
  (∀ b, b ∉ demo_tasks → demo_final b = demo_store b) ∧
  (∀ a, a ∈ demo_tasks → template (demo_final a) = None).
Proof.
  apply (autonomous_decomposition_writes demo_take demo_fit 2 demo_scouse demo_store
           demo_tasks demo_final [2; 3; 0; 1]%nat).
  reflexivity.
Defined.

Lemma refined_guesses_stay_nonempty_witness :
  refined_guesses_nonempty (demo_store 0%nat) ∧
  refined_guesses_nonempty (demo_final 0%nat).
Proof.
  assert (refined_guesses_nonempty (demo_store 0%nat)) as Hbefore
    by (intros Heq; discriminate Heq).
  split; [exact Hbefore|].
  apply (refined_guesses_stay_nonempty demo_take demo_fit 2 demo_scouse demo_store
           demo_tasks demo_final [2; 3; 0; 1]%nat); [reflexivity|exact Hbefore].
Defined.

Lemma single_refined_guess_is_not_used_witness :
  ∃ h' pending completed',
    iteration demo_take demo_fit demo_scouse three_guesses [0%nat] []
      = Ok (h', pending, completed') ∧
    0%nat ∈ pending ∧
    guesses_updated (h' 0%nat) = Some [3%Q] ∧
    call_guesses (fit_call_of demo_take (make_input demo_scouse (h' 0%nat)))
    = guesses_from_parent (three_guesses 0%nat).
Proof.
  apply (single_refined_guess_is_not_used demo_take demo_fit demo_scouse three_guesses
           [0%nat] [] 0%nat 3%Q).
  - apply NoDup_singleton.
  - left.
  - reflexivity.
Defined.

Lemma single_refined_guess_never_ends_witness :
  autonomous_decomposition demo_take demo_fit 5 demo_scouse three_guesses [0%nat]
  = OutOfFuel.
Proof.
  apply (single_refined_guess_never_ends demo_take demo_fit demo_scouse 5 three_guesses
           [0%nat] 0%nat 3%Q).
  - apply NoDup_singleton.
  - left.
  - reflexivity.
  - simpl. lia.
  - reflexivity.
Defined.

Lemma compile_spectra_provenance_witness :
  (∀ p rep, demo_dict !! p = Some rep →
     ∃ retained,
       head retained = Some rep ∧
       (∀ c, c ∈ retained → c ∈ candidates demo_final [2; 3; 0; 1]%nat p) ∧
       demo_compiled_store rep = provenance_obj demo_final retained (demo_final rep)) ∧
  (∀ b, (∀ p, demo_dict !! p ≠ Some b) → demo_compiled_store b = demo_final b).
Proof.
  apply (compile_spectra_provenance demo_final [2; 3; 0; 1]%nat demo_compiled_store
           demo_dict).
  reflexivity.
Defined.

Lemma single_candidate_is_adopted_witness :
  ∃ h',
    compilation_method three_tasks 1 (indexarr_of three_tasks [0; 1; 2]%nat) [7; 8]
      [0; 1; 2]%nat = Ok (h', 1%nat) ∧
    saa_dict_index (h' 1%nat) = PyList [saa_dict_index (three_tasks 1%nat)] ∧
    saaindex (h' 1%nat) = PyList [saaindex (three_tasks 1%nat)] ∧
    model_from_parent (h' 1%nat) = PyList [model_from_parent (three_tasks 1%nat)] ∧
    ∀ b, b ≠ 1%nat → h' b = three_tasks b.
Proof.
  apply (single_candidate_is_adopted three_tasks [0; 1; 2]%nat [7; 8] 1 8 1%nat);
    reflexivity.
Defined.

Lemma equal_aic_keeps_first_witness :
  ∃ h',
    compilation_method rounding_tie 0 (indexarr_of rounding_tie [0; 1]%nat) [7]
      [0; 1]%nat = Ok (h', 0%nat) ∧
    saa_dict_index (h' 0%nat) = PyList [saa_dict_index (rounding_tie 0%nat)] ∧
    saaindex (h' 0%nat) = PyList [saaindex (rounding_tie 0%nat)] ∧
    model_from_parent (h' 0%nat) = PyList [model_from_parent (rounding_tie 0%nat)] ∧
    ∀ b, b ≠ 0%nat → h' b = rounding_tie b.
Proof.
  apply (equal_aic_keeps_first rounding_tie [0; 1]%nat [7] 0 7 0%nat [1%nat]
           (default 0 (float_key 0.02%float))).
  - reflexivity.
  - reflexivity.
  - discriminate.
  - reflexivity.
  - constructor; [left; reflexivity|constructor].
Defined.

Lemma dedup_positions_skip_null_candidates_witness :
  ∃ h' rep retained uniqvals uniqids,
    compilation_method null_then_model 0 (indexarr_of null_then_model [0; 1]%nat) [7]
      [0; 1]%nat = Ok (h', rep) ∧
    StronglySorted Z.lt uniqvals ∧
    (∀ v, v ∈ uniqvals ↔ ∃ c, c ∈ [0; 1]%nat ∧ rounded_aic null_then_model c = Some v) ∧
    Forall2 (first_occurrence (omap (rounded_aic null_then_model) [0; 1]%nat))
            uniqvals uniqids ∧
    Forall2 (λ k r, [0; 1]%nat !! k = Some r) uniqids retained ∧
    head retained = Some rep ∧
    h' rep = provenance_obj null_then_model retained (null_then_model rep) ∧
    (∀ b, b ≠ rep → h' b = null_then_model b) ∧
    (Exists (unscored null_then_model) [0; 1]%nat → NoDup [0; 1]%nat →
     ∀ c, last [0; 1]%nat = Some c → c ∉ retained).
Proof.
  apply (dedup_positions_skip_null_candidates null_then_model [0; 1]%nat [7] 0 7
           [0; 1]%nat).
  - reflexivity.
  - reflexivity.
  - simpl. lia.
  - apply Forall_cons_2; [left; reflexivity|].
    apply Forall_cons_2; [right; eexists; reflexivity|apply Forall_nil_2].
  - apply Exists_cons_tl, Exists_cons_hd. eexists. reflexivity.
Defined.

Lemma generated_tasks_compile_witness :
  ∃ h3 d,
    compile_spectra demo_final [2; 3; 0; 1]%nat = Ok (h3, d) ∧
    dom d = list_to_set
              (index <$> tasks_of_dicts demo_rms demo_scouse
                           (seq 0 (length (wsaa demo_scouse)))) ∧
    (∀ p rep, d !! p = Some rep → rep ∈ demo_tasks ∧ index (demo_store rep) = p).
Proof.
  apply (generated_tasks_compile demo_take demo_rms demo_fit demo_scouse demo_blank 0%nat
           demo_store 4%nat demo_tasks 2 demo_final [2; 3; 0; 1]%nat);
    reflexivity.
Defined.

Lemma task_result_is_independent_witness : demo_final 0%nat = demo_alone 0%nat.
Proof.
  apply (task_result_is_independent demo_take demo_fit demo_scouse 2 2 demo_store
           demo_store demo_tasks [0%nat] demo_final demo_alone [2; 3; 0; 1]%nat [0%nat]
           0%nat).
  - unfold demo_tasks. repeat (apply NoDup_cons_2; [set_solver by lia|]). apply NoDup_nil_2.
  - apply NoDup_singleton.
  - left.
  - left.
  - reflexivity.
  - reflexivity.
  - reflexivity.
Defined.

Lemma compile_spectra_depends_on_candidates_witness :
  compile_spectra three_tasks [0; 1; 2]%nat = compile_spectra three_tasks [1; 0; 2]%nat.
Proof.
  apply (compile_spectra_depends_on_candidates three_tasks [0; 1; 2]%nat [1; 0; 2]%nat).
  intros p. unfold candidates. rewrite !filter_cons, !filter_nil. simpl.
  destruct (decide (7 = p)), (decide (8 = p)); try reflexivity. lia.
Defined.
